(** * Spoiler mess: generation, atlas layout, serialization and disk cache

    A shallow embedding of [ui/effects/spoiler_mess.cpp] and the properties
    its design document states about it.

    Conventions of the embedding.

    - [int], [int32] and [crl::time] (a 64-bit signed integer) values are
      integers of [Z]; the ranges of the types are the predicates
      [in_int32] and [in_int64].  Unsigned arithmetic and the conversions
      between a field and its bytes wrap, and the wrap is written out
      ([wrap32], [to_int32]).  C++ gives no meaning to an overflowing signed
      operation; the build computes it in two's complement, and
      [GenerateParticle] and the first lines of [GenerateSpoilerMess] (the
      grid of the atlas, the two durations, the size of the random buffer)
      are written with that wrap ([to_int32], [to_int64]).  Elsewhere
      signed arithmetic is that of [Z], which is the arithmetic of the code
      as long as the results fit their types.
    - [float64] values are finite, hence rational: they are numbers of [Q],
      and every [float64] operation rounds its exact result to the nearest
      [float64] ([round64]).
    - [Expects] and [Assert] terminate the process when their condition is
      false.  A function that may do so returns a [contract]: [Aborted] or
      [Returned v].  A read outside the buffer of an image has no defined
      behaviour; the embedding ends such a run with [Aborted] as well and
      says nothing about what it would return.
    - Qt's raster engine, its PNG codec, xxHash and the random generator of
      lib_base are outside this file; they are variables of the sections
      that use them.
    - A [QImage] is its format, its size and its pixels in scan-line order,
      without the padding at the end of a scan line. *)

From Stdlib Require Import ZArith List Lia Bool QArith Qround Qabs Qpower.
From Stdlib Require Import Strings.String Strings.Byte.
Import ListNotations.
Open Scope Z_scope.

(** ** Contract failures *)

Inductive contract (A : Type) : Type :=
| Aborted : contract A
| Returned : A -> contract A.

Arguments Aborted {A}.
Arguments Returned {A} _.

Definition bind {A B : Type} (c : contract A) (k : A -> contract B) : contract B :=
  match c with
  | Aborted => Aborted
  | Returned a => k a
  end.

Declare Scope contract_scope.
Delimit Scope contract_scope with contract.
Notation "x <- c ;; k" := (bind c (fun x => k))
  (at level 61, c at next level, right associativity) : contract_scope.
Notation "' p <- c ;; k" := (bind c (fun x => let p := x in k))
  (at level 61, p pattern, c at next level, right associativity) : contract_scope.
Notation "c ;;; k" := (bind c (fun _ => k))
  (at level 61, right associativity) : contract_scope.
Open Scope contract_scope.

Definition Expects (condition : bool) : contract unit :=
  if condition then Returned tt else Aborted.

Definition Assert (condition : bool) : contract unit := Expects condition.

Lemma bind_Returned (A B : Type) (c : contract A) (k : A -> contract B) (b : B) :
  bind c k = Returned b -> exists a, c = Returned a /\ k a = Returned b.
Proof. destruct c as [|a]; simpl; [discriminate | eauto]. Qed.

Lemma Expects_Returned (b : bool) (u : unit) : Expects b = Returned u -> b = true.
Proof. destruct b; simpl; [reflexivity | discriminate]. Qed.

Lemma Expects_true (b : bool) : b = true -> Expects b = Returned tt.
Proof. intros ->. reflexivity. Qed.

Lemma Expects_false (b : bool) : b = false -> Expects b = Aborted.
Proof. intros ->. reflexivity. Qed.

(** ** Machine integers *)

Definition int32_max : Z := 2147483647.
Definition in_int32 (v : Z) : Prop := - 2147483648 <= v <= int32_max.
Definition in_int64 (v : Z) : Prop := - 9223372036854775808 <= v <= 9223372036854775807.
Definition in_uint32 (v : Z) : Prop := 0 <= v < 4294967296.

(** Conversion to [uint32]: reduction modulo 2^32. *)
Definition wrap32 (v : Z) : Z := v mod 4294967296.

(** The [int32] with the same 32 bits as an [uint32]. *)
Definition to_int32 (v : Z) : Z :=
  let u := wrap32 v in
  if u <? 2147483648 then u else u - 4294967296.

(** The [int64] with the same 64 bits as an integer. *)
Definition to_int64 (v : Z) : Z :=
  let u := v mod 18446744073709551616 in
  if u <? 9223372036854775808 then u else u - 18446744073709551616.

Lemma wrap32_range v : in_uint32 (wrap32 v).
Proof. unfold in_uint32, wrap32. apply Z.mod_pos_bound. lia. Qed.

Lemma wrap32_small v : in_uint32 v -> wrap32 v = v.
Proof. unfold in_uint32, wrap32. intros H. apply Z.mod_small. lia. Qed.

Lemma to_int32_range v : in_int32 (to_int32 v).
Proof.
  unfold to_int32, in_int32, int32_max.
  pose proof (wrap32_range v) as H. unfold in_uint32 in H.
  destruct (Z.ltb_spec (wrap32 v) 2147483648); lia.
Qed.

Lemma to_int32_small v : in_int32 v -> to_int32 v = v.
Proof.
  unfold in_int32, int32_max, to_int32, wrap32. intros H.
  destruct (Z_lt_le_dec v 0) as [Hneg | Hpos].
  - replace (v mod 4294967296) with (v + 4294967296).
    + destruct (Z.ltb_spec (v + 4294967296) 2147483648); lia.
    + apply Z.mod_unique with (q := -1); lia.
  - rewrite Z.mod_small by lia.
    destruct (Z.ltb_spec v 2147483648); lia.
Qed.

Lemma to_int32_wrap32 v : in_int32 v -> to_int32 (wrap32 v) = v.
Proof.
  intros H. rewrite <- (to_int32_small v H) at 2.
  unfold to_int32, wrap32. rewrite Z.mod_mod by lia. reflexivity.
Qed.

Lemma to_int64_small v : in_int64 v -> to_int64 v = v.
Proof.
  unfold in_int64, to_int64. intros H.
  destruct (Z_lt_le_dec v 0) as [Hneg | Hpos].
  - replace (v mod 18446744073709551616) with (v + 18446744073709551616).
    + destruct (Z.ltb_spec (v + 18446744073709551616) 9223372036854775808); lia.
    + apply Z.mod_unique with (q := -1); lia.
  - rewrite Z.mod_small by lia.
    destruct (Z.ltb_spec v 9223372036854775808); lia.
Qed.

(** ** [float64]

    A finite [float64] is a rational [m · 2^e] with an integer [m] of at
    most 53 bits and [e >= -1074].  The operations of the code round the
    exact result to the nearest such number, to the one with an even [m]
    when two are equally near.  Results beyond the largest [float64] do not
    arise from the integers and sizes of this file, and are not modelled. *)

(** [⌊log2 q⌋] for a positive rational. *)
Definition Qlog2 (q : Q) : Z :=
  let k := Z.log2 (Qnum q) - Z.log2 (Zpos (Qden q)) in
  if Qle_bool (2 ^ k) q then k else k - 1.

(** The nearest integer, the even one of two that are equally near. *)
Definition round_half_even (x : Q) : Z :=
  let f := Qfloor x in
  match (x - inject_Z f ?= 1 # 2)%Q with
  | Lt => f
  | Gt => f + 1
  | Eq => if Z.even f then f else f + 1
  end.

Definition round64 (q : Q) : Q :=
  if Qeq_bool q 0 then 0%Q else
  let e := Z.max (Qlog2 (Qabs q) - 52) (-1074) in
  (inject_Z (round_half_even (q / 2 ^ e)) * 2 ^ e)%Q.

(** The conversion of an integer to [float64], and the four operations. *)
Definition float64_of_int (v : Z) : Q := round64 (inject_Z v).
Definition float64_add (x y : Q) : Q := round64 (x + y).
Definition float64_sub (x y : Q) : Q := round64 (x - y).
Definition float64_mul (x y : Q) : Q := round64 (x * y).
Definition float64_div (x y : Q) : Q := round64 (x / y).

(** ** Constants of the translation unit *)

Definition kVersion : Z := 1.
Definition kFramesPerRow : Z := 10.
Definition kMaxCacheSize : Z := 5 * 1024 * 1024.
Definition kDefaultFrameDuration : Z := 33.
Definition kDefaultFramesCount : Z := 60.
Definition kDefaultCanvasSize : Z := 100.

(** ** Data *)

Record SpoilerMessDescriptor : Type := {
  particleFadeInDuration : Z;
  particleShownDuration : Z;
  particleFadeOutDuration : Z;
  particleSizeMin : Q;
  particleSizeMax : Q;
  particleSpritesCount : Z;
  particlesCount : Z;
  canvasSize : Z;
  framesCount : Z;
  frameDuration : Z
}.

Module Header.
Record t : Type := make {
  version : Z;
  dataLength : Z;
  dataHash : Z;
  framesCount : Z;
  canvasSize : Z;
  frameDuration : Z
}.
End Header.

Module Validator.
Record t : Type := make {
  frameDuration : Z;
  framesCount : Z;
  canvasSize : Z
}.
End Validator.

Module Particle.
Record t : Type := make {
  start : Z;
  spriteIndex : Z;
  x : Z;
  y : Z
}.
End Particle.

Inductive Format : Type :=
| Format_Invalid
| Format_Grayscale8
| Format_ARGB32_Premultiplied
| Format_Other.

Definition Format_eqb (a b : Format) : bool :=
  match a, b with
  | Format_Invalid, Format_Invalid
  | Format_Grayscale8, Format_Grayscale8
  | Format_ARGB32_Premultiplied, Format_ARGB32_Premultiplied
  | Format_Other, Format_Other => true
  | _, _ => false
  end.

Lemma Format_eqb_eq a b : Format_eqb a b = true <-> a = b.
Proof. destruct a, b; simpl; split; congruence. Qed.

(** An image: a pixel of [Format_Grayscale8] is one byte, a pixel of
    [Format_ARGB32_Premultiplied] is one [uint32]. *)
Record QImage : Type := {
  format : Format;
  width : Z;
  height : Z;
  bits : list Z
}.

Record QRect : Type := {
  rect_x : Z;
  rect_y : Z;
  rect_width : Z;
  rect_height : Z
}.

Record QSize : Type := { size_width : Z; size_height : Z }.

Definition size (image : QImage) : QSize :=
  {| size_width := width image; size_height := height image |}.

Definition QSize_eqb (a b : QSize) : bool :=
  (size_width a =? size_width b) && (size_height a =? size_height b).

(** [QSize * factor]. *)
Definition QSize_scale (s : QSize) (factor : Z) : QSize :=
  {| size_width := size_width s * factor; size_height := size_height s * factor |}.

(** Bits per pixel. *)
Definition depth (f : Format) : Z :=
  match f with
  | Format_Grayscale8 => 8
  | Format_ARGB32_Premultiplied => 32
  | _ => 0
  end.

(** [QImage::bytesPerLine]: Qt pads every scan line to a whole number of
    32-bit words, [((width * depth + 31) >> 5) << 2]. *)
Definition bytesPerLine (image : QImage) : Z :=
  Z.shiftl (Z.shiftr (width image * depth (format image) + 31) 5) 2.

Record SpoilerMessCached : Type := {
  _image : QImage;
  _frameDuration : Z;
  _framesCount : Z;
  _canvasSize : Z
}.

Record SpoilerMessFrame : Type := {
  image : QImage;
  source : QRect
}.

(** ** The atlas grid *)

(** [(frames + kFramesPerRow - 1) / kFramesPerRow]; the division of C++
    truncates. *)
Definition atlas_rows (frames : Z) : Z :=
  Z.quot (frames + kFramesPerRow - 1) kFramesPerRow.

(** [std::min(frames, kFramesPerRow)]. *)
Definition atlas_columns (frames : Z) : Z := Z.min frames kFramesPerRow.

(** ** [SpoilerMessCached::SpoilerMessCached]

    The two products of the last [Expects] are written in [Z]: they are the
    [int] products of the code when they fit [int]. *)

Definition SpoilerMessCached_ctor
    (image : QImage) (framesCount frameDuration canvasSize : Z)
    : contract SpoilerMessCached :=
  Expects (0 <? frameDuration) ;;;
  Expects (0 <? framesCount) ;;;
  Expects (0 <? canvasSize) ;;;
  Expects (QSize_eqb (size image)
    {| size_width := atlas_columns framesCount * canvasSize;
       size_height := atlas_rows framesCount * canvasSize |}) ;;;
  Returned {| _image := image;
              _frameDuration := frameDuration;
              _framesCount := framesCount;
              _canvasSize := canvasSize |}.

(** ** [SpoilerMessCached::frame] *)

Definition frame_at (mask : SpoilerMessCached) (index : Z) : SpoilerMessFrame :=
  let row := Z.quot index kFramesPerRow in
  let column := index - row * kFramesPerRow in
  {| image := _image mask;
     source := {| rect_x := column * _canvasSize mask;
                  rect_y := row * _canvasSize mask;
                  rect_width := _canvasSize mask;
                  rect_height := _canvasSize mask |} |}.

(** [frame()], with the reading of [crl::now()] as an argument. *)
Definition frame_now (mask : SpoilerMessCached) (now : Z) : SpoilerMessFrame :=
  frame_at mask (Z.rem (Z.quot now (_frameDuration mask)) (_framesCount mask)).

Definition frameDuration_of (mask : SpoilerMessCached) : Z := _frameDuration mask.
Definition framesCount_of (mask : SpoilerMessCached) : Z := _framesCount mask.
Definition canvasSize_of (mask : SpoilerMessCached) : Z := _canvasSize mask.

(** ** Painting

    What the code asks of its [QPainter], in the order it asks it. *)

Inductive PaintCommand : Type :=
| SetClipRect (rect : QRect)
| Translate (dx dy : Z)
| SetOpacity (opacity : Q)
| DrawImage (x y : Z) (sprite : QImage).

Record QPainter : Type := {
  device : QImage;
  clip : option QRect;
  origin_x : Z;
  origin_y : Z;
  opacity : Q
}.

Definition null_image : QImage :=
  {| format := Format_Invalid; width := 0; height := 0; bits := [] |}.

(** [QImage(width, height, format)] followed by [fill(Qt::transparent)]. *)
Definition transparent_image (w h : Z) (f : Format) : QImage :=
  {| format := f; width := w; height := h; bits := repeat 0 (Z.to_nat (w * h)) |}.

Definition begin_paint (target : QImage) : QPainter :=
  {| device := target; clip := None; origin_x := 0; origin_y := 0; opacity := 1%Q |}.

Definition in_rect (r : QRect) (px py : Z) : bool :=
  (rect_x r <=? px) && (px <? rect_x r + rect_width r)
  && (rect_y r <=? py) && (py <? rect_y r + rect_height r).

Definition in_clip (c : option QRect) (px py : Z) : bool :=
  match c with
  | None => true
  | Some r => in_rect r px py
  end.

(** The pixels of a device from position [i] on, each replaced by [f] of
    its position and value. *)
Fixpoint map_pixels (f : Z -> Z -> Z) (i : Z) (pixels : list Z) : list Z :=
  match pixels with
  | [] => []
  | d :: rest => f i d :: map_pixels f (i + 1) rest
  end.

Section Generation.

(** [base::BufferedRandom<uint32>], its constructor and [RandomIndex], of
    lib_base. *)
Variable BufferedRandom : Type.
Variable BufferedRandom_ctor : Z -> BufferedRandom.
Variable RandomIndex : Z -> BufferedRandom -> contract (Z * BufferedRandom).

(** The raster engine: the pixels of a [size]×[size] transparent image after
    [drawRoundedRect(1., 1., width, height, radius, radius)] with a white
    brush, and the value of a device pixel after a source pixel is drawn
    over it at some opacity. *)
Variable drawRoundedRect : Z -> Q -> Q -> Q -> list Z.
Variable drawPixel : Q -> Z -> Z -> Z.

(** Whether Qt can make an image of a width and a height.  It cannot when
    one of them is not positive, nor when it finds no memory for the
    pixels; [QImage(width, height, format)] is a null image then. *)
Variable QImage_fits : Z -> Z -> bool.

(** [QImage(width, height, format)] followed by [fill(Qt::transparent)],
    which leaves a null image as it is. *)
Definition new_image (w h : Z) (f : Format) : QImage :=
  if QImage_fits w h then transparent_image w h f else null_image.

(** [index * descriptor.framesCount] is a product of two [int]s; it is
    widened to [crl::time] only for the product with the frame duration. *)
Definition GenerateParticle
    (descriptor : SpoilerMessDescriptor) (index : Z) (random : BufferedRandom)
    : contract (Particle.t * BufferedRandom) :=
  let start :=
    Z.quot (to_int64 (to_int32 (index * framesCount descriptor)
                      * frameDuration descriptor))
           (particlesCount descriptor) in
  ' (spriteIndex, random) <- RandomIndex (particleSpritesCount descriptor) random ;;
  ' (x, random) <- RandomIndex (canvasSize descriptor) random ;;
  ' (y, random) <- RandomIndex (canvasSize descriptor) random ;;
  Returned ({| Particle.start := start;
               Particle.spriteIndex := spriteIndex;
               Particle.x := x;
               Particle.y := y |}, random).

Definition GenerateSprite
    (descriptor : SpoilerMessDescriptor) (index : Z) (size : Z)
    : contract QImage :=
  Expects ((0 <=? index) && (index <? particleSpritesCount descriptor)) ;;;
  let count := particleSpritesCount descriptor in
  let middle := Z.quot count 2 in
  let min := particleSizeMin descriptor in
  let delta := float64_sub (particleSizeMax descriptor) min in
  let width := if index <? middle
    then float64_add min
           (float64_div (float64_mul delta (float64_of_int (middle - index)))
                        (float64_of_int middle))
    else min in
  let height := if middle <? index
    then float64_add min
           (float64_div (float64_mul delta (float64_of_int (index - middle)))
                        (float64_of_int (count - 1 - middle)))
    else min in
  let radius := float64_div min 2 in
  Returned {| format := Format_ARGB32_Premultiplied;
              width := size;
              height := size;
              bits := drawRoundedRect size width height radius |}.

(** [std::vector::reserve]: a negative [int] converts to a [size_type] above
    [max_size()], and [reserve] throws. *)
Definition reserve (n : Z) : contract unit := Expects (0 <=? n).

(** [for (auto i = 0; i != descriptor.particlesCount; ++i)], with [n]
    iterations left. *)
Fixpoint generate_particles
    (descriptor : SpoilerMessDescriptor) (n : nat) (i : Z) (random : BufferedRandom)
    : contract (list Particle.t * BufferedRandom) :=
  match n with
  | O => Returned ([], random)
  | S n' =>
      ' (particle, random) <- GenerateParticle descriptor i random ;;
      ' (rest, random) <- generate_particles descriptor n' (i + 1) random ;;
      Returned (particle :: rest, random)
  end.

(** [for (auto i = 0; i != descriptor.particleSpritesCount; ++i)]. *)
Fixpoint generate_sprites
    (descriptor : SpoilerMessDescriptor) (n : nat) (i : Z) (spriteSize : Z)
    : contract (list QImage) :=
  match n with
  | O => Returned []
  | S n' =>
      sprite <- GenerateSprite descriptor i spriteSize ;;
      rest <- generate_sprites descriptor n' (i + 1) spriteSize ;;
      Returned (sprite :: rest)
  end.

(** The variables the lambdas of [GenerateSpoilerMess] capture. *)
Record Captured : Type := {
  descriptor_ : SpoilerMessDescriptor;
  sprites_ : list QImage;
  spriteSize_ : Z;
  size_ : Z;
  singleDuration_ : Z;
  fullDuration_ : Z
}.

Definition paintOneAt (c : Captured) (particle : Particle.t) (time : Z)
    : list PaintCommand :=
  if (time <=? 0) || (singleDuration_ c <=? time) then [] else
  let descriptor := descriptor_ c in
  let opacity :=
    if time <? particleFadeInDuration descriptor
    then float64_div (float64_of_int time)
                     (float64_of_int (particleFadeInDuration descriptor))
    else if singleDuration_ c - particleFadeOutDuration descriptor <? time
    then float64_div (float64_of_int (singleDuration_ c - time))
                     (float64_of_int (particleFadeOutDuration descriptor))
    else 1%Q in
  let sprite := nth (Z.to_nat (Particle.spriteIndex particle)) (sprites_ c) null_image in
  let x := Particle.x particle in
  let y := Particle.y particle in
  let size := size_ c in
  SetOpacity opacity
  :: DrawImage x y sprite
  :: (if size <? x + spriteSize_ c then
        DrawImage (x - size) y sprite
        :: (if size <? y + spriteSize_ c then
              [DrawImage x (y - size) sprite; DrawImage (x - size) (y - size) sprite]
            else [])
      else if size <? y + spriteSize_ c then
        [DrawImage x (y - size) sprite]
      else []).

Definition paintOne (c : Captured) (particle : Particle.t) (now : Z)
    : list PaintCommand :=
  paintOneAt c particle (now - Particle.start particle)
  ++ paintOneAt c particle (now + fullDuration_ c - Particle.start particle).

Definition null_particle : Particle.t := Particle.make 0 0 0 0.

(** [for (auto index = 0; index != count; ++index) paintOne(particles[index], time)]. *)
Fixpoint paint_particles
    (c : Captured) (particles : list Particle.t) (n : nat) (index : Z) (time : Z)
    : list PaintCommand :=
  match n with
  | O => []
  | S n' =>
      paintOne c (nth (Z.to_nat index) particles null_particle) time
      ++ paint_particles c particles n' (index + 1) time
  end.

(** One turn of the loop over [x], with [n] turns left in the row: the
    commands of the rest of the row and the value of [frame] after it. *)
Fixpoint paint_row
    (c : Captured) (particles : list Particle.t) (n : nat) (x y frame : Z)
    : list PaintCommand * Z :=
  match n with
  | O => ([], frame)
  | S n' =>
      let size := size_ c in
      let rect := {| rect_x := x * size; rect_y := y * size;
                     rect_width := size; rect_height := size |} in
      let time := frame * frameDuration (descriptor_ c) in
      let commands :=
        SetClipRect rect
        :: Translate (rect_x rect) (rect_y rect)
        :: paint_particles c particles
             (Z.to_nat (particlesCount (descriptor_ c))) 0 time
        ++ [Translate (- rect_x rect) (- rect_y rect)] in
      let frame := frame + 1 in
      if framesCount (descriptor_ c) <=? frame then (commands, frame)
      else
        let (rest, frame) := paint_row c particles n' (x + 1) y frame in
        (commands ++ rest, frame)
  end.

(** The loop over [y], with [n] rows left. *)
Fixpoint paint_rows
    (c : Captured) (particles : list Particle.t) (columns : Z) (n : nat) (y frame : Z)
    : list PaintCommand :=
  match n with
  | O => []
  | S n' =>
      let (commands, frame) := paint_row c particles (Z.to_nat columns) 0 y frame in
      commands ++ paint_rows c particles columns n' (y + 1) frame
  end.

(** [QPainter::drawImage(x, y, sprite)]: every device pixel under the
    sprite and inside the clip is drawn over. *)
Definition drawImage (p : QPainter) (x y : Z) (sprite : QImage) : QPainter :=
  let target := device p in
  let left := origin_x p + x in
  let top := origin_y p + y in
  let over (i : Z) (d : Z) : Z :=
    let px := i mod width target in
    let py := i / width target in
    let sx := px - left in
    let sy := py - top in
    if (0 <=? sx) && (sx <? width sprite) && (0 <=? sy) && (sy <? height sprite)
       && in_clip (clip p) px py
    then drawPixel (opacity p) (nth (Z.to_nat (sy * width sprite + sx)) (bits sprite) 0) d
    else d in
  {| device := {| format := format target; width := width target;
                  height := height target;
                  bits := map_pixels over 0 (bits target) |};
     clip := clip p; origin_x := origin_x p; origin_y := origin_y p;
     opacity := opacity p |}.

Definition paint (p : QPainter) (command : PaintCommand) : QPainter :=
  match command with
  | SetClipRect r =>
      {| device := device p;
         clip := Some {| rect_x := origin_x p + rect_x r; rect_y := origin_y p + rect_y r;
                         rect_width := rect_width r; rect_height := rect_height r |};
         origin_x := origin_x p; origin_y := origin_y p; opacity := opacity p |}
  | Translate dx dy =>
      {| device := device p; clip := clip p;
         origin_x := origin_x p + dx; origin_y := origin_y p + dy;
         opacity := opacity p |}
  | SetOpacity o =>
      {| device := device p; clip := clip p;
         origin_x := origin_x p; origin_y := origin_y p; opacity := o |}
  | DrawImage x y sprite => drawImage p x y sprite
  end.

(** The sums and products of [int]s and of [crl::time]s of the first lines
    are reduced to their types, as the build computes them; an atlas that
    Qt cannot make is a null image, on which the painter paints nothing and
    which the constructor at the end refuses.  The loop over [y] ends when
    [y] is [rows]: after [rows] turns, and for a negative [rows] only after
    [y] has gone round the type, [2^32 + rows] turns. *)
Definition GenerateSpoilerMess (descriptor : SpoilerMessDescriptor)
    : contract SpoilerMessCached :=
  Expects (0 <? framesCount descriptor) ;;;
  Expects (0 <? frameDuration descriptor) ;;;
  Expects (0 <? particlesCount descriptor) ;;;
  Expects (0 <? canvasSize descriptor) ;;;
  Expects (Qle_bool (particleSizeMin descriptor) (particleSizeMax descriptor)) ;;;
  Expects (negb (Qle_bool (particleSizeMin descriptor) 0)) ;;;
  let frames := framesCount descriptor in
  let rows := Z.quot (to_int32 (frames + kFramesPerRow - 1)) kFramesPerRow in
  let columns := Z.min frames kFramesPerRow in
  let size := canvasSize descriptor in
  let count := particlesCount descriptor in
  let width := to_int32 (size * columns) in
  let height := to_int32 (size * rows) in
  let spriteSize := 2 + Qceiling (particleSizeMax descriptor) in
  let singleDuration := to_int64 (particleFadeInDuration descriptor
    + particleShownDuration descriptor
    + particleFadeOutDuration descriptor) in
  let fullDuration := to_int64 (frames * frameDuration descriptor) in
  Assert (singleDuration <? fullDuration) ;;;
  let random := BufferedRandom_ctor (to_int32 (count * 3)) in
  reserve (particlesCount descriptor) ;;;
  ' (particles, random) <-
    generate_particles descriptor (Z.to_nat (particlesCount descriptor)) 0 random ;;
  reserve (particleSpritesCount descriptor) ;;;
  sprites <-
    generate_sprites descriptor (Z.to_nat (particleSpritesCount descriptor)) 0 spriteSize ;;
  let image := new_image width height Format_ARGB32_Premultiplied in
  let c := {| descriptor_ := descriptor; sprites_ := sprites;
              spriteSize_ := spriteSize; size_ := size;
              singleDuration_ := singleDuration; fullDuration_ := fullDuration |} in
  let p := fold_left paint
    (paint_rows c particles columns (Z.to_nat (wrap32 rows)) 0 0)
    (begin_paint image) in
  SpoilerMessCached_ctor (device p) frames (frameDuration descriptor) size.

End Generation.

(** ** Bytes and the header *)

Definition byte_of_Z (v : Z) : byte :=
  match Byte.of_N (Z.to_N (v mod 256)) with
  | Some b => b
  | None => x00
  end.

Definition Z_of_byte (b : byte) : Z := Z.of_N (Byte.to_N b).

(** The four bytes of an [uint32] in memory, lowest first (the hosts of the
    application are little-endian). *)
Definition uint32_bytes (v : Z) : list byte :=
  [ byte_of_Z v;
    byte_of_Z (Z.shiftr v 8);
    byte_of_Z (Z.shiftr v 16);
    byte_of_Z (Z.shiftr v 24) ].

(** The [uint32] at offset [at_] of a byte sequence that is long enough. *)
Definition uint32_at (data : list byte) (at_ : nat) : Z :=
  let b (k : nat) := Z_of_byte (nth (at_ + k) data x00) in
  Z.lor (b 0%nat)
    (Z.lor (Z.shiftl (b 1%nat) 8)
      (Z.lor (Z.shiftl (b 2%nat) 16) (Z.shiftl (b 3%nat) 24))).

(** [sizeof(Header)]: six 4-byte fields, no padding. *)
Definition sizeof_Header : Z := 24.

(** [memcpy(result.data(), &header, skip)]. *)
Definition Header_bytes (h : Header.t) : list byte :=
  uint32_bytes (Header.version h)
  ++ uint32_bytes (Header.dataLength h)
  ++ uint32_bytes (Header.dataHash h)
  ++ uint32_bytes (wrap32 (Header.framesCount h))
  ++ uint32_bytes (wrap32 (Header.canvasSize h))
  ++ uint32_bytes (wrap32 (Header.frameDuration h)).

(** [memcpy(&header, bytes, skip)]. *)
Definition Header_read (data : list byte) : Header.t :=
  {| Header.version := uint32_at data 0;
     Header.dataLength := uint32_at data 4;
     Header.dataHash := uint32_at data 8;
     Header.framesCount := to_int32 (uint32_at data 12);
     Header.canvasSize := to_int32 (uint32_at data 16);
     Header.frameDuration := to_int32 (uint32_at data 20) |}.

(** ** Conversion between the atlas and its grayscale image *)

(** The inner loop over [x]: [n] pixels are read at [from], each one
    converted, and [from] is advanced. *)
Fixpoint convert_line (f : Z -> Z) (n : nat) (from : list Z) : list Z * list Z :=
  match n with
  | O => ([], from)
  | S n' =>
      let (line, rest) := convert_line f n' (tl from) in
      (f (hd 0 from) :: line, rest)
  end.

(** The outer loop over [y], with [n] lines left. *)
Fixpoint convert_lines (f : Z -> Z) (n : nat) (w : nat) (from : list Z) : list Z :=
  match n with
  | O => []
  | S n' =>
      let (line, rest) := convert_line f w from in
      line ++ convert_lines f n' w rest
  end.

(** [*frombytes], the first byte of a 32-bit pixel in memory. *)
Definition first_byte (pixel : Z) : Z := Z.land pixel 255.

(** The byte at an offset of [constBits()].  The buffer holds [height] scan
    lines of [bytesPerLine] bytes; a pixel of 32 bits is four bytes, the
    lowest first, a pixel of 8 bits is one byte, and the bytes that pad a
    scan line hold no pixel.  There is no byte to read outside the buffer,
    in the padding, or in a format whose layout this file does not use. *)
Definition constBits_at (image : QImage) (offset : Z) : option Z :=
  let line := bytesPerLine image in
  if (offset <? 0) || (line <=? 0) then None else
  let row := offset / line in
  let column := offset mod line in
  if height image <=? row then None else
  match format image with
  | Format_ARGB32_Premultiplied =>
      let pixel := nth (Z.to_nat (row * width image + column / 4)) (bits image) 0 in
      Some (Z.land (Z.shiftr pixel (8 * (column mod 4))) 255)
  | Format_Grayscale8 =>
      if column <? width image
      then Some (Z.land (nth (Z.to_nat (row * width image + column)) (bits image) 0) 255)
      else None
  | _ => None
  end.

(** The inner loop of [serialize] over [x], with [n] turns left:
    [*tobytes++ = *frombytes; frombytes += 4].  It gives the bytes written
    and the pointer after the line, or nothing when a read has no byte. *)
Fixpoint read_line (image : QImage) (n : nat) (frombytes : Z) : option (list Z * Z) :=
  match n with
  | O => Some ([], frombytes)
  | S n' =>
      match constBits_at image frombytes with
      | None => None
      | Some b =>
          match read_line image n' (frombytes + 4) with
          | None => None
          | Some (line, frombytes) => Some (b :: line, frombytes)
          end
      end
  end.

(** The outer loop over [y], with [n] lines left; [frombytes += fromadd]
    ends each line. *)
Fixpoint read_lines (image : QImage) (n : nat) (w : nat) (fromadd frombytes : Z)
    : option (list Z) :=
  match n with
  | O => Some []
  | S n' =>
      match read_line image w frombytes with
      | None => None
      | Some (line, frombytes) =>
          match read_lines image n' w fromadd (frombytes + fromadd) with
          | None => None
          | Some rest => Some (line ++ rest)
          end
      end
  end.

(** The bytes that [serialize] copies into its grayscale image. *)
Definition grayscale_bits (image : QImage) : option (list Z) :=
  let fromadd := bytesPerLine image - width image * 4 in
  read_lines image (Z.to_nat (height image)) (Z.to_nat (width image)) fromadd 0.

(** [(byte << 24) | (byte << 16) | (byte << 8) | byte]. *)
Definition replicate_byte (b : Z) : Z :=
  Z.lor (Z.lor (Z.lor (Z.shiftl b 24) (Z.shiftl b 16)) (Z.shiftl b 8)) b.

Section Codec.

(** [QImage::save(&device, "PNG")], the bytes it writes to the device;
    [QImage::loadFromData(bytes, length, "PNG")], the image it loads if it
    returns true; [XXH32(bytes, length, 0)]. *)
Variable save_PNG : QImage -> list byte.
Variable loadFromData_PNG : list byte -> option QImage.
Variable XXH32 : list byte -> Z.

(** The loop reads the first of every four bytes of [constBits()], whatever
    the format of the image; a run that reads where there is no byte ends
    here. *)
Definition serialize (mask : SpoilerMessCached) : contract (list byte) :=
  Expects (_frameDuration mask <? int32_max) ;;;
  let skip := sizeof_Header in
  let result := repeat x00 (Z.to_nat skip) in
  let header := {| Header.version := kVersion;
                   Header.dataLength := 0;
                   Header.dataHash := 0;
                   Header.framesCount := _framesCount mask;
                   Header.canvasSize := _canvasSize mask;
                   Header.frameDuration := to_int32 (_frameDuration mask) |} in
  let width := width (_image mask) in
  let height := height (_image mask) in
  match grayscale_bits (_image mask) with
  | None => Aborted
  | Some bytes =>
  let grayscale :=
    {| format := Format_Grayscale8;
       width := width;
       height := height;
       bits := bytes |} in
  let result := result ++ save_PNG grayscale in
  let dataLength := wrap32 (Z.of_nat (List.length result) - skip) in
  let payload := skipn (Z.to_nat skip) result in
  let dataHash := XXH32 (firstn (Z.to_nat dataLength) payload) in
  let header := {| Header.version := Header.version header;
                   Header.dataLength := dataLength;
                   Header.dataHash := dataHash;
                   Header.framesCount := Header.framesCount header;
                   Header.canvasSize := Header.canvasSize header;
                   Header.frameDuration := Header.frameDuration header |} in
  Returned (Header_bytes header ++ payload)
  end.

Definition validator_rejects (validator : option Validator.t) (header : Header.t) : bool :=
  match validator with
  | None => false
  | Some v =>
      negb (Validator.frameDuration v =? Header.frameDuration header)
      || negb (Validator.framesCount v =? Header.framesCount header)
      || negb (Validator.canvasSize v =? Header.canvasSize header)
  end.

Definition FromSerialized (data : list byte) (validator : option Validator.t)
    : contract (option SpoilerMessCached) :=
  let skip := sizeof_Header in
  let length := Z.of_nat (List.length data) in
  if length <=? skip then Returned None else
  let header := Header_read data in
  let payload := firstn (Z.to_nat (Header.dataLength header)) (skipn (Z.to_nat skip) data) in
  if negb (Header.version header =? kVersion)
     || (Header.canvasSize header <=? 0)
     || (Header.framesCount header <=? 0)
     || (Header.frameDuration header <=? 0)
     || validator_rejects validator header
     || negb (skip + Header.dataLength header =? length)
     || negb (XXH32 payload =? Header.dataHash header)
  then Returned None else
  match loadFromData_PNG payload with
  | None => Returned None
  | Some grayscale =>
      if negb (Format_eqb (format grayscale) Format_Grayscale8) then Returned None else
      let count := Header.framesCount header in
      let rows := Z.quot (count + kFramesPerRow - 1) kFramesPerRow in
      let columns := Z.min count kFramesPerRow in
      let width := width grayscale in
      let height := height grayscale in
      if negb (QSize_eqb {| size_width := width; size_height := height |}
                 (QSize_scale {| size_width := columns; size_height := rows |}
                    (Header.canvasSize header)))
      then Returned None else
      let image := transparent_image width height Format_ARGB32_Premultiplied in
      Assert (Z.rem (bytesPerLine image) 4 =? 0) ;;;
      let image :=
        {| format := Format_ARGB32_Premultiplied;
           width := width;
           height := height;
           bits := convert_lines replicate_byte (Z.to_nat height) (Z.to_nat width)
                     (bits grayscale) |} in
      mask <- SpoilerMessCached_ctor image count
                (Header.frameDuration header) (Header.canvasSize header) ;;
      Returned (Some mask)
  end.

(** ** The cache file *)

(** The disk as the two functions meet it: the folder the integration
    names, the file at each path, and whether each operation succeeds. *)
Record Disk : Type := {
  emojiCacheFolder : string;
  contents : string -> option (list byte);
  may_read : string -> bool;
  may_mkpath : string -> bool;
  may_write : string -> bool
}.

Inductive FileEvent : Type :=
| ReadAll (path : string) (data : list byte)
| MakePath (folder : string)
| Truncate (path : string)
| Write (path : string) (data : list byte).

Definition isEmpty (s : string) : bool :=
  match s with
  | EmptyString => true
  | _ => false
  end.

Definition DefaultMaskCacheFolder (disk : Disk) : string :=
  let base := emojiCacheFolder disk in
  if isEmpty base then EmptyString else (base ++ "/spoiler")%string.

Definition DefaultMaskCachePath (folder : string) : string :=
  (folder ++ "/mask")%string.

(** [file.open(QIODevice::ReadOnly)]: the file, when it opens. *)
Definition open_ReadOnly (disk : Disk) (path : string) : option (list byte) :=
  if may_read disk path then contents disk path else None.

(** [QDir().mkpath(folder)]; it refuses an empty name. *)
Definition mkpath (disk : Disk) (folder : string) : bool :=
  negb (isEmpty folder) && may_mkpath disk folder.

Definition ReadDefaultMask (disk : Disk) (validator : option Validator.t)
    : list FileEvent * contract (option SpoilerMessCached) :=
  let folder := DefaultMaskCacheFolder disk in
  if isEmpty folder then ([], Returned None) else
  let path := DefaultMaskCachePath folder in
  match open_ReadOnly disk path with
  | Some file =>
      if Z.of_nat (List.length file) <=? kMaxCacheSize
      then ([ReadAll path file], FromSerialized file validator)
      else ([], Returned None)
  | None => ([], Returned None)
  end.

Definition WriteDefaultMask (disk : Disk) (mask : SpoilerMessCached)
    : list FileEvent * contract unit :=
  let folder := DefaultMaskCacheFolder disk in
  if negb (mkpath disk folder) then ([], Returned tt) else
  match serialize mask with
  | Aborted => ([MakePath folder], Aborted)
  | Returned bytes =>
      let path := DefaultMaskCachePath folder in
      if may_write disk path then
        if Z.of_nat (List.length bytes) <=? kMaxCacheSize
        then ([MakePath folder; Truncate path; Write path bytes], Returned tt)
        else ([MakePath folder; Truncate path], Returned tt)
      else ([MakePath folder], Returned tt)
  end.

End Codec.

(** ** Stand-ins for the libraries outside this file

    Simple implementations of the section variables, to run the embedding
    on concrete inputs. *)

Module Sample.

(** A generator whose state is its last value. *)
Definition BufferedRandom : Type := Z.
Definition BufferedRandom_ctor (n : Z) : BufferedRandom := n.
Definition RandomIndex (count : Z) (random : BufferedRandom)
    : contract (Z * BufferedRandom) :=
  Expects (0 <? count) ;;;
  Returned (random mod count, random * 1103515245 + 12345).

(** Every image of a positive size can be made. *)
Definition QImage_fits (w h : Z) : bool := (0 <? w) && (0 <? h).

(** Every pixel of a sprite fully covered, and drawing that keeps the
    larger of the two pixels. *)
Definition drawRoundedRect (size : Z) (w h r : Q) : list Z :=
  repeat 4294967295 (Z.to_nat (size * size)).
Definition drawPixel (o : Q) (s d : Z) : Z := Z.max s d.

(** A codec that stores width, height and then one byte per pixel; it is
    exact for images up to 255 pixels wide and high. *)
Definition save_PNG (image : QImage) : list byte :=
  byte_of_Z (width image) :: byte_of_Z (height image) :: map byte_of_Z (bits image).
Definition loadFromData_PNG (data : list byte) : option QImage :=
  match data with
  | w :: h :: pixels =>
      Some {| format := Format_Grayscale8;
              width := Z_of_byte w;
              height := Z_of_byte h;
              bits := map Z_of_byte pixels |}
  | _ => None
  end.

(** A checksum: the sum of the bytes. *)
Definition XXH32 (data : list byte) : Z :=
  wrap32 (fold_right (fun b acc => Z_of_byte b + acc) 0 data).

Abbreviation GenerateSpoilerMess :=
  (GenerateSpoilerMess BufferedRandom BufferedRandom_ctor RandomIndex
     drawRoundedRect drawPixel QImage_fits).
Abbreviation serialize := (serialize save_PNG XXH32).
Abbreviation FromSerialized := (FromSerialized loadFromData_PNG XXH32).

(** A short animation: four frames of a 3×3 canvas with two particles. *)
Definition descriptor : SpoilerMessDescriptor :=
  {| particleFadeInDuration := 5;
     particleShownDuration := 5;
     particleFadeOutDuration := 5;
     particleSizeMin := 1;
     particleSizeMax := 2;
     particleSpritesCount := 2;
     particlesCount := 2;
     canvasSize := 3;
     framesCount := 4;
     frameDuration := 10 |}.

End Sample.

(** The descriptor of [PrepareDefaultSpoilerMess] at a scale of 100% and a
    device pixel ratio of 1.  Its initializer names no
    [particleShownDuration]. *)
Definition default_descriptor : SpoilerMessDescriptor :=
  {| particleFadeInDuration := 200;
     particleShownDuration := 0;
     particleFadeOutDuration := 200;
     particleSizeMin := 3 # 2;
     particleSizeMax := 2;
     particleSpritesCount := 5;
     particlesCount := 2000;
     canvasSize := kDefaultCanvasSize;
     framesCount := kDefaultFramesCount;
     frameDuration := kDefaultFrameDuration |}.

(** * Properties *)

(** ** The atlas grid *)

Lemma atlas_rows_div frames :
  0 <= frames -> atlas_rows frames = (frames + 9) / 10.
Proof.
  intros H. unfold atlas_rows, kFramesPerRow.
  rewrite Z.quot_div_nonneg by lia. f_equal. lia.
Qed.

(** The number of rows is the ceiling of [frames / 10]. *)
Lemma atlas_rows_ceiling frames :
  0 <= frames -> atlas_rows frames = Qceiling (frames # 10).
Proof.
  intros H. rewrite atlas_rows_div by assumption.
  unfold Qceiling, Qfloor. simpl.
  pose proof (Z.div_mod (frames + 9) 10 ltac:(lia)) as E1.
  pose proof (Z.mod_pos_bound (frames + 9) 10 ltac:(lia)) as B1.
  pose proof (Z.div_mod (- frames) 10 ltac:(lia)) as E2.
  pose proof (Z.mod_pos_bound (- frames) 10 ltac:(lia)) as B2.
  lia.
Qed.

Lemma SpoilerMessCached_ctor_Returned img fc fd cs mask :
  SpoilerMessCached_ctor img fc fd cs = Returned mask ->
  0 < fd /\ 0 < fc /\ 0 < cs
  /\ width img = atlas_columns fc * cs
  /\ height img = atlas_rows fc * cs
  /\ mask = {| _image := img; _frameDuration := fd; _framesCount := fc; _canvasSize := cs |}.
Proof.
  unfold SpoilerMessCached_ctor. intros H.
  apply bind_Returned in H as (u1 & H1 & H). apply Expects_Returned in H1.
  apply bind_Returned in H as (u2 & H2 & H). apply Expects_Returned in H2.
  apply bind_Returned in H as (u3 & H3 & H). apply Expects_Returned in H3.
  apply bind_Returned in H as (u4 & H4 & H). apply Expects_Returned in H4.
  unfold QSize_eqb in H4. simpl in H4.
  apply andb_true_iff in H4 as [Hw Hh].
  apply Z.eqb_eq in Hw, Hh. apply Z.ltb_lt in H1, H2, H3.
  injection H as <-. repeat split; assumption.
Qed.

Lemma SpoilerMessCached_ctor_succeeds img fc fd cs :
  0 < fd -> 0 < fc -> 0 < cs ->
  width img = atlas_columns fc * cs ->
  height img = atlas_rows fc * cs ->
  SpoilerMessCached_ctor img fc fd cs
  = Returned {| _image := img; _frameDuration := fd; _framesCount := fc; _canvasSize := cs |}.
Proof.
  intros Hfd Hfc Hcs Hw Hh. unfold SpoilerMessCached_ctor.
  apply Z.ltb_lt in Hfd, Hfc, Hcs. rewrite Hfd, Hfc, Hcs. simpl.
  unfold QSize_eqb. simpl. rewrite Hw, Hh, !Z.eqb_refl. reflexivity.
Qed.

Lemma bytesPerLine_words image :
  Assert (Z.rem (bytesPerLine image) 4 =? 0) = Returned tt.
Proof.
  unfold Assert, bytesPerLine. rewrite Z.shiftl_mul_pow2 by lia.
  change (2 ^ 2) with 4. rewrite Z.rem_mul by lia. reflexivity.
Qed.

(** ** The frame accessor *)

(** C6. An asset that its constructor accepted, read at a clock value
    [now] (a [crl::time], never negative), gives the frame of index
    [⌊now / frameDuration⌋ mod framesCount]; and for an index in
    [[0, framesCount)] the frame is the [canvasSize]×[canvasSize] rectangle
    at column [index mod columns] and row [index div columns], where
    [columns = min(framesCount, 10)], of the atlas image, inside it. *)
Theorem frame_accessors img fc fd cs mask now index :
  SpoilerMessCached_ctor img fc fd cs = Returned mask ->
  0 <= now ->
  0 <= index < framesCount_of mask ->
  let columns := Z.min (framesCount_of mask) 10 in
  frame_now mask now
    = frame_at mask ((now / frameDuration_of mask) mod framesCount_of mask)
  /\ 0 <= (now / frameDuration_of mask) mod framesCount_of mask < framesCount_of mask
  /\ image (frame_at mask index) = _image mask
  /\ source (frame_at mask index)
     = {| rect_x := (index mod columns) * canvasSize_of mask;
          rect_y := (index / columns) * canvasSize_of mask;
          rect_width := canvasSize_of mask;
          rect_height := canvasSize_of mask |}
  /\ 0 <= rect_x (source (frame_at mask index))
  /\ rect_x (source (frame_at mask index)) + rect_width (source (frame_at mask index))
     <= width (_image mask)
  /\ 0 <= rect_y (source (frame_at mask index))
  /\ rect_y (source (frame_at mask index)) + rect_height (source (frame_at mask index))
     <= height (_image mask).
Proof.
  intros Hctor Hnow Hindex columns.
  apply SpoilerMessCached_ctor_Returned in Hctor
    as (Hfd & Hfc & Hcs & Hw & Hh & ->).
  unfold framesCount_of, frameDuration_of, canvasSize_of in *.
  simpl in *.
  assert (Hq : Z.quot index kFramesPerRow = index / 10)
    by (unfold kFramesPerRow; apply Z.quot_div_nonneg; lia).
  assert (Hcol : index - index / 10 * 10 = index mod columns
                 /\ index / 10 = index / columns).
  { unfold columns. destruct (Z_le_gt_dec 10 fc) as [Hbig | Hsmall].
    - rewrite Z.min_r by lia. split; [|reflexivity].
      rewrite Z.mod_eq by lia. lia.
    - rewrite Z.min_l by lia.
      rewrite (Z.mod_small index fc) by lia.
      rewrite (Z.div_small index fc) by lia.
      rewrite (Z.div_small index 10) by lia. lia. }
  destruct Hcol as [Hcol Hrow].
  assert (Hcolumn : 0 <= index mod columns < atlas_columns fc).
  { unfold atlas_columns, kFramesPerRow, columns. apply Z.mod_pos_bound. lia. }
  assert (Hrows : 0 <= index / 10 < atlas_rows fc).
  { rewrite atlas_rows_div by lia. split.
    - apply Z.div_pos; lia.
    - apply Z.div_lt_upper_bound; [lia|].
      pose proof (Z.div_mod (fc + 9) 10 ltac:(lia)).
      pose proof (Z.mod_pos_bound (fc + 9) 10 ltac:(lia)). lia. }
  split; [|split; [|split; [|split]]].
  - unfold frame_now. simpl. f_equal.
    rewrite Z.quot_div_nonneg by lia.
    apply Z.rem_mod_nonneg; [apply Z.div_pos; lia | lia].
  - apply Z.mod_pos_bound. lia.
  - reflexivity.
  - unfold frame_at. simpl. rewrite Hq. unfold kFramesPerRow.
    rewrite Hcol, Hrow. reflexivity.
  - unfold frame_at. simpl. rewrite Hq. unfold kFramesPerRow.
    rewrite Hcol, Hw, Hh. nia.
Qed.

Lemma frame_accessors_witness :
  let mask := {| _image := transparent_image 30 6 Format_ARGB32_Premultiplied;
                 _frameDuration := 33; _framesCount := 12; _canvasSize := 3 |} in
  frame_now mask 1000 = frame_at mask 6
  /\ source (frame_at mask 11)
     = {| rect_x := 3; rect_y := 3; rect_width := 3; rect_height := 3 |}.
Proof.
  intros mask.
  assert (Hctor : SpoilerMessCached_ctor
                    (transparent_image 30 6 Format_ARGB32_Premultiplied) 12 33 3
                  = Returned mask) by reflexivity.
  pose proof (frame_accessors _ _ _ _ mask 1000 11 Hctor ltac:(lia)
                ltac:(unfold framesCount_of; simpl; lia)) as H.
  split; [exact (proj1 H) | exact (proj1 (proj2 (proj2 (proj2 H))))].
Defined.

(** ** Painting one particle *)

Lemma paintOneAt_outside c particle time :
  time <= 0 \/ singleDuration_ c <= time -> paintOneAt c particle time = [].
Proof.
  intros H. unfold paintOneAt.
  destruct (Z.leb_spec time 0); [reflexivity|].
  destruct (Z.leb_spec (singleDuration_ c) time); [reflexivity | lia].
Qed.

(** C7. A particle painted at a time inside its lifetime is drawn at its
    origin; one more copy a tile width to the left exactly when
    [x + spriteSize] exceeds the tile width; one more a tile height up
    exactly when [y + spriteSize] exceeds the tile height; and one more
    shifted both ways exactly when both do.  Nothing else is drawn. *)
Theorem paintOneAt_edge_wrap c particle time :
  0 < time < singleDuration_ c ->
  let x := Particle.x particle in
  let y := Particle.y particle in
  let size := size_ c in
  let sprite := nth (Z.to_nat (Particle.spriteIndex particle)) (sprites_ c) null_image in
  let past_right := size <? x + spriteSize_ c in
  let past_bottom := size <? y + spriteSize_ c in
  exists opacity,
    paintOneAt c particle time
    = SetOpacity opacity
      :: DrawImage x y sprite
      :: (if past_right then [DrawImage (x - size) y sprite] else [])
      ++ (if past_bottom then [DrawImage x (y - size) sprite] else [])
      ++ (if past_right && past_bottom
          then [DrawImage (x - size) (y - size) sprite] else []).
Proof.
  intros Htime x y size sprite past_right past_bottom.
  unfold paintOneAt.
  destruct (Z.leb_spec time 0) as [H0 | _]; [lia|].
  destruct (Z.leb_spec (singleDuration_ c) time) as [H1 | _]; [lia|].
  cbn [orb]. eexists.
  fold x y size sprite past_right past_bottom.
  destruct past_right, past_bottom; reflexivity.
Qed.

Lemma paintOneAt_edge_wrap_witness :
  let c := {| descriptor_ := Sample.descriptor;
              sprites_ := [];
              spriteSize_ := 4;
              size_ := 10;
              singleDuration_ := 15;
              fullDuration_ := 40 |} in
  exists opacity,
    paintOneAt c (Particle.make 0 0 8 2) 7
    = [SetOpacity opacity; DrawImage 8 2 null_image; DrawImage (-2) 2 null_image].
Proof.
  intros c.
  destruct (paintOneAt_edge_wrap c (Particle.make 0 0 8 2) 7 ltac:(simpl; lia))
    as [opacity H].
  exists opacity. exact H.
Defined.

(** C10. When the whole animation is longer than the life of a particle,
    at most one of the two phases [now - start] and
    [now + fullDuration - start] is strictly inside the lifetime, so
    [paintOne] paints the particle for at most one of them. *)
Theorem paintOne_at_most_once c particle now :
  singleDuration_ c < fullDuration_ c ->
  let direct := now - Particle.start particle in
  let wrapped := now + fullDuration_ c - Particle.start particle in
  ~ (0 < direct < singleDuration_ c /\ 0 < wrapped < singleDuration_ c)
  /\ (paintOneAt c particle direct = [] \/ paintOneAt c particle wrapped = [])
  /\ (paintOne c particle now = paintOneAt c particle direct
      \/ paintOne c particle now = paintOneAt c particle wrapped).
Proof.
  intros Hlong direct wrapped.
  assert (Hcases : (direct <= 0 \/ singleDuration_ c <= direct)
                   \/ (wrapped <= 0 \/ singleDuration_ c <= wrapped))
    by (unfold direct, wrapped; lia).
  split; [lia|].
  unfold paintOne. fold direct wrapped.
  destruct Hcases as [H | H]; apply (paintOneAt_outside c particle) in H.
  - split; [left; exact H | right; rewrite H; reflexivity].
  - split; [right; exact H | left; rewrite H; apply app_nil_r].
Qed.

Lemma paintOne_at_most_once_witness :
  let c := {| descriptor_ := Sample.descriptor;
              sprites_ := [];
              spriteSize_ := 4;
              size_ := 10;
              singleDuration_ := 15;
              fullDuration_ := 40 |} in
  paintOneAt c (Particle.make 30 0 8 2) (0 - 30) = []
  \/ paintOneAt c (Particle.make 30 0 8 2) (0 + 40 - 30) = [].
Proof.
  intros c.
  exact (proj1 (proj2 (paintOne_at_most_once c (Particle.make 30 0 8 2) 0
                         ltac:(simpl; lia)))).
Defined.

(** ** Descriptors *)

(** The invariants of a descriptor, as the design document lists them. *)
Record ValidDescriptor (d : SpoilerMessDescriptor) : Prop := {
  valid_framesCount : 0 < framesCount d;
  valid_frameDuration : 0 < frameDuration d;
  valid_canvasSize : 0 < canvasSize d;
  valid_particlesCount : 0 < particlesCount d;
  valid_particleSpritesCount : 0 < particleSpritesCount d;
  valid_particleFadeInDuration : 0 < particleFadeInDuration d;
  valid_particleShownDuration : 0 < particleShownDuration d;
  valid_particleFadeOutDuration : 0 < particleFadeOutDuration d;
  valid_particleSizeMin : (0 < particleSizeMin d)%Q;
  valid_particleSizeMax : (particleSizeMin d <= particleSizeMax d)%Q;
  valid_timeline :
    particleFadeInDuration d + particleShownDuration d + particleFadeOutDuration d
    < framesCount d * frameDuration d
}.

(** The integers that [GenerateSpoilerMess] computes for the grid and for
    the timeline stay inside their types: the sum that gives the number of
    rows and the two sizes of the atlas inside [int], the timeline inside
    [crl::time]. *)
Record Representable (d : SpoilerMessDescriptor) : Prop := {
  fits_rows : in_int32 (framesCount d + kFramesPerRow - 1);
  fits_width : in_int32 (canvasSize d * atlas_columns (framesCount d));
  fits_height : in_int32 (canvasSize d * atlas_rows (framesCount d));
  fits_timeline : in_int64 (framesCount d * frameDuration d)
}.

Lemma Sample_descriptor_valid : ValidDescriptor Sample.descriptor.
Proof.
  constructor; simpl; try lia.
  - reflexivity.
  - discriminate.
Qed.


Lemma Sample_RandomIndex_positive count random :
  0 < count ->
  exists index random',
    Sample.RandomIndex count random = Returned (index, random')
    /\ 0 <= index < count.
Proof.
  intros H. unfold Sample.RandomIndex.
  apply Z.ltb_lt in H as Hb. rewrite Hb. simpl.
  eexists _, _. split; [reflexivity|]. apply Z.mod_pos_bound. assumption.
Qed.

Lemma Sample_RandomIndex_nonpositive count random :
  count <= 0 -> Sample.RandomIndex count random = Aborted.
Proof.
  intros H. unfold Sample.RandomIndex.
  destruct (Z.ltb_spec 0 count); [lia | reflexivity].
Qed.


(** ** Integer division *)

Lemma div_step X N i :
  0 <= X -> 0 < N -> 0 <= i ->
  X / N <= (i + 1) * X / N - i * X / N <= X / N + 1.
Proof.
  intros HX HN Hi.
  replace ((i + 1) * X) with (i * X + X) by ring.
  pose proof (Z.div_mod (i * X) N ltac:(lia)) as E1.
  pose proof (Z.mod_pos_bound (i * X) N HN) as B1.
  pose proof (Z.div_mod X N ltac:(lia)) as E2.
  pose proof (Z.mod_pos_bound X N HN) as B2.
  pose proof (Z.div_mod (i * X + X) N ltac:(lia)) as E3.
  pose proof (Z.mod_pos_bound (i * X + X) N HN) as B3.
  split; nia.
Qed.

Lemma div_below X N i :
  0 < X -> 0 < N -> 0 <= i < N -> 0 <= i * X / N < X.
Proof.
  intros HX HN Hi. split.
  - apply Z.div_pos; nia.
  - apply Z.div_lt_upper_bound; nia.
Qed.

(** ** The start of a particle in the machine types *)

(** When the largest of the products of [GenerateParticle] fit [int] and
    [crl::time], all of them do. *)
Lemma particle_start_representable d i :
  ValidDescriptor d ->
  0 <= i < particlesCount d ->
  in_int32 ((particlesCount d - 1) * framesCount d) ->
  in_int64 ((particlesCount d - 1) * framesCount d * frameDuration d) ->
  in_int32 (i * framesCount d)
  /\ in_int64 (i * framesCount d * frameDuration d)
  /\ in_int64 (Z.quot (i * framesCount d * frameDuration d) (particlesCount d)).
Proof.
  intros [HF HD _ HN _ _ _ _ _ _ _] Hi H32 H64.
  unfold in_int32, in_int64, int32_max in *.
  assert (0 <= i * framesCount d <= (particlesCount d - 1) * framesCount d) by nia.
  assert (0 <= i * framesCount d * frameDuration d
          <= (particlesCount d - 1) * framesCount d * frameDuration d) by nia.
  split; [lia|]. split; [lia|].
  rewrite Z.quot_div_nonneg by lia.
  assert (0 <= i * framesCount d * frameDuration d / particlesCount d
          <= i * framesCount d * frameDuration d).
  { split; [apply Z.div_pos; lia|]. apply Z.div_le_upper_bound; nia. }
  lia.
Qed.

Lemma default_descriptor_representable :
  in_int32 ((particlesCount default_descriptor - 1) * framesCount default_descriptor)
  /\ in_int64 ((particlesCount default_descriptor - 1) * framesCount default_descriptor
               * frameDuration default_descriptor)
  /\ Representable default_descriptor.
Proof.
  split; [|split; [|constructor]];
    unfold in_int32, in_int64, int32_max; simpl; lia.
Qed.

(** ** Generation *)

Lemma map_pixels_length f pixels : forall i,
  List.length (map_pixels f i pixels) = List.length pixels.
Proof.
  induction pixels as [|d rest IH]; intros i; simpl; [reflexivity|].
  rewrite IH. reflexivity.
Qed.

Lemma Z2Nat_nonpos z : z <= 0 -> Z.to_nat z = 0%nat.
Proof. destruct z; simpl; lia. Qed.


Section GenerationProperties.

Variable BufferedRandom : Type.
Variable BufferedRandom_ctor : Z -> BufferedRandom.
Variable RandomIndex : Z -> BufferedRandom -> contract (Z * BufferedRandom).
Variable drawRoundedRect : Z -> Q -> Q -> Q -> list Z.
Variable drawPixel : Q -> Z -> Z -> Z.
Variable QImage_fits : Z -> Z -> bool.

(** What the callers of [RandomIndex] rely on: for a positive count it
    returns an index below the count. *)
Hypothesis RandomIndex_positive : forall count random,
  0 < count ->
  exists index random',
    RandomIndex count random = Returned (index, random') /\ 0 <= index < count.

(** And it refuses any other count. *)
Hypothesis RandomIndex_nonpositive : forall count random,
  count <= 0 -> RandomIndex count random = Aborted.

(** Qt makes no image of an empty size. *)
Hypothesis QImage_fits_positive : forall w h,
  QImage_fits w h = true -> 0 < w /\ 0 < h.

Local Abbreviation GenerateParticle' := (GenerateParticle BufferedRandom RandomIndex).
Local Abbreviation generate_particles' := (generate_particles BufferedRandom RandomIndex).
Local Abbreviation GenerateSprite' := (GenerateSprite drawRoundedRect).
Local Abbreviation generate_sprites' := (generate_sprites drawRoundedRect).
Local Abbreviation GenerateSpoilerMess' :=
  (GenerateSpoilerMess BufferedRandom BufferedRandom_ctor RandomIndex
     drawRoundedRect drawPixel QImage_fits).

Definition particle_in_tile (d : SpoilerMessDescriptor) (p : Particle.t) : Prop :=
  0 <= Particle.spriteIndex p < particleSpritesCount d
  /\ 0 <= Particle.x p < canvasSize d
  /\ 0 <= Particle.y p < canvasSize d.

(** The start that [GenerateParticle] computes for an index. *)
Definition start_of_index (d : SpoilerMessDescriptor) (index : Z) : Z :=
  Z.quot (to_int64 (to_int32 (index * framesCount d) * frameDuration d))
         (particlesCount d).

Lemma GenerateParticle_succeeds d index random :
  0 < particleSpritesCount d -> 0 < canvasSize d ->
  exists p random',
    GenerateParticle' d index random = Returned (p, random')
    /\ Particle.start p = start_of_index d index
    /\ particle_in_tile d p.
Proof.
  intros Hsprites Hcanvas. unfold GenerateParticle.
  destruct (RandomIndex_positive (particleSpritesCount d) random Hsprites)
    as (s & r1 & -> & Hs).
  cbn [bind].
  destruct (RandomIndex_positive (canvasSize d) r1 Hcanvas) as (x & r2 & -> & Hx).
  cbn [bind].
  destruct (RandomIndex_positive (canvasSize d) r2 Hcanvas) as (y & r3 & -> & Hy).
  cbn [bind].
  eexists _, _. split; [reflexivity|]. split; [reflexivity|].
  unfold particle_in_tile. cbn [Particle.spriteIndex Particle.x Particle.y]. auto.
Qed.

Lemma generate_particles_succeeds d n : forall i random,
  0 < particleSpritesCount d -> 0 < canvasSize d ->
  exists particles random',
    generate_particles' d n i random = Returned (particles, random')
    /\ List.length particles = n
    /\ forall k, (k < n)%nat ->
         Particle.start (nth k particles null_particle)
         = start_of_index d (i + Z.of_nat k)
         /\ particle_in_tile d (nth k particles null_particle).
Proof.
  induction n as [|n IH]; intros i random Hsprites Hcanvas.
  - exists [], random. simpl. repeat split; try reflexivity; lia.
  - cbn [generate_particles].
    destruct (GenerateParticle_succeeds d i random Hsprites Hcanvas)
      as (p & r1 & -> & Hstart & Hin).
    cbn [bind].
    destruct (IH (i + 1) r1 Hsprites Hcanvas) as (rest & r2 & -> & Hlen & Hrest).
    cbn [bind].
    exists (p :: rest), r2. split; [reflexivity|]. split; [simpl; lia|].
    intros [|k] Hk; cbn [nth].
    + rewrite Z.add_0_r. auto.
    + destruct (Hrest k ltac:(lia)) as [Hs Hi]. split; [|exact Hi].
      rewrite Hs. f_equal. lia.
Qed.

(** X19. Within the range in which the products of [GenerateParticle] fit
    [int] and [crl::time]: for a valid descriptor with [N] particles, [F]
    frames and frame duration [D], the generation of the particles
    succeeds, gives [N] particles, and particle [i] starts at [i·F·D/N]:
    the first at 0, all of them in [[0, F·D)], and each next one [F·D/N]
    later (one more when the division left a remainder to catch up with;
    exactly [i·(F·D/N)] when [N] divides [F·D]). *)
Theorem particle_start_offsets d random :
  ValidDescriptor d ->
  let F := framesCount d in
  let D := frameDuration d in
  let N := particlesCount d in
  in_int32 ((N - 1) * F) ->
  in_int64 ((N - 1) * F * D) ->
  exists particles random',
    generate_particles BufferedRandom RandomIndex d (Z.to_nat N) 0 random = Returned (particles, random')
    /\ Z.of_nat (List.length particles) = N
    /\ forall i, 0 <= i < N ->
         let start_of (k : Z) :=
           Particle.start (nth (Z.to_nat k) particles null_particle) in
         start_of i = i * F * D / N
         /\ 0 <= start_of i < F * D
         /\ (i + 1 < N ->
             F * D / N <= start_of (i + 1) - start_of i <= F * D / N + 1)
         /\ ((F * D) mod N = 0 -> start_of i = i * (F * D / N)).
Proof.
  intros Hvalid F D N H32 H64.
  pose proof Hvalid as [HF HD Hcanvas HN Hsprites _ _ _ _ _ _].
  fold F in HF. fold D in HD. fold N in HN.
  destruct (generate_particles_succeeds d (Z.to_nat N) 0 random Hsprites Hcanvas)
    as (particles & random' & Hgen & Hlen & Hnth).
  exists particles, random'. split; [exact Hgen|]. split; [lia|].
  assert (Hstart : forall k, 0 <= k < N ->
            Particle.start (nth (Z.to_nat k) particles null_particle)
            = k * (F * D) / N).
  { intros k Hk. destruct (Hnth (Z.to_nat k) ltac:(lia)) as [-> _].
    rewrite Z2Nat.id by lia. rewrite Z.add_0_l.
    destruct (particle_start_representable d k Hvalid Hk H32 H64) as (Hint & Htime & _).
    unfold start_of_index. fold F D N in Hint, Htime |- *.
    rewrite (to_int32_small (k * F)) by exact Hint.
    rewrite to_int64_small by exact Htime.
    rewrite Z.quot_div_nonneg by nia. f_equal. ring. }
  intros i Hi start_of. unfold start_of.
  assert (HX : 0 < F * D) by nia.
  rewrite (Hstart i Hi).
  split; [f_equal; ring|].
  split; [apply div_below; lia|].
  split.
  - intros Hnext. rewrite (Hstart (i + 1)) by lia. apply div_step; lia.
  - intros Hdiv. apply Z.div_exact in Hdiv; [|lia].
    rewrite Hdiv at 1.
    replace (i * (N * (F * D / N))) with (i * (F * D / N) * N) by ring.
    apply Z.div_mul. lia.
Qed.

(** *** Running [GenerateSpoilerMess] *)

Lemma GenerateSprite_succeeds d index spriteSize :
  0 <= index < particleSpritesCount d ->
  exists w h r,
    GenerateSprite' d index spriteSize
    = Returned {| format := Format_ARGB32_Premultiplied;
                  width := spriteSize; height := spriteSize;
                  bits := drawRoundedRect spriteSize w h r |}.
Proof.
  intros Hindex. unfold GenerateSprite.
  replace ((0 <=? index) && (index <? particleSpritesCount d)) with true.
  - cbn [Expects bind]. eexists _, _, _. reflexivity.
  - symmetry. apply andb_true_iff. split; [apply Z.leb_le | apply Z.ltb_lt]; lia.
Qed.

Definition drawn_sprite (spriteSize : Z) (sprite : QImage) : Prop :=
  exists w h r,
    sprite = {| format := Format_ARGB32_Premultiplied;
                width := spriteSize; height := spriteSize;
                bits := drawRoundedRect spriteSize w h r |}.

Lemma generate_sprites_succeeds d spriteSize n : forall i,
  0 <= i -> i + Z.of_nat n <= particleSpritesCount d ->
  exists sprites,
    generate_sprites' d n i spriteSize = Returned sprites
    /\ Forall (drawn_sprite spriteSize) sprites.
Proof.
  induction n as [|n IH]; intros i Hi Hn.
  - exists []. split; [reflexivity | constructor].
  - cbn [generate_sprites].
    destruct (GenerateSprite_succeeds d i spriteSize ltac:(lia)) as (w & h & r & ->).
    cbn [bind].
    destruct (IH (i + 1) ltac:(lia) ltac:(lia)) as (rest & -> & Hrest).
    cbn [bind]. eexists. split; [reflexivity|].
    constructor; [exists w, h, r; reflexivity | exact Hrest].
Qed.

Lemma generate_sprites_total d spriteSize n i :
  generate_sprites' d n i spriteSize = Aborted
  \/ exists sprites, generate_sprites' d n i spriteSize = Returned sprites.
Proof.
  destruct (generate_sprites' d n i spriteSize) as [|sprites]; eauto.
Qed.

Lemma paint_device_size p command :
  width (device (paint drawPixel p command)) = width (device p)
  /\ height (device (paint drawPixel p command)) = height (device p)
  /\ format (device (paint drawPixel p command)) = format (device p).
Proof. destruct command; simpl; auto. Qed.

Lemma fold_paint_length commands : forall p,
  List.length (bits (device (fold_left (paint drawPixel) commands p)))
  = List.length (bits (device p)).
Proof.
  induction commands as [|command commands IH]; intros p; simpl; [reflexivity|].
  rewrite IH. destruct command; simpl; try reflexivity. apply map_pixels_length.
Qed.

Lemma fold_paint_device_size commands : forall p,
  width (device (fold_left (paint drawPixel) commands p)) = width (device p)
  /\ height (device (fold_left (paint drawPixel) commands p)) = height (device p)
  /\ format (device (fold_left (paint drawPixel) commands p)) = format (device p).
Proof.
  induction commands as [|command commands IH]; intros p; simpl; [auto|].
  destruct (IH (paint drawPixel p command)) as (Hw & Hh & Hf).
  destruct (paint_device_size p command) as (Hw' & Hh' & Hf').
  rewrite Hw, Hh, Hf. auto.
Qed.

(** The conditions that [GenerateSpoilerMess] checks itself, the last one
    on the two durations as it computes them. *)
Definition checked (d : SpoilerMessDescriptor) : bool :=
  (0 <? framesCount d)
  && (0 <? frameDuration d)
  && (0 <? particlesCount d)
  && (0 <? canvasSize d)
  && Qle_bool (particleSizeMin d) (particleSizeMax d)
  && negb (Qle_bool (particleSizeMin d) 0)
  && (to_int64 (particleFadeInDuration d + particleShownDuration d
                + particleFadeOutDuration d)
      <? to_int64 (framesCount d * frameDuration d)).

Lemma checked_true d :
  checked d = true <->
  0 < framesCount d /\ 0 < frameDuration d /\ 0 < particlesCount d
  /\ 0 < canvasSize d
  /\ (particleSizeMin d <= particleSizeMax d)%Q
  /\ (0 < particleSizeMin d)%Q
  /\ to_int64 (particleFadeInDuration d + particleShownDuration d
               + particleFadeOutDuration d)
     < to_int64 (framesCount d * frameDuration d).
Proof.
  unfold checked. rewrite !andb_true_iff, !Z.ltb_lt, negb_true_iff, Qle_bool_iff.
  assert (Hmin : Qle_bool (particleSizeMin d) 0 = false <-> (0 < particleSizeMin d)%Q).
  { split.
    - intros H. apply Qnot_le_lt. intros Hle.
      apply Qle_bool_iff in Hle. congruence.
    - intros H. destruct (Qle_bool (particleSizeMin d) 0) eqn:E; [|reflexivity].
      apply Qle_bool_iff in E. exfalso. exact (Qlt_not_le _ _ H E). }
  rewrite Hmin. tauto.
Qed.

Lemma GenerateSpoilerMess_unchecked d :
  checked d = false -> GenerateSpoilerMess' d = Aborted.
Proof.
  unfold checked, GenerateSpoilerMess, Assert. intros H.
  destruct (0 <? framesCount d); [|reflexivity].
  destruct (0 <? frameDuration d); [|reflexivity].
  destruct (0 <? particlesCount d); [|reflexivity].
  destruct (0 <? canvasSize d); [|reflexivity].
  destruct (Qle_bool (particleSizeMin d) (particleSizeMax d)); [|reflexivity].
  destruct (Qle_bool (particleSizeMin d) 0); [reflexivity|].
  cbn [andb negb] in H. cbn [Expects bind negb]. rewrite H. reflexivity.
Qed.

Lemma GenerateSpoilerMess_no_sprites d :
  checked d = true -> particleSpritesCount d <= 0 ->
  GenerateSpoilerMess' d = Aborted.
Proof.
  intros Hchecked Hsprites.
  pose proof (proj1 (checked_true d) Hchecked) as (_ & _ & HN & _).
  unfold checked in Hchecked. unfold GenerateSpoilerMess, Assert.
  destruct (0 <? framesCount d); [|discriminate].
  destruct (0 <? frameDuration d); [|discriminate].
  destruct (0 <? particlesCount d) eqn:EN; [|discriminate].
  destruct (0 <? canvasSize d); [|discriminate].
  destruct (Qle_bool (particleSizeMin d) (particleSizeMax d)); [|discriminate].
  destruct (Qle_bool (particleSizeMin d) 0); [discriminate|].
  cbn [andb negb] in Hchecked. cbn [Expects bind negb].
  rewrite Hchecked. cbn [Expects bind].
  unfold reserve.
  replace (0 <=? particlesCount d) with true by (symmetry; apply Z.leb_le; lia).
  cbn [Expects bind].
  destruct (Z.to_nat (particlesCount d)) as [|n] eqn:En; [lia|].
  cbn [generate_particles]. unfold GenerateParticle.
  rewrite RandomIndex_nonpositive by assumption. reflexivity.
Qed.

(** What the painter of [GenerateSpoilerMess] leaves in its image. *)
Definition painted_atlas (d : SpoilerMessDescriptor)
    (particles : list Particle.t) (sprites : list QImage) : QImage :=
  let frames := framesCount d in
  let rows := Z.quot (to_int32 (frames + kFramesPerRow - 1)) kFramesPerRow in
  let columns := Z.min frames kFramesPerRow in
  let size := canvasSize d in
  let spriteSize := 2 + Qceiling (particleSizeMax d) in
  let c := {| descriptor_ := d; sprites_ := sprites;
              spriteSize_ := spriteSize; size_ := size;
              singleDuration_ :=
                to_int64 (particleFadeInDuration d + particleShownDuration d
                          + particleFadeOutDuration d);
              fullDuration_ := to_int64 (frames * frameDuration d) |} in
  device (fold_left (paint drawPixel)
            (paint_rows c particles columns (Z.to_nat (wrap32 rows)) 0 0)
            (begin_paint (new_image QImage_fits (to_int32 (size * columns))
                            (to_int32 (size * rows))
                            Format_ARGB32_Premultiplied))).

(** The painter changes no size: the atlas is the image that was made, or
    the null image. *)
Lemma painted_atlas_made d particles sprites :
  let made := new_image QImage_fits
                (to_int32 (canvasSize d * Z.min (framesCount d) kFramesPerRow))
                (to_int32 (canvasSize d
                           * Z.quot (to_int32 (framesCount d + kFramesPerRow - 1))
                                    kFramesPerRow))
                Format_ARGB32_Premultiplied in
  width (painted_atlas d particles sprites) = width made
  /\ height (painted_atlas d particles sprites) = height made
  /\ format (painted_atlas d particles sprites) = format made
  /\ List.length (bits (painted_atlas d particles sprites)) = List.length (bits made).
Proof.
  intros made. unfold painted_atlas.
  match goal with
  | |- context [fold_left _ ?cs ?p] =>
      destruct (fold_paint_device_size cs p) as (Hw & Hh & Hf);
      pose proof (fold_paint_length cs p) as Hl
  end.
  rewrite Hw, Hh, Hf, Hl. repeat split.
Qed.

Lemma painted_atlas_size d particles sprites :
  in_int32 (framesCount d + kFramesPerRow - 1) ->
  in_int32 (canvasSize d * atlas_columns (framesCount d)) ->
  in_int32 (canvasSize d * atlas_rows (framesCount d)) ->
  QImage_fits (canvasSize d * atlas_columns (framesCount d))
              (canvasSize d * atlas_rows (framesCount d)) = true ->
  width (painted_atlas d particles sprites) = atlas_columns (framesCount d) * canvasSize d
  /\ height (painted_atlas d particles sprites) = atlas_rows (framesCount d) * canvasSize d
  /\ format (painted_atlas d particles sprites) = Format_ARGB32_Premultiplied.
Proof.
  intros Hrows Hw Hh Hfits.
  destruct (painted_atlas_made d particles sprites) as (-> & -> & -> & _).
  rewrite (to_int32_small (framesCount d + kFramesPerRow - 1)) by exact Hrows.
  fold (atlas_rows (framesCount d)). fold (atlas_columns (framesCount d)).
  rewrite !to_int32_small by assumption.
  unfold new_image. rewrite Hfits. cbn [width height format transparent_image].
  repeat split; apply Z.mul_comm.
Qed.

(** An atlas that the constructor accepts was made by Qt, with the sizes
    that the constructor asks for. *)
Lemma painted_atlas_accepted d particles sprites mask :
  SpoilerMessCached_ctor (painted_atlas d particles sprites)
    (framesCount d) (frameDuration d) (canvasSize d) = Returned mask ->
  width (painted_atlas d particles sprites) = atlas_columns (framesCount d) * canvasSize d
  /\ height (painted_atlas d particles sprites) = atlas_rows (framesCount d) * canvasSize d
  /\ format (painted_atlas d particles sprites) = Format_ARGB32_Premultiplied
  /\ List.length (bits (painted_atlas d particles sprites))
     = (Z.to_nat (height (painted_atlas d particles sprites))
        * Z.to_nat (width (painted_atlas d particles sprites)))%nat.
Proof.
  intros Hctor.
  apply SpoilerMessCached_ctor_Returned in Hctor as (_ & HF & Hcs & Hw & Hh & _).
  split; [exact Hw|]. split; [exact Hh|].
  destruct (painted_atlas_made d particles sprites) as (Hw' & Hh' & Hf' & Hl').
  cbv zeta in Hw', Hh', Hf', Hl'. rewrite Hf', Hl', Hw', Hh'.
  rewrite Hw' in Hw. unfold new_image in *.
  destruct (QImage_fits _ _).
  - cbn [width height format bits transparent_image] in *.
    split; [reflexivity|]. rewrite repeat_length.
    assert (0 < atlas_columns (framesCount d))
      by (unfold atlas_columns, kFramesPerRow; lia).
    match goal with
    | |- Z.to_nat (?w * ?h) = _ =>
        destruct (Z_lt_le_dec h 0) as [Hneg | Hpos];
        [ rewrite (Z2Nat_nonpos h) by lia; rewrite Z2Nat_nonpos by nia; reflexivity
        | rewrite Z2Nat.inj_mul by nia; apply Nat.mul_comm ]
    end.
  - exfalso. cbn [width null_image] in Hw.
    assert (0 < atlas_columns (framesCount d))
      by (unfold atlas_columns, kFramesPerRow; lia).
    nia.
Qed.



Lemma GenerateSpoilerMess_succeeds d :
  checked d = true -> 0 < particleSpritesCount d ->
  in_int32 (framesCount d + kFramesPerRow - 1) ->
  in_int32 (canvasSize d * atlas_columns (framesCount d)) ->
  in_int32 (canvasSize d * atlas_rows (framesCount d)) ->
  QImage_fits (canvasSize d * atlas_columns (framesCount d))
              (canvasSize d * atlas_rows (framesCount d)) = true ->
  exists particles sprites,
    Forall (drawn_sprite (2 + Qceiling (particleSizeMax d))) sprites
    /\ GenerateSpoilerMess' d
       = Returned {| _image := painted_atlas d particles sprites;
                     _frameDuration := frameDuration d;
                     _framesCount := framesCount d;
                     _canvasSize := canvasSize d |}.
Proof.
  intros Hchecked Hsprites Hrows Hwidth Hheight Hfits.
  pose proof (proj1 (checked_true d) Hchecked) as (HF & HD & HN & Hcs & _).
  unfold checked in Hchecked. unfold GenerateSpoilerMess, Assert.
  destruct (0 <? framesCount d); [|discriminate].
  destruct (0 <? frameDuration d); [|discriminate].
  destruct (0 <? particlesCount d) eqn:EN; [|discriminate].
  destruct (0 <? canvasSize d); [|discriminate].
  destruct (Qle_bool (particleSizeMin d) (particleSizeMax d)); [|discriminate].
  destruct (Qle_bool (particleSizeMin d) 0); [discriminate|].
  cbn [andb negb] in Hchecked. cbn [Expects bind negb].
  rewrite Hchecked. cbn [Expects bind].
  unfold reserve.
  replace (0 <=? particlesCount d) with true by (symmetry; apply Z.leb_le; lia).
  replace (0 <=? particleSpritesCount d) with true by (symmetry; apply Z.leb_le; lia).
  cbn [Expects bind].
  destruct (generate_particles_succeeds d (Z.to_nat (particlesCount d)) 0
              (BufferedRandom_ctor (to_int32 (particlesCount d * 3))) Hsprites Hcs)
    as (particles & random' & -> & _).
  cbn [bind].
  destruct (generate_sprites_succeeds d (2 + Qceiling (particleSizeMax d))
              (Z.to_nat (particleSpritesCount d)) 0 ltac:(lia) ltac:(lia))
    as (sprites & -> & Hdrawn).
  cbn [bind].
  exists particles, sprites. split; [exact Hdrawn|].
  fold (painted_atlas d particles sprites).
  destruct (painted_atlas_size d particles sprites Hrows Hwidth Hheight Hfits)
    as (Hw & Hh & _).
  apply SpoilerMessCached_ctor_succeeds; assumption.
Qed.



(** C5, as the code has it.  [GenerateSpoilerMess] aborts for a descriptor
    with a non-positive frame count, frame duration, canvas size, particle
    count or sprite-variant count, a non-positive minimum particle size, a
    maximum size below the minimum, or a timeline
    [framesCount × frameDuration] that does not exceed the lifetime of a
    particle, the lifetime being inside [crl::time].  The three durations
    of the lifetime need not be positive. *)
Theorem GenerateSpoilerMess_aborts_on_violation d :
  let lifetime := particleFadeInDuration d + particleShownDuration d
                  + particleFadeOutDuration d in
  let timeline := framesCount d * frameDuration d in
  framesCount d <= 0 \/ frameDuration d <= 0 \/ canvasSize d <= 0
  \/ particlesCount d <= 0 \/ particleSpritesCount d <= 0
  \/ (particleSizeMin d <= 0)%Q
  \/ (particleSizeMax d < particleSizeMin d)%Q
  \/ (in_int64 lifetime /\ timeline <= lifetime) ->
  GenerateSpoilerMess BufferedRandom BufferedRandom_ctor RandomIndex
    drawRoundedRect drawPixel QImage_fits d = Aborted.
Proof.
  intros lifetime timeline Hviolation.
  destruct (checked d) eqn:Hchecked;
    [|apply GenerateSpoilerMess_unchecked; exact Hchecked].
  pose proof (proj1 (checked_true d) Hchecked)
    as (HF & HD & HN & Hcs & Hmax & Hmin & Htime).
  fold lifetime timeline in Htime.
  destruct Hviolation as [H | [H | [H | [H | [H | [H | [H | H]]]]]]]; try lia.
  - apply GenerateSpoilerMess_no_sprites; assumption.
  - exfalso. exact (Qlt_not_le _ _ Hmin H).
  - exfalso. exact (Qlt_not_le _ _ H Hmax).
  - destruct H as (Hlife & Hshort).
    assert (Hline : in_int64 timeline)
      by (unfold in_int64, timeline in *; nia).
    rewrite !to_int64_small in Htime by assumption. lia.
Qed.

End GenerationProperties.

(** ** Bytes *)

Lemma Z_of_byte_of_Z v : Z_of_byte (byte_of_Z v) = v mod 256.
Proof.
  unfold Z_of_byte, byte_of_Z.
  pose proof (Z.mod_pos_bound v 256 ltac:(lia)) as Hrange.
  destruct (Byte.of_N (Z.to_N (v mod 256))) as [b|] eqn:E.
  - apply Byte.to_of_N in E. rewrite E. lia.
  - apply Byte.of_N_None_iff in E. lia.
Qed.

Lemma Z_of_byte_range b : 0 <= Z_of_byte b < 256.
Proof.
  unfold Z_of_byte. pose proof (Byte.to_N_bounded b). lia.
Qed.

Lemma testbit_mod_256 v n :
  Z.testbit (v mod 256) n = (n <? 8) && Z.testbit v n.
Proof.
  change 256 with (2 ^ 8).
  destruct (Z.ltb_spec n 8).
  - rewrite Z.mod_pow2_bits_low by lia. reflexivity.
  - rewrite Z.mod_pow2_bits_high by lia. reflexivity.
Qed.

Lemma testbit_byte_at v k n :
  0 <= k -> 0 <= n ->
  Z.testbit (Z.shiftl (Z.shiftr v k mod 256) k) n
  = (k <=? n) && (n <? k + 8) && Z.testbit v n.
Proof.
  intros Hk Hn. rewrite Z.shiftl_spec by lia.
  destruct (Z.leb_spec k n).
  - rewrite testbit_mod_256, Z.shiftr_spec by lia.
    replace (n - k + k) with n by lia.
    destruct (Z.ltb_spec (n - k) 8), (Z.ltb_spec n (k + 8)); try lia; reflexivity.
  - rewrite Z.testbit_neg_r by lia. reflexivity.
Qed.

(** The four bytes of an [uint32], read back. *)
Lemma uint32_of_bytes v :
  Z.lor (Z_of_byte (byte_of_Z v))
    (Z.lor (Z.shiftl (Z_of_byte (byte_of_Z (Z.shiftr v 8))) 8)
      (Z.lor (Z.shiftl (Z_of_byte (byte_of_Z (Z.shiftr v 16))) 16)
             (Z.shiftl (Z_of_byte (byte_of_Z (Z.shiftr v 24))) 24)))
  = wrap32 v.
Proof.
  rewrite !Z_of_byte_of_Z. unfold wrap32. change 4294967296 with (2 ^ 32).
  apply Z.bits_inj'. intros n Hn.
  rewrite !Z.lor_spec, !testbit_byte_at, testbit_mod_256 by lia.
  destruct (Z.ltb_spec n 32).
  - rewrite Z.mod_pow2_bits_low by lia.
    destruct (Z.testbit v n); [|rewrite !andb_false_r; reflexivity].
    rewrite !andb_true_r.
    destruct (Z.ltb_spec n 8), (Z.leb_spec 8 n), (Z.ltb_spec n (8 + 8)),
      (Z.leb_spec 16 n), (Z.ltb_spec n (16 + 8)), (Z.leb_spec 24 n),
      (Z.ltb_spec n (24 + 8)); try lia; reflexivity.
  - rewrite Z.mod_pow2_bits_high by lia.
    destruct (Z.ltb_spec n 8), (Z.ltb_spec n (8 + 8)), (Z.ltb_spec n (16 + 8)),
      (Z.ltb_spec n (24 + 8)); lia.
Qed.

Lemma Header_read_bytes h payload :
  Header_read (Header_bytes h ++ payload)
  = {| Header.version := wrap32 (Header.version h);
       Header.dataLength := wrap32 (Header.dataLength h);
       Header.dataHash := wrap32 (Header.dataHash h);
       Header.framesCount := to_int32 (wrap32 (Header.framesCount h));
       Header.canvasSize := to_int32 (wrap32 (Header.canvasSize h));
       Header.frameDuration := to_int32 (wrap32 (Header.frameDuration h)) |}.
Proof.
  unfold Header_read, Header_bytes, uint32_at, uint32_bytes.
  cbn [app nth Nat.add].
  rewrite !uint32_of_bytes.
  unfold wrap32. rewrite !Z.mod_mod by lia. reflexivity.
Qed.

Lemma Header_bytes_length h : List.length (Header_bytes h) = 24%nat.
Proof. reflexivity. Qed.



(** A pixel whose four bytes are equal. *)
Definition gray (pixel : Z) : Prop := replicate_byte (first_byte pixel) = pixel.



(** ** Decoding *)

Section CodecProperties.

Variable save_PNG : QImage -> list byte.
Variable loadFromData_PNG : list byte -> option QImage.
Variable XXH32 : list byte -> Z.

Local Abbreviation serialize' := (serialize save_PNG XXH32).
Local Abbreviation FromSerialized' := (FromSerialized loadFromData_PNG XXH32).

(** What [FromSerialized] requires of the header, given the bytes that
    follow it. *)
Definition header_accepted (header : Header.t) (validator : option Validator.t)
    (payload : list byte) : Prop :=
  Header.version header = kVersion
  /\ 0 < Header.canvasSize header
  /\ 0 < Header.framesCount header
  /\ 0 < Header.frameDuration header
  /\ (forall v, validator = Some v ->
        Validator.frameDuration v = Header.frameDuration header
        /\ Validator.framesCount v = Header.framesCount header
        /\ Validator.canvasSize v = Header.canvasSize header)
  /\ Header.dataLength header = Z.of_nat (List.length payload)
  /\ XXH32 payload = Header.dataHash header.

Lemma validator_rejects_false validator header :
  validator_rejects validator header = false <->
  forall v, validator = Some v ->
    Validator.frameDuration v = Header.frameDuration header
    /\ Validator.framesCount v = Header.framesCount header
    /\ Validator.canvasSize v = Header.canvasSize header.
Proof.
  destruct validator as [v|]; simpl.
  - rewrite !orb_false_iff, !negb_false_iff, !Z.eqb_eq. split.
    + intros H v' [= <-]. tauto.
    + intros H. specialize (H v eq_refl). tauto.
  - split; [intros _ v; discriminate | reflexivity].
Qed.

Lemma header_checks data validator :
  sizeof_Header < Z.of_nat (List.length data) ->
  let header := Header_read data in
  let whole := skipn (Z.to_nat sizeof_Header) data in
  let payload := firstn (Z.to_nat (Header.dataLength header)) whole in
  negb (Header.version header =? kVersion)
  || (Header.canvasSize header <=? 0)
  || (Header.framesCount header <=? 0)
  || (Header.frameDuration header <=? 0)
  || validator_rejects validator header
  || negb (sizeof_Header + Header.dataLength header =? Z.of_nat (List.length data))
  || negb (XXH32 payload =? Header.dataHash header) = false
  <-> header_accepted header validator whole.
Proof.
  intros Hlong header whole payload. unfold header_accepted.
  assert (Hwhole : Z.of_nat (List.length whole) = Z.of_nat (List.length data) - sizeof_Header).
  { unfold whole. rewrite length_skipn. unfold sizeof_Header in *. lia. }
  rewrite !orb_false_iff, !negb_false_iff, !Z.eqb_eq, !Z.leb_gt,
    validator_rejects_false.
  split.
  - intros ((((((Hv & Hc) & Hf) & Hd) & Hval) & Hlen) & Hhash).
    assert (Hlen' : Header.dataLength header = Z.of_nat (List.length whole)) by lia.
    refine (conj Hv (conj Hc (conj Hf (conj Hd (conj Hval (conj Hlen' _)))))).
    rewrite <- Hhash. unfold payload. rewrite Hlen', Nat2Z.id, firstn_all.
    reflexivity.
  - intros (Hv & Hc & Hf & Hd & Hval & Hlen & Hhash).
    refine (conj (conj (conj (conj (conj (conj Hv Hc) Hf) Hd) Hval) _) _); [lia|].
    unfold payload. rewrite Hlen, Nat2Z.id, firstn_all. assumption.
Qed.


Lemma validator_rejects_true validator header :
  validator_rejects validator header = true ->
  exists v, validator = Some v
    /\ ~ (Validator.frameDuration v = Header.frameDuration header
          /\ Validator.framesCount v = Header.framesCount header
          /\ Validator.canvasSize v = Header.canvasSize header).
Proof.
  intros H. destruct validator as [v|]; [|discriminate].
  exists v. split; [reflexivity|]. intros Hall.
  assert (Hfalse : validator_rejects (Some v) header = false)
    by (apply validator_rejects_false; intros v' [= <-]; exact Hall).
  congruence.
Qed.

(** C2. [FromSerialized] never aborts.  It returns no result exactly when
    the data is not longer than the header, or the version is not the
    current one, or the canvas size, the frame count or the frame duration
    of the header is not positive, or a validator is given and one of its
    three fields differs from the header's, or the declared length of the
    payload is not the number of bytes after the header, or the checksum of
    the payload is not the header's, or the payload does not load as an
    image, or loads as one that is not [Format_Grayscale8], or one whose
    size is not [min(framesCount, 10)·canvasSize] by
    [⌈framesCount / 10⌉·canvasSize].  In every other case it returns an
    asset, with the parameters of the header. *)
Theorem FromSerialized_rejects_exactly data validator :
  let header := Header_read data in
  let payload := skipn 24 data in
  FromSerialized loadFromData_PNG XXH32 data validator <> Aborted
  /\ (FromSerialized loadFromData_PNG XXH32 data validator = Returned None <->
      Z.of_nat (List.length data) <= 24
      \/ Header.version header <> kVersion
      \/ Header.canvasSize header <= 0
      \/ Header.framesCount header <= 0
      \/ Header.frameDuration header <= 0
      \/ (exists v, validator = Some v
            /\ ~ (Validator.frameDuration v = Header.frameDuration header
                  /\ Validator.framesCount v = Header.framesCount header
                  /\ Validator.canvasSize v = Header.canvasSize header))
      \/ Header.dataLength header <> Z.of_nat (List.length payload)
      \/ XXH32 payload <> Header.dataHash header
      \/ match loadFromData_PNG payload with
         | None => True
         | Some grayscale =>
             format grayscale <> Format_Grayscale8
             \/ width grayscale
                <> Z.min (Header.framesCount header) 10 * Header.canvasSize header
             \/ height grayscale
                <> Qceiling (Header.framesCount header # 10) * Header.canvasSize header
         end)
  /\ (FromSerialized loadFromData_PNG XXH32 data validator = Returned None
      \/ exists mask,
           FromSerialized loadFromData_PNG XXH32 data validator = Returned (Some mask)
           /\ framesCount_of mask = Header.framesCount header
           /\ canvasSize_of mask = Header.canvasSize header
           /\ frameDuration_of mask = Header.frameDuration header).
Proof.
  intros header payload. unfold FromSerialized.
  change (Z.to_nat sizeof_Header) with 24%nat. fold header. fold payload.
  destruct (Z.leb_spec (Z.of_nat (List.length data)) sizeof_Header) as [Hshort | Hlong].
  { unfold sizeof_Header in Hshort.
    split; [discriminate|]. split; [|left; reflexivity].
    split; [intros _; left; exact Hshort | reflexivity]. }
  assert (Hpayload : Z.of_nat (List.length payload)
                     = Z.of_nat (List.length data) - sizeof_Header).
  { unfold payload. rewrite length_skipn. unfold sizeof_Header in *. lia. }
  match goal with
  | |- context [if ?b then Returned None else _] => destruct b eqn:Erejected
  end.
  { split; [discriminate|]. split; [|left; reflexivity].
    split; [|reflexivity]. intros _.
    rewrite !orb_true_iff, !negb_true_iff, !Z.eqb_neq, !Z.leb_le in Erejected.
    destruct Erejected as [[[[[[H | H] | H] | H] | H] | H] | H]; try tauto.
    - apply validator_rejects_true in H. tauto.
    - do 6 right. left. lia.
    - destruct (Z.eq_dec (Header.dataLength header) (Z.of_nat (List.length payload)))
        as [Hlen | Hlen]; [|tauto].
      rewrite Hlen, Nat2Z.id, firstn_all in H. tauto. }
  pose proof (header_checks data validator Hlong) as Hchecks.
  cbv zeta in Hchecks.
  change (Z.to_nat sizeof_Header) with 24%nat in Hchecks.
  fold header in Hchecks. fold payload in Hchecks.
  apply Hchecks in Erejected. clear Hchecks.
  destruct Erejected as (Hv & Hc & Hf & Hd & Hval & Hlen & Hhash).
  replace (firstn (Z.to_nat (Header.dataLength header)) payload) with payload
    by (rewrite Hlen, Nat2Z.id, firstn_all; reflexivity).
  assert (Hheader : forall P : Prop,
    Z.of_nat (List.length data) <= 24
    \/ Header.version header <> kVersion
    \/ Header.canvasSize header <= 0
    \/ Header.framesCount header <= 0
    \/ Header.frameDuration header <= 0
    \/ (exists v, validator = Some v
          /\ ~ (Validator.frameDuration v = Header.frameDuration header
                /\ Validator.framesCount v = Header.framesCount header
                /\ Validator.canvasSize v = Header.canvasSize header))
    \/ Header.dataLength header <> Z.of_nat (List.length payload)
    \/ XXH32 payload <> Header.dataHash header
    \/ P -> P).
  { unfold sizeof_Header in Hlong.
    intros P [H | [H | [H | [H | [H | [H | [H | [H | H]]]]]]]];
      try lia; try tauto.
    destruct H as (v & Hsome & Hno). exfalso. apply Hno. apply Hval. exact Hsome. }
  destruct (loadFromData_PNG payload) as [grayscale|].
  2: { split; [discriminate|]. split; [|left; reflexivity].
       split; [intros _; do 8 right; exact I | reflexivity]. }
  destruct (Format_eqb (format grayscale) Format_Grayscale8) eqn:Eformat; cbn [negb].
  2: { split; [discriminate|]. split; [|left; reflexivity].
       split; [|reflexivity]. intros _. do 8 right. left.
       intros Heq. apply Format_eqb_eq in Heq. congruence. }
  apply Format_eqb_eq in Eformat.
  unfold QSize_eqb, QSize_scale. cbn [size_width size_height].
  fold (atlas_rows (Header.framesCount header)).
  rewrite atlas_rows_ceiling by lia. unfold kFramesPerRow.
  destruct (Z.eqb_spec (width grayscale)
              (Z.min (Header.framesCount header) 10 * Header.canvasSize header))
    as [Hw | Hw]; cbn [andb negb].
  2: { split; [discriminate|]. split; [|left; reflexivity].
       split; [|reflexivity]. intros _. do 8 right. tauto. }
  destruct (Z.eqb_spec (height grayscale)
              (Qceiling (Header.framesCount header # 10) * Header.canvasSize header))
    as [Hh | Hh]; cbn [andb negb].
  2: { split; [discriminate|]. split; [|left; reflexivity].
       split; [|reflexivity]. intros _. do 8 right. tauto. }
  match goal with
  | |- context [SpoilerMessCached_ctor ?image _ _ _] =>
      assert (Hw' : width image
                    = atlas_columns (Header.framesCount header)
                      * Header.canvasSize header) by exact Hw;
      assert (Hh' : height image
                    = atlas_rows (Header.framesCount header)
                      * Header.canvasSize header)
        by (rewrite atlas_rows_ceiling by lia; exact Hh);
      rewrite bytesPerLine_words; cbn [bind];
      rewrite (SpoilerMessCached_ctor_succeeds image _ _ _ Hd Hf Hc Hw' Hh')
  end.
  cbn [bind]. split; [discriminate|]. split.
  - split; [discriminate|]. intros H. apply Hheader in H. tauto.
  - right. eexists. split; [reflexivity|]. repeat split.
Qed.

End CodecProperties.

(** ** The pixels of a generated atlas *)








Section AtlasPixels.

Variable drawRoundedRect : Z -> Q -> Q -> Q -> list Z.
Variable drawPixel : Q -> Z -> Z -> Z.
Variable QImage_fits : Z -> Z -> bool.

(** With a white brush on a transparent image, and with white sprites drawn
    over such an image, every channel of a premultiplied pixel holds the
    same value. *)
Hypothesis drawRoundedRect_gray : forall size w h r,
  Forall gray (drawRoundedRect size w h r).
Hypothesis drawPixel_gray : forall opacity s d,
  gray s -> gray d -> gray (drawPixel opacity s d).




End AtlasPixels.

(** ** What [serialize] reads *)

(** In an image of 32 bits per pixel the byte at four times an index is
    the first byte of the pixel of that index. *)
Lemma constBits_at_pixel image k :
  format image = Format_ARGB32_Premultiplied ->
  0 < width image ->
  0 <= k < width image * height image ->
  constBits_at image (4 * k) = Some (first_byte (nth (Z.to_nat k) (bits image) 0)).
Proof.
  intros Hformat Hw Hk. unfold constBits_at.
  assert (Hline : bytesPerLine image = 4 * width image).
  { unfold bytesPerLine. rewrite Hformat. cbn [depth].
    rewrite Z.shiftr_div_pow2, Z.shiftl_mul_pow2 by lia.
    change (2 ^ 5) with 32. change (2 ^ 2) with 4.
    replace (width image * 32 + 31) with (31 + width image * 32) by ring.
    rewrite Z.div_add by lia. change (31 / 32) with 0. lia. }
  rewrite Hline, Hformat.
  destruct (Z.ltb_spec (4 * k) 0); [lia|].
  destruct (Z.leb_spec (4 * width image) 0); [lia|].
  cbn [orb].
  rewrite !Z.mul_comm with (n := 4).
  rewrite Z.div_mul_cancel_r by lia.
  rewrite Zmult_mod_distr_r.
  destruct (Z.leb_spec (height image) (k / width image)) as [Hrow|_].
  { exfalso. assert (k / width image < height image); [|lia].
    apply Z.div_lt_upper_bound; lia. }
  rewrite Z.div_mul by lia. rewrite Z.mod_mul by lia.
  change (8 * 0) with 0. rewrite Z.shiftr_0_r.
  unfold first_byte. do 4 f_equal.
  pose proof (Z.div_mod k (width image) ltac:(lia)). lia.
Qed.

Lemma read_line_pixels image n : forall k,
  format image = Format_ARGB32_Premultiplied ->
  0 < width image ->
  0 <= k ->
  k + Z.of_nat n <= width image * height image ->
  (Z.to_nat k + n <= List.length (bits image))%nat ->
  read_line image n (4 * k)
  = Some (map first_byte (firstn n (skipn (Z.to_nat k) (bits image))),
          4 * (k + Z.of_nat n)).
Proof.
  induction n as [|n IH]; intros k Hformat Hw Hk Hfits Hlen.
  - cbn [read_line firstn map]. rewrite Z.add_0_r. reflexivity.
  - cbn [read_line].
    rewrite constBits_at_pixel by (assumption || lia).
    replace (4 * k + 4) with (4 * (k + 1)) by ring.
    rewrite IH by (assumption || lia).
    replace (Z.to_nat (k + 1)) with (S (Z.to_nat k)) by lia.
    replace (k + 1 + Z.of_nat n) with (k + Z.of_nat (S n)) by lia.
    do 2 f_equal.
    destruct (skipn (Z.to_nat k) (bits image)) as [|pixel rest] eqn:E.
    + exfalso. apply (f_equal (@List.length Z)) in E.
      rewrite length_skipn in E. simpl in E. lia.
    + rewrite <- (firstn_skipn (Z.to_nat k) (bits image)) at 1.
      rewrite app_nth2 by (rewrite length_firstn; lia).
      rewrite length_firstn, Nat.min_l by lia. rewrite Nat.sub_diag, E.
      cbn [nth firstn map]. do 2 f_equal.
      change (S (Z.to_nat k)) with (1 + Z.to_nat k)%nat.
      rewrite <- skipn_skipn, E. reflexivity.
Qed.

Lemma firstn_plus (A : Type) (a b : nat) : forall l : list A,
  firstn (a + b) l = firstn a l ++ firstn b (skipn a l).
Proof.
  induction a as [|a IH]; intros l; [reflexivity|].
  destruct l as [|x l]; cbn [Nat.add firstn skipn app].
  - rewrite firstn_nil. reflexivity.
  - rewrite IH. reflexivity.
Qed.

Lemma read_lines_pixels image w n : forall k,
  format image = Format_ARGB32_Premultiplied ->
  0 < width image ->
  0 <= k ->
  k + Z.of_nat (n * w) <= width image * height image ->
  (Z.to_nat k + n * w <= List.length (bits image))%nat ->
  read_lines image n w 0 (4 * k)
  = Some (map first_byte (firstn (n * w) (skipn (Z.to_nat k) (bits image)))).
Proof.
  induction n as [|n IH]; intros k Hformat Hw Hk Hfits Hlen.
  - reflexivity.
  - cbn [read_lines].
    rewrite read_line_pixels by (assumption || (simpl in *; lia)).
    rewrite Z.add_0_r.
    rewrite IH by (assumption || (simpl in *; lia)).
    f_equal. rewrite <- map_app. f_equal.
    replace (Z.to_nat (k + Z.of_nat w)) with (w + Z.to_nat k)%nat by lia.
    rewrite <- skipn_skipn.
    change (S n * w)%nat with (w + n * w)%nat.
    rewrite firstn_plus. reflexivity.
Qed.

Lemma read_lines_empty image n fromadd : forall frombytes,
  read_lines image n 0 fromadd frombytes = Some [].
Proof.
  induction n as [|n IH]; intros frombytes; cbn [read_lines read_line];
    [reflexivity|].
  rewrite IH. reflexivity.
Qed.

(** From an image of 32 bits per pixel [serialize] reads the first byte of
    every pixel. *)
Lemma grayscale_bits_first_bytes image :
  format image = Format_ARGB32_Premultiplied ->
  List.length (bits image)
  = (Z.to_nat (height image) * Z.to_nat (width image))%nat ->
  grayscale_bits image = Some (map first_byte (bits image)).
Proof.
  intros Hformat Hlen. unfold grayscale_bits.
  destruct (Z_lt_le_dec 0 (width image)) as [Hw | Hw].
  - assert (Hline : bytesPerLine image - width image * 4 = 0).
    { unfold bytesPerLine. rewrite Hformat. cbn [depth].
      rewrite Z.shiftr_div_pow2, Z.shiftl_mul_pow2 by lia.
      change (2 ^ 5) with 32. change (2 ^ 2) with 4.
      replace (width image * 32 + 31) with (31 + width image * 32) by ring.
      rewrite Z.div_add by lia. change (31 / 32) with 0. lia. }
    rewrite Hline.
    destruct (Z_lt_le_dec 0 (height image)) as [Hh | Hh].
    + rewrite (read_lines_pixels image _ _ 0) by (assumption || lia || nia).
      cbn [Z.to_nat skipn]. rewrite <- Hlen, firstn_all. reflexivity.
    + rewrite (Z2Nat_nonpos (height image)) in * by exact Hh.
      destruct (bits image); [reflexivity | discriminate].
  - rewrite (Z2Nat_nonpos (width image)) in * by exact Hw.
    rewrite Nat.mul_0_r in Hlen.
    destruct (bits image); [|discriminate].
    apply read_lines_empty.
Qed.

(** ** Encoding and decoding *)

Section RoundTrip.

Variable BufferedRandom : Type.
Variable BufferedRandom_ctor : Z -> BufferedRandom.
Variable RandomIndex : Z -> BufferedRandom -> contract (Z * BufferedRandom).
Variable drawRoundedRect : Z -> Q -> Q -> Q -> list Z.
Variable drawPixel : Q -> Z -> Z -> Z.
Variable QImage_fits : Z -> Z -> bool.
Variable save_PNG : QImage -> list byte.
Variable loadFromData_PNG : list byte -> option QImage.
Variable XXH32 : list byte -> Z.

Hypothesis drawRoundedRect_gray : forall size w h r,
  Forall gray (drawRoundedRect size w h r).
Hypothesis drawPixel_gray : forall opacity s d,
  gray s -> gray d -> gray (drawPixel opacity s d).

(** The checksum is an [uint32]. *)
Hypothesis XXH32_range : forall data, in_uint32 (XXH32 data).

Local Abbreviation GenerateSpoilerMess' :=
  (GenerateSpoilerMess BufferedRandom BufferedRandom_ctor RandomIndex
     drawRoundedRect drawPixel QImage_fits).
Local Abbreviation serialize' := (serialize save_PNG XXH32).
Local Abbreviation FromSerialized' := (FromSerialized loadFromData_PNG XXH32).



(** What [serialize] saves: one byte of each pixel of the atlas. *)
Definition grayscale_of (atlas : QImage) : QImage :=
  {| format := Format_Grayscale8;
     width := width atlas;
     height := height atlas;
     bits := match grayscale_bits atlas with
             | Some bytes => bytes
             | None => []
             end |}.

Lemma serialize_Returned mask :
  _frameDuration mask < int32_max ->
  grayscale_bits (_image mask) <> None ->
  let png := save_PNG (grayscale_of (_image mask)) in
  serialize' mask
  = Returned
      (Header_bytes
         {| Header.version := kVersion;
            Header.dataLength := wrap32 (Z.of_nat (List.length png));
            Header.dataHash :=
              XXH32 (firstn (Z.to_nat (wrap32 (Z.of_nat (List.length png)))) png);
            Header.framesCount := _framesCount mask;
            Header.canvasSize := _canvasSize mask;
            Header.frameDuration := to_int32 (_frameDuration mask) |}
       ++ png).
Proof.
  intros Hfd Hread png. unfold serialize.
  apply Z.ltb_lt in Hfd. rewrite Hfd. cbn [Expects bind].
  unfold png, grayscale_of.
  destruct (grayscale_bits (_image mask)) as [bytes|]; [|congruence].
  set (saved := save_PNG _).
  change (Z.to_nat sizeof_Header) with 24%nat.
  change (skipn 24 (repeat x00 24 ++ saved)) with saved.
  replace (Z.of_nat (List.length (repeat x00 24 ++ saved)) - sizeof_Header)
    with (Z.of_nat (List.length saved))
    by (rewrite length_app, repeat_length; unfold sizeof_Header; lia).
  reflexivity.
Qed.



End RoundTrip.

(** ** The cache file *)

Section CacheProperties.

Variable save_PNG : QImage -> list byte.
Variable loadFromData_PNG : list byte -> option QImage.
Variable XXH32 : list byte -> Z.

Local Abbreviation serialize' := (serialize save_PNG XXH32).
Local Abbreviation FromSerialized' := (FromSerialized loadFromData_PNG XXH32).
Local Abbreviation ReadDefaultMask' := (ReadDefaultMask loadFromData_PNG XXH32).
Local Abbreviation WriteDefaultMask' := (WriteDefaultMask save_PNG XXH32).

Lemma FromSerialized_never_aborts data validator :
  FromSerialized' data validator <> Aborted.
Proof.
  unfold FromSerialized.
  destruct (Z.leb_spec (Z.of_nat (List.length data)) sizeof_Header) as [|Hlong];
    [discriminate|].
  match goal with
  | |- context [if ?b then Returned None else _] => destruct b eqn:Erejected
  end; [discriminate|].
  apply (header_checks XXH32 data validator Hlong) in Erejected.
  destruct Erejected as (_ & Hc & Hf & Hd & _).
  match goal with
  | |- context [loadFromData_PNG ?payload] =>
      destruct (loadFromData_PNG payload) as [grayscale|]
  end; [|discriminate].
  destruct (Format_eqb (format grayscale) Format_Grayscale8); [|discriminate].
  cbn [negb].
  match goal with
  | |- context [QSize_eqb ?a ?b] => destruct (QSize_eqb a b) eqn:Esize
  end; [|discriminate].
  cbn [negb].
  unfold QSize_eqb, QSize_scale in Esize. cbn [size_width size_height] in Esize.
  apply andb_true_iff in Esize as [Hw Hh]. apply Z.eqb_eq in Hw, Hh.
  rewrite bytesPerLine_words. cbn [bind].
  rewrite SpoilerMessCached_ctor_succeeds; [discriminate | assumption ..].
Qed.

(** C8. [ReadDefaultMask] reads no file larger than 5 MiB: for such a file
    it reads nothing and returns no mask.  [WriteDefaultMask] writes no
    data larger than 5 MiB.  A missing folder, a file that does not open,
    a file that is too large or does not decode give the reader no mask
    and never end the process; the writer returns normally whatever the
    disk refuses, for every mask that [serialize] accepts. *)
Theorem DefaultMask_cache_limits disk validator mask :
  (forall path data,
     In (ReadAll path data) (fst (ReadDefaultMask loadFromData_PNG XXH32 disk validator)) ->
     Z.of_nat (List.length data) <= 5 * 1024 * 1024)
  /\ (forall file,
        open_ReadOnly disk (DefaultMaskCachePath (DefaultMaskCacheFolder disk))
        = Some file ->
        5 * 1024 * 1024 < Z.of_nat (List.length file) ->
        ReadDefaultMask loadFromData_PNG XXH32 disk validator = ([], Returned None))
  /\ (open_ReadOnly disk (DefaultMaskCachePath (DefaultMaskCacheFolder disk)) = None ->
      ReadDefaultMask loadFromData_PNG XXH32 disk validator = ([], Returned None))
  /\ (emojiCacheFolder disk = EmptyString ->
      ReadDefaultMask loadFromData_PNG XXH32 disk validator = ([], Returned None))
  /\ snd (ReadDefaultMask loadFromData_PNG XXH32 disk validator) <> Aborted
  /\ (forall path data,
        In (Write path data) (fst (WriteDefaultMask save_PNG XXH32 disk mask)) ->
        serialize save_PNG XXH32 mask = Returned data
        /\ Z.of_nat (List.length data) <= 5 * 1024 * 1024)
  /\ (serialize save_PNG XXH32 mask <> Aborted ->
      snd (WriteDefaultMask save_PNG XXH32 disk mask) = Returned tt)
  /\ (mkpath disk (DefaultMaskCacheFolder disk) = false ->
      WriteDefaultMask save_PNG XXH32 disk mask = ([], Returned tt)).
Proof.
  change (5 * 1024 * 1024) with kMaxCacheSize.
  unfold ReadDefaultMask, WriteDefaultMask.
  repeat apply conj.
  - intros path data.
    destruct (isEmpty (DefaultMaskCacheFolder disk)); [intros []|].
    destruct (open_ReadOnly disk _) as [file|]; [|intros []].
    destruct (Z.leb_spec (Z.of_nat (List.length file)) kMaxCacheSize) as [Hfits|];
      [|intros []].
    intros [[= _ <-] | []]. exact Hfits.
  - intros file -> Hlarge.
    destruct (isEmpty (DefaultMaskCacheFolder disk)); [reflexivity|].
    destruct (Z.leb_spec (Z.of_nat (List.length file)) kMaxCacheSize); [lia|].
    reflexivity.
  - intros ->. destruct (isEmpty (DefaultMaskCacheFolder disk)); reflexivity.
  - intros Hnone. unfold DefaultMaskCacheFolder. rewrite Hnone. reflexivity.
  - destruct (isEmpty (DefaultMaskCacheFolder disk)); [discriminate|].
    destruct (open_ReadOnly disk _) as [file|]; [|discriminate].
    destruct (Z.of_nat (List.length file) <=? kMaxCacheSize); [|discriminate].
    apply FromSerialized_never_aborts.
  - intros path data.
    destruct (mkpath disk (DefaultMaskCacheFolder disk)); [|intros []].
    cbn [negb]. destruct (serialize' mask) as [|bytes].
    { intros [[=] | []]. }
    destruct (may_write disk _); [|intros [[=] | []]].
    destruct (Z.leb_spec (Z.of_nat (List.length bytes)) kMaxCacheSize) as [Hfits|].
    + intros [[=] | [[=] | [[= _ <-] | []]]]. split; [reflexivity | exact Hfits].
    + intros [[=] | [[=] | []]].
  - intros Hserialized.
    destruct (mkpath disk (DefaultMaskCacheFolder disk)); [|reflexivity].
    cbn [negb]. destruct (serialize' mask) as [|bytes]; [congruence|].
    destruct (may_write disk _); [|reflexivity].
    destruct (Z.of_nat (List.length bytes) <=? kMaxCacheSize); reflexivity.
  - intros ->. reflexivity.
Qed.

End CacheProperties.

(** ** The properties on the stand-ins *)




Lemma particle_start_offsets_witness :
  exists particles random',
    generate_particles Sample.BufferedRandom Sample.RandomIndex
      Sample.descriptor 2 0 7 = Returned (particles, random')
    /\ Particle.start (nth 1 particles null_particle) = 1 * 4 * 10 / 2.
Proof.
  destruct (particle_start_offsets Sample.BufferedRandom Sample.RandomIndex
              Sample_RandomIndex_positive Sample.descriptor 7
              Sample_descriptor_valid
              ltac:(unfold in_int32, int32_max; simpl; lia)
              ltac:(unfold in_int64; simpl; lia))
    as (particles & random' & Hgen & _ & Hstart).
  exists particles, random'. split; [exact Hgen|].
  exact (proj1 (Hstart 1 ltac:(simpl; lia))).
Defined.

(** *** C4 on a long animation with many particles *)

(** A valid descriptor of 40000 particles and 100000 frames of one
    millisecond, on a canvas of one pixel. *)
Definition crowded_descriptor : SpoilerMessDescriptor :=
  {| particleFadeInDuration := 1;
     particleShownDuration := 1;
     particleFadeOutDuration := 1;
     particleSizeMin := 1;
     particleSizeMax := 1;
     particleSpritesCount := 1;
     particlesCount := 40000;
     canvasSize := 1;
     framesCount := 100000;
     frameDuration := 1 |}.

(** C4.  On this descriptor the code departs from the start offset
    [i·F·D/N].  Every field is inside its type and the generation returns
    its atlas, 10 pixels wide and 10000 high; but the product
    [30000 * 100000] of two [int]s leaves [int] before it is widened to
    [crl::time], and particle 30000 starts at -32374 instead of
    [30000·100000·1/40000 = 75000], outside [[0, F·D)]. *)
Theorem GenerateParticle_start_overflows :
  let d := crowded_descriptor in
  ValidDescriptor d
  /\ in_int32 (particlesCount d) /\ in_int32 (framesCount d)
  /\ in_int64 (frameDuration d)
  /\ (exists mask, Sample.GenerateSpoilerMess d = Returned mask)
  /\ (exists particles random',
        generate_particles Sample.BufferedRandom Sample.RandomIndex d
          (Z.to_nat (particlesCount d)) 0
          (Sample.BufferedRandom_ctor (to_int32 (particlesCount d * 3)))
        = Returned (particles, random')
        /\ Particle.start (nth (Z.to_nat 30000) particles null_particle) = -32374)
  /\ 30000 * framesCount d * frameDuration d / particlesCount d = 75000
  /\ forall BufferedRandom RandomIndex random particle random',
       GenerateParticle BufferedRandom RandomIndex d 30000 random
       = Returned (particle, random') ->
       Particle.start particle = -32374.
Proof.
  intros d.
  assert (Hvalid : ValidDescriptor d)
    by (constructor; simpl; try lia; [reflexivity | discriminate]).
  split; [exact Hvalid|].
  split; [unfold in_int32, int32_max; simpl; lia|].
  split; [unfold in_int32, int32_max; simpl; lia|].
  split; [unfold in_int64; simpl; lia|].
  split; [|split; [|split]].
  - destruct (GenerateSpoilerMess_succeeds
                Sample.BufferedRandom Sample.BufferedRandom_ctor Sample.RandomIndex
                Sample.drawRoundedRect Sample.drawPixel Sample.QImage_fits
                Sample_RandomIndex_positive d
                ltac:(vm_compute; reflexivity) ltac:(simpl; lia)
                ltac:(unfold in_int32, int32_max; vm_compute; split; discriminate)
                ltac:(unfold in_int32, int32_max; vm_compute; split; discriminate)
                ltac:(unfold in_int32, int32_max; vm_compute; split; discriminate)
                ltac:(vm_compute; reflexivity))
      as (particles & sprites & _ & Hrun).
    eexists. exact Hrun.
  - destruct (generate_particles_succeeds
                Sample.BufferedRandom Sample.RandomIndex
                Sample_RandomIndex_positive d (Z.to_nat (particlesCount d)) 0
                (Sample.BufferedRandom_ctor (to_int32 (particlesCount d * 3)))
                ltac:(simpl; lia) ltac:(simpl; lia))
      as (particles & random' & Hgen & _ & Hstart).
    exists particles, random'. split; [exact Hgen|].
    destruct (Hstart (Z.to_nat 30000)
                ltac:(unfold d, crowded_descriptor; cbn [particlesCount]; lia))
      as [-> _].
    rewrite Z2Nat.id by lia. vm_compute. reflexivity.
  - vm_compute. reflexivity.
  - intros BufferedRandom RandomIndex random particle random' H.
    unfold GenerateParticle in H.
    apply bind_Returned in H as ([s r1] & _ & H).
    apply bind_Returned in H as ([x r2] & _ & H).
    apply bind_Returned in H as ([y r3] & _ & H).
    injection H as <- _. vm_compute. reflexivity.
Qed.

(** *** C3 *)







(** *** C5 *)

(** A descriptor whose fades last [2^62] milliseconds each: the lifetime of
    a particle is beyond [crl::time] and far above the timeline. *)
Definition ancient_descriptor : SpoilerMessDescriptor :=
  {| particleFadeInDuration := 4611686018427387904;
     particleShownDuration := 4611686018427387904;
     particleFadeOutDuration := 4611686018427387904;
     particleSizeMin := 3 # 2;
     particleSizeMax := 2;
     particleSpritesCount := 5;
     particlesCount := 2;
     canvasSize := 3;
     framesCount := 4;
     frameDuration := 10 |}.

(** C5, as the specification states it, fails: a descriptor whose shown
    duration is not positive violates the stated invariants, and
    [GenerateSpoilerMess] returns its atlas; so it does for a descriptor
    whose timeline does not exceed a lifetime that is beyond [crl::time]. *)
Lemma GenerateSpoilerMess_accepts_zero_shown_duration :
  (particleShownDuration default_descriptor <= 0
   /\ ~ ValidDescriptor default_descriptor
   /\ exists mask, Sample.GenerateSpoilerMess default_descriptor = Returned mask)
  /\ (framesCount ancient_descriptor * frameDuration ancient_descriptor
      <= particleFadeInDuration ancient_descriptor
         + particleShownDuration ancient_descriptor
         + particleFadeOutDuration ancient_descriptor
      /\ in_int64 (particleFadeInDuration ancient_descriptor)
      /\ in_int64 (particleShownDuration ancient_descriptor)
      /\ in_int64 (particleFadeOutDuration ancient_descriptor)
      /\ ~ ValidDescriptor ancient_descriptor
      /\ exists mask, Sample.GenerateSpoilerMess ancient_descriptor = Returned mask).
Proof.
  split.
  - split; [simpl; lia|]. split.
    + intros [_ _ _ _ _ _ Hshown _ _ _ _]. simpl in Hshown. lia.
    + destruct (GenerateSpoilerMess_succeeds
                  Sample.BufferedRandom Sample.BufferedRandom_ctor Sample.RandomIndex
                  Sample.drawRoundedRect Sample.drawPixel Sample.QImage_fits
                  Sample_RandomIndex_positive default_descriptor
                  ltac:(vm_compute; reflexivity) ltac:(simpl; lia)
                  ltac:(unfold in_int32, int32_max; vm_compute; split; discriminate)
                  ltac:(unfold in_int32, int32_max; vm_compute; split; discriminate)
                  ltac:(unfold in_int32, int32_max; vm_compute; split; discriminate)
                  ltac:(vm_compute; reflexivity))
        as (particles & sprites & _ & Hrun).
      eexists. exact Hrun.
  - split; [simpl; lia|].
    split; [unfold in_int64; simpl; lia|].
    split; [unfold in_int64; simpl; lia|].
    split; [unfold in_int64; simpl; lia|].
    split.
    + intros [_ _ _ _ _ _ _ _ _ _ Htime]. simpl in Htime. lia.
    + eexists. vm_compute. reflexivity.
Qed.

Lemma GenerateSpoilerMess_aborts_on_violation_witness :
  Sample.GenerateSpoilerMess
    {| particleFadeInDuration := 5;
       particleShownDuration := 5;
       particleFadeOutDuration := 5;
       particleSizeMin := 1;
       particleSizeMax := 2;
       particleSpritesCount := 0;
       particlesCount := 2;
       canvasSize := 3;
       framesCount := 4;
       frameDuration := 10 |} = Aborted.
Proof.
  apply (GenerateSpoilerMess_aborts_on_violation
           Sample.BufferedRandom Sample.BufferedRandom_ctor Sample.RandomIndex
           Sample.drawRoundedRect Sample.drawPixel Sample.QImage_fits
           Sample_RandomIndex_nonpositive _).
  do 4 right. left. simpl. lia.
Defined.

(** *** C1 *)


(** The atlas of [Sample.descriptor]. *)
Definition sample_mask : SpoilerMessCached :=
  {| _image :=
       {| format := Format_ARGB32_Premultiplied;
          width := 12;
          height := 3;
          bits := List.concat (repeat
            [0; 0; 0; 4294967295; 4294967295; 4294967295;
             0; 0; 0; 4294967295; 4294967295; 4294967295] 3) |};
     _frameDuration := 10;
     _framesCount := 4;
     _canvasSize := 3 |}.


(** * Further properties *)

(** ** The opacity of a particle *)

(** *** Powers of two *)

Lemma pow2_pos e : (0 < 2 ^ e)%Q.
Proof. apply Qpower_0_lt. reflexivity. Qed.

Lemma pow2_plus a b : (2 ^ (a + b) == 2 ^ a * 2 ^ b)%Q.
Proof. apply Qpower_plus. discriminate. Qed.

Lemma pow2_le a b : a <= b -> (2 ^ a <= 2 ^ b)%Q.
Proof. intros H. apply Qpower_le_compat_l; [exact H | discriminate]. Qed.

Lemma pow2_lt a b : a < b -> (2 ^ a < 2 ^ b)%Q.
Proof. intros H. apply Qpower_lt_compat_l; [exact H | reflexivity]. Qed.

Lemma pow2_lt_inv a b : (2 ^ a < 2 ^ b)%Q -> a < b.
Proof. intros H. apply (Qpower_lt_compat_l_inv 2); [exact H | reflexivity]. Qed.

Lemma pow2_inject e : 0 <= e -> (inject_Z (2 ^ e) == 2 ^ e)%Q.
Proof. intros H. apply (Zpower_Qpower 2 e H). Qed.

Lemma log2_Q n : 0 < n -> (2 ^ Z.log2 n <= inject_Z n)%Q /\ (inject_Z n < 2 ^ (Z.log2 n + 1))%Q.
Proof.
  intros H. destruct (Z.log2_spec n H) as [Hlow Hhigh].
  pose proof (Z.log2_nonneg n) as Hnn.
  split.
  - rewrite <- pow2_inject by lia. rewrite <- Zle_Qle. exact Hlow.
  - rewrite <- pow2_inject by lia. rewrite <- Zlt_Qlt.
    replace (Z.log2 n + 1) with (Z.succ (Z.log2 n)) by lia. exact Hhigh.
Qed.

Lemma Qlog2_spec q :
  (0 < q)%Q -> (2 ^ Qlog2 q <= q)%Q /\ (q < 2 ^ (Qlog2 q + 1))%Q.
Proof.
  intros Hq. unfold Qlog2.
  destruct q as [n d]. cbn [Qnum Qden].
  assert (Hn : 0 < n) by (unfold Qlt in Hq; simpl in Hq; lia).
  destruct (log2_Q n Hn) as [Hn1 Hn2].
  destruct (log2_Q (Zpos d) ltac:(lia)) as [Hd1 Hd2].
  set (ln := Z.log2 n) in *. set (ld := Z.log2 (Zpos d)) in *.
  assert (Hnd : (n # d == inject_Z n / inject_Z (Zpos d))%Q) by apply Qmake_Qdiv.
  assert (Hdpos : (0 < inject_Z (Zpos d))%Q) by reflexivity.
  assert (Hlow : (2 ^ (ln - ld - 1) < n # d)%Q).
  { rewrite Hnd. apply Qlt_shift_div_l; [exact Hdpos|].
    apply Qlt_le_trans with (2 ^ (ln - ld - 1) * 2 ^ (ld + 1))%Q.
    - apply Qmult_lt_l; [apply pow2_pos | exact Hd2].
    - rewrite <- pow2_plus. replace (ln - ld - 1 + (ld + 1)) with ln by lia.
      exact Hn1. }
  assert (Hhigh : (n # d < 2 ^ (ln - ld + 1))%Q).
  { rewrite Hnd. apply Qlt_shift_div_r; [exact Hdpos|].
    apply Qlt_le_trans with (2 ^ (ln + 1))%Q; [exact Hn2|].
    replace (ln + 1) with (ln - ld + 1 + ld) by lia. rewrite pow2_plus.
    apply Qmult_le_l; [apply pow2_pos | exact Hd1]. }
  destruct (Qle_bool (2 ^ (ln - ld)) (n # d)) eqn:E.
  - apply Qle_bool_iff in E. split; assumption.
  - split.
    + apply Qlt_le_weak. exact Hlow.
    + replace (ln - ld - 1 + 1) with (ln - ld) by lia.
      apply Qnot_le_lt. intros H. apply Qle_bool_iff in H. congruence.
Qed.

Lemma Qlog2_unique q b :
  (2 ^ b <= q)%Q -> (q < 2 ^ (b + 1))%Q -> Qlog2 q = b.
Proof.
  intros Hlow Hhigh.
  assert (Hq : (0 < q)%Q) by (apply Qlt_le_trans with (2 ^ b)%Q; [apply pow2_pos | exact Hlow]).
  destruct (Qlog2_spec q Hq) as [Hlow' Hhigh'].
  assert (b < Qlog2 q + 1).
  { apply pow2_lt_inv. apply Qle_lt_trans with q; assumption. }
  assert (Qlog2 q < b + 1).
  { apply pow2_lt_inv. apply Qle_lt_trans with q; assumption. }
  lia.
Qed.

Lemma Qlog2_le q1 q2 : (0 < q1)%Q -> (q1 <= q2)%Q -> Qlog2 q1 <= Qlog2 q2.
Proof.
  intros H1 H12.
  assert (H2 : (0 < q2)%Q) by (apply Qlt_le_trans with q1; assumption).
  destruct (Qlog2_spec q1 H1) as [Hlow1 _].
  destruct (Qlog2_spec q2 H2) as [_ Hhigh2].
  assert (Qlog2 q1 < Qlog2 q2 + 1); [|lia].
  apply pow2_lt_inv. apply Qle_lt_trans with q1; [exact Hlow1|].
  apply Qle_lt_trans with q2; assumption.
Qed.

(** *** Rounding to an integer *)

Lemma round_half_even_bounds x :
  Qfloor x <= round_half_even x <= Qfloor x + 1.
Proof.
  unfold round_half_even.
  destruct (x - inject_Z (Qfloor x) ?= 1 # 2)%Q; [destruct (Z.even (Qfloor x))| |]; lia.
Qed.

Lemma round_half_even_Z z : round_half_even (inject_Z z) = z.
Proof.
  unfold round_half_even. rewrite Qfloor_Z.
  assert (H : (inject_Z z - inject_Z z ?= 1 # 2)%Q = Lt).
  { apply Qlt_alt. setoid_replace (inject_Z z - inject_Z z)%Q with 0%Q by ring. reflexivity. }
  rewrite H. reflexivity.
Qed.

Lemma round_half_even_comp x y : (x == y)%Q -> round_half_even x = round_half_even y.
Proof.
  intros H. unfold round_half_even. rewrite (Qfloor_comp x y H).
  assert (E : (x - inject_Z (Qfloor y) == y - inject_Z (Qfloor y))%Q) by (rewrite H; reflexivity).
  rewrite (Qcompare_comp _ _ E (1 # 2) (1 # 2) (Qeq_refl _)). reflexivity.
Qed.

Lemma round_half_even_le x y : (x <= y)%Q -> round_half_even x <= round_half_even y.
Proof.
  intros H. pose proof (Qfloor_resp_le x y H) as Hfloor.
  pose proof (round_half_even_bounds x) as Hx.
  pose proof (round_half_even_bounds y) as Hy.
  destruct (Z.eq_dec (Qfloor x) (Qfloor y)) as [E | E]; [|lia].
  unfold round_half_even. rewrite E.
  assert (Hfrac : (x - inject_Z (Qfloor y) <= y - inject_Z (Qfloor y))%Q).
  { unfold Qminus. apply Qplus_le_compat; [exact H | apply Qle_refl]. }
  destruct (Qcompare_spec (x - inject_Z (Qfloor y)) (1 # 2)) as [Ex | Ex | Ex];
    destruct (Qcompare_spec (y - inject_Z (Qfloor y)) (1 # 2)) as [Ey | Ey | Ey];
    try lia; try (destruct (Z.even (Qfloor y)); lia).
  - exfalso. rewrite Ex in Hfrac. exact (Qlt_not_le _ _ Ey Hfrac).
  - exfalso. rewrite Ey in Hfrac. exact (Qlt_not_le _ _ Ex Hfrac).
  - exfalso. apply (Qlt_not_le _ _ Ey). apply Qle_trans with (x - inject_Z (Qfloor y))%Q;
      [apply Qlt_le_weak; exact Ex | exact Hfrac].
Qed.

(** *** Rounding to a [float64] *)

Lemma Qabs_positive q : (0 < q)%Q -> Qabs q = q.
Proof.
  destruct q as [n d]. unfold Qlt. simpl. intros H.
  rewrite Z.abs_eq by lia. reflexivity.
Qed.

Lemma round64_positive q :
  (0 < q)%Q ->
  round64 q
  = (inject_Z (round_half_even (q / 2 ^ Z.max (Qlog2 q - 52) (-1074)))
     * 2 ^ Z.max (Qlog2 q - 52) (-1074))%Q.
Proof.
  intros H. unfold round64.
  destruct (Qeq_bool q 0) eqn:E.
  - apply Qeq_bool_iff in E. rewrite E in H. discriminate H.
  - rewrite Qabs_positive by exact H. reflexivity.
Qed.

Lemma scaled_bounds q e :
  (2 ^ (e + 52) <= q)%Q -> (q < 2 ^ (e + 53))%Q ->
  2 ^ 52 <= round_half_even (q / 2 ^ e) <= 2 ^ 53.
Proof.
  intros Hlow Hhigh.
  assert (Hlow' : (inject_Z (2 ^ 52) <= q / 2 ^ e)%Q).
  { apply Qle_shift_div_l; [apply pow2_pos|].
    rewrite pow2_inject by lia. rewrite <- pow2_plus.
    replace (52 + e) with (e + 52) by lia. exact Hlow. }
  assert (Hhigh' : (q / 2 ^ e < inject_Z (2 ^ 53))%Q).
  { apply Qlt_shift_div_r; [apply pow2_pos|].
    rewrite pow2_inject by lia. rewrite <- pow2_plus.
    replace (53 + e) with (e + 53) by lia. exact Hhigh. }
  pose proof (round_half_even_bounds (q / 2 ^ e)) as Hround.
  assert (2 ^ 52 <= Qfloor (q / 2 ^ e)).
  { rewrite <- (Qfloor_Z (2 ^ 52)). apply Qfloor_resp_le. exact Hlow'. }
  assert (Qfloor (q / 2 ^ e) < 2 ^ 53).
  { rewrite Zlt_Qlt. apply Qle_lt_trans with (q / 2 ^ e)%Q; [apply Qfloor_le | exact Hhigh']. }
  lia.
Qed.

(** The float64 nearest to a positive rational of the normal range lies in
    the binade of the rational, its ends included. *)
Lemma round64_bounds q :
  (0 < q)%Q -> -1022 <= Qlog2 q ->
  (2 ^ Qlog2 q <= round64 q)%Q /\ (round64 q <= 2 ^ (Qlog2 q + 1))%Q.
Proof.
  intros Hq Hnormal. rewrite round64_positive by exact Hq.
  rewrite Z.max_l by lia.
  destruct (Qlog2_spec q Hq) as [Hlow Hhigh].
  set (b := Qlog2 q) in *.
  destruct (scaled_bounds q (b - 52)) as [Hm1 Hm2].
  { replace (b - 52 + 52) with b by lia. exact Hlow. }
  { replace (b - 52 + 53) with (b + 1) by lia. exact Hhigh. }
  split.
  - replace b with (52 + (b - 52)) at 1 by lia. rewrite pow2_plus.
    apply Qmult_le_compat_r; [|apply Qlt_le_weak, pow2_pos].
    rewrite <- (pow2_inject 52) by lia. rewrite <- Zle_Qle. exact Hm1.
  - replace (b + 1) with (53 + (b - 52)) by lia. rewrite pow2_plus.
    apply Qmult_le_compat_r; [|apply Qlt_le_weak, pow2_pos].
    rewrite <- (pow2_inject 53) by lia. rewrite <- Zle_Qle. exact Hm2.
Qed.

(** Rounding keeps the order. *)
Lemma round64_le q1 q2 :
  (0 < q1)%Q -> (q1 <= q2)%Q -> -1022 <= Qlog2 q1 ->
  (round64 q1 <= round64 q2)%Q.
Proof.
  intros H1 H12 Hnormal.
  assert (H2 : (0 < q2)%Q) by (apply Qlt_le_trans with q1; assumption).
  pose proof (Qlog2_le q1 q2 H1 H12) as Hlog.
  destruct (Z.eq_dec (Qlog2 q1) (Qlog2 q2)) as [E | E].
  - rewrite !round64_positive by assumption. rewrite <- E.
    apply Qmult_le_compat_r; [|apply Qlt_le_weak, pow2_pos].
    rewrite <- Zle_Qle. apply round_half_even_le.
    apply Qmult_le_compat_r; [exact H12|].
    apply Qlt_le_weak, Qinv_lt_0_compat, pow2_pos.
  - destruct (round64_bounds q1 H1 Hnormal) as [_ Hhigh1].
    destruct (round64_bounds q2 H2 ltac:(lia)) as [Hlow2 _].
    apply Qle_trans with (2 ^ (Qlog2 q1 + 1))%Q; [exact Hhigh1|].
    apply Qle_trans with (2 ^ Qlog2 q2)%Q; [|exact Hlow2].
    apply pow2_le. lia.
Qed.

Lemma round64_comp q1 q2 : (0 < q1)%Q -> (q1 == q2)%Q -> (round64 q1 == round64 q2)%Q.
Proof.
  intros H1 E.
  assert (H2 : (0 < q2)%Q) by (rewrite <- E; exact H1).
  assert (Hlog : Qlog2 q1 = Qlog2 q2).
  { destruct (Qlog2_spec q2 H2) as [Hlow Hhigh].
    apply Qlog2_unique; rewrite E; assumption. }
  rewrite !round64_positive by assumption. rewrite Hlog.
  rewrite (round_half_even_comp (q1 / _) (q2 / 2 ^ Z.max (Qlog2 q2 - 52) (-1074))).
  - reflexivity.
  - rewrite E. reflexivity.
Qed.

Lemma round64_le_1 q : (0 < q)%Q -> (q <= 1)%Q -> -1022 <= Qlog2 q -> (round64 q <= 1)%Q.
Proof.
  intros Hq H1 Hnormal.
  destruct (round64_bounds q Hq Hnormal) as [_ Hhigh].
  destruct (Qlog2_spec q Hq) as [Hlow _].
  destruct (Z_lt_le_dec (Qlog2 q) 0) as [Hneg | Hpos].
  - apply Qle_trans with (2 ^ (Qlog2 q + 1))%Q; [exact Hhigh|].
    change 1%Q with (2 ^ 0)%Q. apply pow2_le. lia.
  - assert (E : (q == 1)%Q).
    { apply Qle_antisym; [exact H1|].
      apply Qle_trans with (2 ^ Qlog2 q)%Q; [|exact Hlow].
      change 1%Q with (2 ^ 0)%Q. apply pow2_le. exact Hpos. }
    rewrite (round64_comp q 1 Hq E). vm_compute. discriminate.
Qed.

Lemma inject_Z_positive v : 0 < v -> (0 < inject_Z v)%Q.
Proof. intros H. unfold Qlt. simpl. lia. Qed.

Lemma inject_Z_above_1 v : 0 < v -> (2 ^ 0 <= inject_Z v)%Q.
Proof. intros H. unfold Qle. simpl. lia. Qed.

(** The conversion of a positive integer below 2^63. *)
Lemma float64_of_int_bounds v :
  0 < v < 2 ^ 63 ->
  (1 <= float64_of_int v)%Q /\ (float64_of_int v <= 2 ^ 63)%Q.
Proof.
  intros Hv. unfold float64_of_int.
  assert (Hq : (0 < inject_Z v)%Q) by (apply inject_Z_positive; lia).
  destruct (Qlog2_spec _ Hq) as [Hlow Hhigh].
  assert (Hlog : 0 <= Qlog2 (inject_Z v) < 63).
  { split.
    - assert (0 < Qlog2 (inject_Z v) + 1); [|lia].
      apply pow2_lt_inv. apply Qle_lt_trans with (inject_Z v); [|exact Hhigh].
      apply inject_Z_above_1. lia.
    - apply pow2_lt_inv. apply Qle_lt_trans with (inject_Z v); [exact Hlow|].
      rewrite <- pow2_inject by lia. rewrite <- Zlt_Qlt. lia. }
  destruct (round64_bounds _ Hq ltac:(lia)) as [Hlow' Hhigh'].
  split.
  - apply Qle_trans with (2 ^ Qlog2 (inject_Z v))%Q; [|exact Hlow'].
    change 1%Q with (2 ^ 0)%Q. apply pow2_le. lia.
  - apply Qle_trans with (2 ^ (Qlog2 (inject_Z v) + 1))%Q; [exact Hhigh'|].
    apply pow2_le. lia.
Qed.

Lemma float64_of_int_le a b :
  0 < a <= b -> (float64_of_int a <= float64_of_int b)%Q.
Proof.
  intros H. unfold float64_of_int.
  assert (Hq : (0 < inject_Z a)%Q) by (apply inject_Z_positive; lia).
  apply round64_le; [exact Hq | rewrite <- Zle_Qle; lia |].
  destruct (Qlog2_spec _ Hq) as [_ Hhigh].
  assert (0 < Qlog2 (inject_Z a) + 1); [|lia].
  apply pow2_lt_inv. apply Qle_lt_trans with (inject_Z a); [|exact Hhigh].
  apply inject_Z_above_1. lia.
Qed.

(** The quotient of two positive 64-bit integers, the smaller one above:
    a float64 above 0 and at most 1. *)
Lemma float64_div_ramp a b :
  0 < a <= b -> b < 2 ^ 63 ->
  let quotient := float64_div (float64_of_int a) (float64_of_int b) in
  (0 < quotient)%Q /\ (quotient <= 1)%Q.
Proof.
  intros Hab Hb quotient. unfold quotient, float64_div.
  destruct (float64_of_int_bounds a ltac:(lia)) as [Ha1 Ha2].
  destruct (float64_of_int_bounds b ltac:(lia)) as [Hb1 Hb2].
  pose proof (float64_of_int_le a b Hab) as Hle.
  set (x := float64_of_int a) in *. set (y := float64_of_int b) in *.
  assert (Hy : (0 < y)%Q) by (apply Qlt_le_trans with 1%Q; [reflexivity | exact Hb1]).
  assert (Hlow : (2 ^ (-63) <= x / y)%Q).
  { apply Qle_shift_div_l; [exact Hy|].
    apply Qle_trans with (2 ^ (-63) * 2 ^ 63)%Q.
    - apply Qmult_le_l; [apply pow2_pos | exact Hb2].
    - rewrite <- pow2_plus. exact Ha1. }
  assert (Hq : (0 < x / y)%Q)
    by (apply Qlt_le_trans with (2 ^ (-63))%Q; [apply pow2_pos | exact Hlow]).
  assert (Hhigh : (x / y <= 1)%Q).
  { apply Qle_shift_div_r; [exact Hy|]. rewrite Qmult_1_l. exact Hle. }
  assert (Hlog : -63 <= Qlog2 (x / y)).
  { destruct (Qlog2_spec _ Hq) as [_ H].
    assert (-63 < Qlog2 (x / y) + 1); [|lia].
    apply pow2_lt_inv. apply Qle_lt_trans with (x / y)%Q; assumption. }
  split.
  - destruct (round64_bounds _ Hq ltac:(lia)) as [H _].
    apply Qlt_le_trans with (2 ^ Qlog2 (x / y))%Q; [apply pow2_pos | exact H].
  - apply round64_le_1; [exact Hq | exact Hhigh | lia].
Qed.

(** X1. Inside its lifetime a particle is painted with an opacity above 0
    and at most 1, for fades inside [crl::time]; no division by a zero
    duration happens.  The opacity is the [float64] quotient of the time by
    the fade-in before the end of the fade-in, of the time left by the
    fade-out after the start of the fade-out, and 1 between the two. *)
Theorem paintOneAt_opacity c particle time :
  0 < time < singleDuration_ c ->
  let fadeIn := particleFadeInDuration (descriptor_ c) in
  let fadeOut := particleFadeOutDuration (descriptor_ c) in
  in_int64 fadeIn -> in_int64 fadeOut ->
  exists opacity rest,
    paintOneAt c particle time = SetOpacity opacity :: rest
    /\ (0 < opacity)%Q /\ (opacity <= 1)%Q
    /\ (time < fadeIn ->
        0 < fadeIn
        /\ opacity = float64_div (float64_of_int time) (float64_of_int fadeIn))
    /\ (fadeIn <= time -> singleDuration_ c - fadeOut < time ->
        0 < fadeOut
        /\ opacity = float64_div (float64_of_int (singleDuration_ c - time))
                                 (float64_of_int fadeOut))
    /\ (fadeIn <= time <= singleDuration_ c - fadeOut -> opacity = 1%Q).
Proof.
  intros Htime fadeIn fadeOut HfadeIn HfadeOut. unfold paintOneAt.
  destruct (Z.leb_spec time 0) as [|_]; [lia|].
  destruct (Z.leb_spec (singleDuration_ c) time) as [|_]; [lia|].
  cbn [orb]. fold fadeIn fadeOut.
  eexists _, _. split; [reflexivity|].
  unfold in_int64 in HfadeIn, HfadeOut.
  destruct (Z.ltb_spec time fadeIn) as [Hin | Hin].
  - destruct (float64_div_ramp time fadeIn ltac:(lia) ltac:(lia)) as [Hpos Hone].
    split; [exact Hpos|]. split; [exact Hone|].
    split; [intros _; split; [lia | reflexivity]|].
    split; intros; lia.
  - destruct (Z.ltb_spec (singleDuration_ c - fadeOut) time) as [Hout | Hout].
    + destruct (float64_div_ramp (singleDuration_ c - time) fadeOut
                  ltac:(lia) ltac:(lia)) as [Hpos Hone].
      split; [exact Hpos|]. split; [exact Hone|].
      split; [intros; lia|].
      split; [intros _ _; split; [lia | reflexivity] | intros; lia].
    + split; [reflexivity|]. split; [discriminate|].
      split; [intros; lia|]. split; [intros; lia | reflexivity].
Qed.

Lemma paintOneAt_opacity_witness :
  let c := {| descriptor_ := Sample.descriptor;
              sprites_ := [];
              spriteSize_ := 4;
              size_ := 10;
              singleDuration_ := 15;
              fullDuration_ := 40 |} in
  exists opacity rest,
    paintOneAt c (Particle.make 0 0 8 2) 12 = SetOpacity opacity :: rest
    /\ (0 < opacity)%Q /\ (opacity <= 1)%Q
    /\ opacity = float64_div (float64_of_int 3) (float64_of_int 5).
Proof.
  intros c.
  destruct (paintOneAt_opacity c (Particle.make 0 0 8 2) 12 ltac:(simpl; lia)
              ltac:(unfold in_int64; simpl; lia) ltac:(unfold in_int64; simpl; lia))
    as (opacity & rest & H & Hpos & Hone & _ & Hout & _).
  exists opacity, rest. repeat split; try assumption.
  exact (proj2 (Hout ltac:(simpl; lia) ltac:(simpl; lia))).
Defined.

(** The opacity of the witness is not the rational 3/5 but the [float64]
    next to it, 5404319552844595 / 2^53. *)
Lemma float64_three_fifths :
  (float64_div (float64_of_int 3) (float64_of_int 5)
   == 5404319552844595 # 9007199254740992)%Q
  /\ ~ (float64_div (float64_of_int 3) (float64_of_int 5) == 3 # 5)%Q.
Proof. split; vm_compute; congruence. Qed.

(** ** The loop in time *)

(** X2. For a sample time and a start inside the loop, a particle is
    painted at the phase [(now - start) mod fullDuration]: its life goes on
    from the end of the loop into its beginning. *)
Theorem paintOne_phase c particle now :
  singleDuration_ c <= fullDuration_ c ->
  0 <= now < fullDuration_ c ->
  0 <= Particle.start particle < fullDuration_ c ->
  paintOne c particle now
  = paintOneAt c particle ((now - Particle.start particle) mod fullDuration_ c).
Proof.
  intros Hlong Hnow Hstart. unfold paintOne.
  destruct (Z_le_gt_dec (Particle.start particle) now) as [Hle | Hgt].
  - rewrite Z.mod_small by lia.
    rewrite (paintOneAt_outside c particle
               (now + fullDuration_ c - Particle.start particle)) by lia.
    apply app_nil_r.
  - rewrite (paintOneAt_outside c particle (now - Particle.start particle)) by lia.
    replace ((now - Particle.start particle) mod fullDuration_ c)
      with (now + fullDuration_ c - Particle.start particle); [reflexivity|].
    apply Z.mod_unique with (q := -1); lia.
Qed.

Lemma paintOne_phase_witness :
  let c := {| descriptor_ := Sample.descriptor;
              sprites_ := [];
              spriteSize_ := 4;
              size_ := 10;
              singleDuration_ := 15;
              fullDuration_ := 40 |} in
  paintOne c (Particle.make 30 0 8 2) 0 = paintOneAt c (Particle.make 30 0 8 2) 10.
Proof.
  intros c.
  exact (paintOne_phase c (Particle.make 30 0 8 2) 0
           ltac:(simpl; lia) ltac:(simpl; lia) ltac:(simpl; lia)).
Defined.

(** ** The tile as a torus *)

(** The positions at which a list of commands draws. *)
Fixpoint drawn_at (commands : list PaintCommand) : list (Z * Z) :=
  match commands with
  | [] => []
  | DrawImage x y _ :: rest => (x, y) :: drawn_at rest
  | _ :: rest => drawn_at rest
  end.

(** A sprite at [(x, y)] covers a pixel of the tile. *)
Definition meets_tile (size spriteSize x y : Z) : Prop :=
  x < size /\ 0 < x + spriteSize /\ y < size /\ 0 < y + spriteSize.

(** X3. For a particle inside its tile and a sprite not larger than the
    tile, the copies that [paintOneAt] draws are the translates of the
    sprite by whole tiles that meet the tile, all of them and no other. *)
Theorem paintOneAt_covers_torus c particle time k l :
  0 < time < singleDuration_ c ->
  0 < spriteSize_ c <= size_ c ->
  0 <= Particle.x particle < size_ c ->
  0 <= Particle.y particle < size_ c ->
  In (Particle.x particle + k * size_ c, Particle.y particle + l * size_ c)
     (drawn_at (paintOneAt c particle time))
  <-> meets_tile (size_ c) (spriteSize_ c)
        (Particle.x particle + k * size_ c) (Particle.y particle + l * size_ c).
Proof.
  intros Htime Hsprite Hx Hy. unfold paintOneAt, meets_tile.
  destruct (Z.leb_spec time 0) as [|_]; [lia|].
  destruct (Z.leb_spec (singleDuration_ c) time) as [|_]; [lia|].
  cbn [orb].
  set (x := Particle.x particle) in *. set (y := Particle.y particle) in *.
  set (size := size_ c) in *. set (spriteSize := spriteSize_ c) in *.
  assert (Hk : k <= -2 \/ k = -1 \/ k = 0 \/ 1 <= k) by lia.
  assert (Hl : l <= -2 \/ l = -1 \/ l = 0 \/ 1 <= l) by lia.
  destruct (Z.ltb_spec size (x + spriteSize)) as [Hright | Hright],
    (Z.ltb_spec size (y + spriteSize)) as [Hbottom | Hbottom];
    cbn [drawn_at In]; split.
  all: try (intros [H | H]; [injection H as H1 H2|]).
  all: try (destruct H as [H | H]; [injection H as H1 H2|]).
  all: try (destruct H as [H | H]; [injection H as H1 H2|]).
  all: try (destruct H as [H | H]; [injection H as H1 H2|]).
  all: try contradiction.
  all: try (repeat split; nia).
  all: intros (H1 & H2 & H3 & H4).
  all: assert (Hk' : k = 0 \/ k = -1) by nia.
  all: assert (Hl' : l = 0 \/ l = -1) by nia.
  all: destruct Hk' as [-> | ->], Hl' as [-> | ->]; try lia.
  all: repeat (first [left; f_equal; lia | right]).
Qed.

Lemma paintOneAt_covers_torus_witness :
  let c := {| descriptor_ := Sample.descriptor;
              sprites_ := [];
              spriteSize_ := 4;
              size_ := 10;
              singleDuration_ := 15;
              fullDuration_ := 40 |} in
  In (8 + -1 * 10, 2 + 0 * 10) (drawn_at (paintOneAt c (Particle.make 0 0 8 2) 7))
  <-> meets_tile 10 4 (8 + -1 * 10) (2 + 0 * 10).
Proof.
  intros c.
  exact (paintOneAt_covers_torus c (Particle.make 0 0 8 2) 7 (-1) 0
           ltac:(simpl; lia) ltac:(simpl; lia) ltac:(simpl; lia) ltac:(simpl; lia)).
Defined.

(** ** The frames of the atlas *)

(** The tile of frame [f]. *)
Definition tile_rect (size f : Z) : QRect :=
  {| rect_x := (f mod 10) * size;
     rect_y := (f / 10) * size;
     rect_width := size;
     rect_height := size |}.

(** What one turn of the inner loop paints when it renders frame [f]. *)
Definition paint_frame (c : Captured) (particles : list Particle.t) (f : Z)
    : list PaintCommand :=
  let rect := tile_rect (size_ c) f in
  SetClipRect rect
  :: Translate (rect_x rect) (rect_y rect)
  :: paint_particles c particles (Z.to_nat (particlesCount (descriptor_ c))) 0
       (f * frameDuration (descriptor_ c))
  ++ [Translate (- rect_x rect) (- rect_y rect)].







(** The rectangle that the accessor gives for a frame is the tile the
    frame was painted in. *)
Lemma frame_at_tile mask index :
  0 <= index ->
  source (frame_at mask index) = tile_rect (_canvasSize mask) index.
Proof.
  intros Hindex. unfold frame_at, tile_rect, kFramesPerRow. cbn [source].
  rewrite Z.quot_div_nonneg by lia. f_equal.
  rewrite Z.mod_eq by lia. f_equal. lia.
Qed.

(** ** More on the accessor *)

Definition disjoint (a b : QRect) : Prop :=
  rect_x a + rect_width a <= rect_x b
  \/ rect_x b + rect_width b <= rect_x a
  \/ rect_y a + rect_height a <= rect_y b
  \/ rect_y b + rect_height b <= rect_y a.

(** X5. The rectangle of a frame is the tile into which the generation
    clipped that frame, and the rectangles of two different frames do not
    overlap. *)
Theorem frame_at_painted_tile c particles mask i j :
  size_ c = _canvasSize mask ->
  0 < _canvasSize mask ->
  0 <= i < j ->
  (exists rest,
     paint_frame c particles i = SetClipRect (source (frame_at mask i)) :: rest)
  /\ disjoint (source (frame_at mask i)) (source (frame_at mask j)).
Proof.
  intros Hsize Hcs Hij. split.
  - unfold paint_frame. rewrite Hsize, <- frame_at_tile by lia.
    eexists. reflexivity.
  - rewrite !frame_at_tile by lia. unfold disjoint, tile_rect.
    cbn [rect_x rect_y rect_width rect_height].
    pose proof (Z.div_mod i 10 ltac:(lia)).
    pose proof (Z.div_mod j 10 ltac:(lia)).
    pose proof (Z.mod_pos_bound i 10 ltac:(lia)).
    pose proof (Z.mod_pos_bound j 10 ltac:(lia)).
    destruct (Z_lt_le_dec (i / 10) (j / 10)) as [Hrow | Hrow].
    + right. right. left. nia.
    + assert (i / 10 = j / 10) by (pose proof (Z.div_le_mono i j 10); lia).
      left. nia.
Qed.

Lemma frame_at_painted_tile_witness :
  disjoint (source (frame_at sample_mask 1)) (source (frame_at sample_mask 3)).
Proof.
  exact (proj2 (frame_at_painted_tile
                  {| descriptor_ := Sample.descriptor; sprites_ := [];
                     spriteSize_ := 4; size_ := 3;
                     singleDuration_ := 15; fullDuration_ := 40 |}
                  [] sample_mask 1 3 eq_refl ltac:(simpl; lia) ltac:(lia))).
Defined.

(** X6. The animation loops: the frame at a clock value is the frame one
    whole loop, [framesCount * frameDuration], later; and it stays the same
    frame from a multiple of the frame duration up to the next one. *)
Theorem frame_now_periodic image fc fd cs mask now k :
  SpoilerMessCached_ctor image fc fd cs = Returned mask ->
  0 <= now ->
  (frame_now mask (now + fc * fd) = frame_now mask now)
  /\ (0 <= k -> k * fd <= now < (k + 1) * fd ->
      frame_now mask now = frame_at mask (k mod fc)).
Proof.
  intros Hctor Hnow.
  apply SpoilerMessCached_ctor_Returned in Hctor as (Hfd & Hfc & _ & _ & _ & ->).
  unfold frame_now. cbn [_frameDuration _framesCount].
  assert (Hq : forall t, 0 <= t -> Z.rem (Z.quot t fd) fc = (t / fd) mod fc).
  { intros t Ht. rewrite Z.quot_div_nonneg by lia.
    apply Z.rem_mod_nonneg; [apply Z.div_pos; lia | lia]. }
  split.
  - rewrite !Hq by nia. f_equal.
    rewrite Z.div_add by lia. rewrite Z.add_mod, Z.mod_same by lia.
    rewrite Z.add_0_r, Z.mod_mod by lia. reflexivity.
  - intros Hk Hin. rewrite Hq by lia. do 2 f_equal.
    symmetry. apply Z.div_unique with (r := now - k * fd); lia.
Qed.

Lemma frame_now_periodic_witness :
  frame_now sample_mask (25 + 4 * 10) = frame_now sample_mask 25.
Proof.
  exact (proj1 (frame_now_periodic (_image sample_mask) 4 10 3 sample_mask 25 0
                  eq_refl ltac:(lia))).
Defined.

(** ** More on the serialized form *)

Lemma first_byte_mod pixel : first_byte pixel = pixel mod 256.
Proof.
  unfold first_byte. change 255 with (Z.ones 8). rewrite Z.land_ones by lia.
  reflexivity.
Qed.

Definition byte_checked (b : Z) : bool :=
  (replicate_byte b =? b * 16843009) && (first_byte (replicate_byte b) =? b).

Lemma byte_checked_all : forallb byte_checked (map Z.of_nat (seq 0 256)) = true.
Proof. vm_compute. reflexivity. Qed.

(** X7. A byte [b] of the grayscale image becomes the pixel whose four
    bytes are [b], the number [b * 0x01010101], an [uint32]; the byte that
    [serialize] keeps of that pixel is [b] again, so an asset that was
    decoded is encoded without loss. *)
Theorem replicate_byte_first_byte b :
  0 <= b < 256 ->
  replicate_byte b = b * 16843009
  /\ in_uint32 (replicate_byte b)
  /\ first_byte (replicate_byte b) = b
  /\ gray (replicate_byte b).
Proof.
  intros Hb.
  assert (Hin : In b (map Z.of_nat (seq 0 256))).
  { apply in_map_iff. exists (Z.to_nat b). split; [lia|].
    apply in_seq. lia. }
  pose proof (proj1 (forallb_forall _ _) byte_checked_all b Hin) as Hc.
  unfold byte_checked in Hc. apply andb_true_iff in Hc as [H1 H2].
  apply Z.eqb_eq in H1, H2.
  split; [exact H1|]. split; [rewrite H1; unfold in_uint32; lia|].
  split; [exact H2|]. unfold gray. rewrite H2. reflexivity.
Qed.

Lemma replicate_byte_first_byte_witness :
  replicate_byte 255 = 255 * 16843009 /\ first_byte (replicate_byte 255) = 255.
Proof.
  destruct (replicate_byte_first_byte 255 ltac:(lia)) as (H1 & _ & H2 & _).
  split; assumption.
Defined.

(** X8. A header survives the copy into the data and back: every field in
    the range of its type is read as it was written, whatever follows the
    24 bytes of the header. *)
Theorem Header_round_trip h rest :
  in_uint32 (Header.version h) ->
  in_uint32 (Header.dataLength h) ->
  in_uint32 (Header.dataHash h) ->
  in_int32 (Header.framesCount h) ->
  in_int32 (Header.canvasSize h) ->
  in_int32 (Header.frameDuration h) ->
  Header_read (Header_bytes h ++ rest) = h
  /\ Z.of_nat (List.length (Header_bytes h)) = sizeof_Header.
Proof.
  intros Hv Hl Hh Hf Hc Hd. split; [|reflexivity].
  rewrite Header_read_bytes, !wrap32_small, !to_int32_wrap32 by assumption.
  destruct h. reflexivity.
Qed.

Lemma Header_round_trip_witness :
  Header_read (Header_bytes (Header.make 1 38 4605 4 3 (-10)) ++ [x2a])
  = Header.make 1 38 4605 4 3 (-10).
Proof.
  apply (Header_round_trip (Header.make 1 38 4605 4 3 (-10)) [x2a]);
    unfold in_uint32, in_int32, int32_max; simpl; lia.
Defined.

Section SerializedData.

Variable save_PNG : QImage -> list byte.
Variable loadFromData_PNG : list byte -> option QImage.
Variable XXH32 : list byte -> Z.

(** The checksum is an [uint32]. *)
Hypothesis XXH32_in_uint32 : forall data, in_uint32 (XXH32 data).

Lemma serialize_Returned_inv mask data :
  serialize save_PNG XXH32 mask = Returned data ->
  _frameDuration mask < int32_max
  /\ exists h,
       data = Header_bytes h ++ save_PNG (grayscale_of (_image mask))
       /\ Header.version h = kVersion
       /\ Header.dataLength h
          = wrap32 (Z.of_nat (List.length (save_PNG (grayscale_of (_image mask)))))
       /\ Header.framesCount h = _framesCount mask
       /\ Header.canvasSize h = _canvasSize mask
       /\ Header.frameDuration h = to_int32 (_frameDuration mask).
Proof.
  intros Hdata.
  assert (Hread : grayscale_bits (_image mask) <> None).
  { intros E. unfold serialize in Hdata. rewrite E in Hdata.
    destruct (Expects _); discriminate. }
  destruct (Z_lt_le_dec (_frameDuration mask) int32_max) as [Hfd | Hfd].
  - split; [exact Hfd|].
    pose proof (serialize_Returned save_PNG XXH32 mask Hfd Hread) as Hs.
    cbv zeta in Hs.
    match type of Hs with
    | _ = Returned (Header_bytes ?h ++ _) => exists h
    end.
    split; [congruence|]. repeat split.
  - exfalso. unfold serialize in Hdata.
    destruct (Z.ltb_spec (_frameDuration mask) int32_max); [lia | discriminate].
Qed.

Lemma FromSerialized_unaccepted data validator :
  sizeof_Header < Z.of_nat (List.length data) ->
  ~ header_accepted XXH32 (Header_read data) validator (skipn 24 data) ->
  FromSerialized loadFromData_PNG XXH32 data validator = Returned None.
Proof.
  intros Hlong Hno. unfold FromSerialized.
  destruct (Z.leb_spec (Z.of_nat (List.length data)) sizeof_Header); [reflexivity|].
  match goal with
  | |- context [if ?b then Returned None else _] => destruct b eqn:Erejected
  end; [reflexivity|].
  apply (header_checks XXH32 data validator Hlong) in Erejected. contradiction.
Qed.

Lemma FromSerialized_short data validator :
  Z.of_nat (List.length data) <= sizeof_Header ->
  FromSerialized loadFromData_PNG XXH32 data validator = Returned None.
Proof.
  intros Hshort. unfold FromSerialized.
  destruct (Z.leb_spec (Z.of_nat (List.length data)) sizeof_Header);
    [reflexivity | lia].
Qed.

(** Data that starts with the header of a serialized asset and goes on with
    something of another length than the header declares is refused. *)
Lemma FromSerialized_other_length h rest validator :
  in_uint32 (Header.dataLength h) ->
  Z.of_nat (List.length rest) <> Header.dataLength h ->
  FromSerialized loadFromData_PNG XXH32 (Header_bytes h ++ rest) validator
  = Returned None.
Proof.
  intros Hrange Hlen.
  destruct (Z_le_gt_dec (Z.of_nat (List.length (Header_bytes h ++ rest))) sizeof_Header)
    as [Hshort | Hlong].
  - apply FromSerialized_short. exact Hshort.
  - apply FromSerialized_unaccepted; [lia|].
    rewrite Header_read_bytes. change (skipn 24 (Header_bytes h ++ rest)) with rest.
    intros (_ & _ & _ & _ & _ & Hdeclared & _).
    cbn [Header.dataLength] in Hdeclared.
    rewrite wrap32_small in Hdeclared by assumption. lia.
Qed.

(** X9. A serialized asset that lost its end, or got more bytes after its
    end, is refused: the header declares how many bytes follow it, and
    [FromSerialized] accepts no other number. *)
Theorem FromSerialized_rejects_other_lengths mask data data' validator :
  serialize save_PNG XXH32 mask = Returned data ->
  Z.of_nat (List.length (save_PNG (grayscale_of (_image mask)))) < 4294967296 ->
  (exists k, (k < List.length data)%nat /\ data' = firstn k data)
  \/ (exists extra, extra <> [] /\ data' = data ++ extra) ->
  FromSerialized loadFromData_PNG XXH32 data' validator = Returned None.
Proof.
  intros Hdata Hsaved Hother.
  apply serialize_Returned_inv in Hdata as (_ & h & -> & _ & Hlen & _).
  set (saved := save_PNG (grayscale_of (_image mask))) in *.
  rewrite wrap32_small in Hlen by (unfold in_uint32; lia).
  assert (Hrange : in_uint32 (Header.dataLength h))
    by (rewrite Hlen; unfold in_uint32; lia).
  destruct Hother as [(k & Hk & ->) | (extra & Hextra & ->)].
  - rewrite length_app, Header_bytes_length in Hk.
    destruct (Nat.le_gt_cases 24 k) as [Hhead | Hhead].
    + rewrite firstn_app, Header_bytes_length.
      rewrite firstn_all2 by (rewrite Header_bytes_length; exact Hhead).
      apply FromSerialized_other_length; [exact Hrange|].
      rewrite length_firstn. lia.
    + apply FromSerialized_short. rewrite length_firstn. unfold sizeof_Header. lia.
  - rewrite <- app_assoc.
    apply FromSerialized_other_length; [exact Hrange|].
    rewrite length_app. destruct extra; [contradiction | simpl; lia].
Qed.

(** X10. A serialized asset is refused under a validator that differs from
    it in the frame duration, the frame count or the canvas size. *)
Theorem FromSerialized_rejects_other_validator mask data v :
  serialize save_PNG XXH32 mask = Returned data ->
  0 < _frameDuration mask ->
  in_int32 (_framesCount mask) ->
  in_int32 (_canvasSize mask) ->
  Validator.frameDuration v <> _frameDuration mask
  \/ Validator.framesCount v <> _framesCount mask
  \/ Validator.canvasSize v <> _canvasSize mask ->
  FromSerialized loadFromData_PNG XXH32 data (Some v) = Returned None.
Proof.
  intros Hdata Hfd0 Hfc Hcs Hdiffers.
  apply serialize_Returned_inv in Hdata
    as (Hfd & h & -> & _ & _ & Hframes & Hcanvas & Hduration).
  set (saved := save_PNG (grayscale_of (_image mask))) in *.
  assert (Hfd32 : in_int32 (_frameDuration mask))
    by (unfold in_int32, int32_max in *; lia).
  destruct (Z_le_gt_dec (Z.of_nat (List.length (Header_bytes h ++ saved))) sizeof_Header)
    as [Hshort | Hlong].
  - apply FromSerialized_short. exact Hshort.
  - apply FromSerialized_unaccepted; [lia|].
    rewrite Header_read_bytes.
    intros (_ & _ & _ & _ & Hvalidator & _).
    destruct (Hvalidator v eq_refl) as (H1 & H2 & H3).
    cbn [Header.framesCount Header.canvasSize Header.frameDuration] in H1, H2, H3.
    rewrite Hframes in H2. rewrite Hcanvas in H3. rewrite Hduration in H1.
    rewrite (to_int32_small (_frameDuration mask)) in H1 by assumption.
    rewrite to_int32_wrap32 in H1, H2, H3 by assumption.
    tauto.
Qed.


End SerializedData.

Lemma FromSerialized_rejects_other_lengths_witness :
  exists data,
    Sample.serialize sample_mask = Returned data
    /\ Sample.FromSerialized (firstn 40 data) None = Returned None.
Proof.
  let r := eval vm_compute in (Sample.serialize sample_mask) in
  match r with
  | Returned ?d =>
      exists d;
      assert (Hs : Sample.serialize sample_mask = Returned d)
        by (vm_compute; reflexivity)
  end.
  split; [exact Hs|].
  apply (FromSerialized_rejects_other_lengths
           Sample.save_PNG Sample.loadFromData_PNG Sample.XXH32
           sample_mask _ _ None Hs);
    [vm_compute; reflexivity|].
  left. exists 40%nat. split; [vm_compute; lia | reflexivity].
Defined.

Lemma FromSerialized_rejects_other_validator_witness :
  exists data,
    Sample.serialize sample_mask = Returned data
    /\ Sample.FromSerialized data
         (Some {| Validator.frameDuration := 10;
                  Validator.framesCount := 4;
                  Validator.canvasSize := 6 |})
       = Returned None.
Proof.
  let r := eval vm_compute in (Sample.serialize sample_mask) in
  match r with
  | Returned ?d =>
      exists d;
      assert (Hs : Sample.serialize sample_mask = Returned d)
        by (vm_compute; reflexivity)
  end.
  split; [exact Hs|].
  apply (FromSerialized_rejects_other_validator
           Sample.save_PNG Sample.loadFromData_PNG Sample.XXH32
           sample_mask _ _ Hs);
    [simpl; lia
    | unfold in_int32, int32_max; simpl; lia
    | unfold in_int32, int32_max; simpl; lia
    | right; right; simpl; lia].
Defined.



(** ** More on the generation *)

Section GeneratedParticles.

Variable BufferedRandom : Type.
Variable RandomIndex : Z -> BufferedRandom -> contract (Z * BufferedRandom).
Variable drawRoundedRect : Z -> Q -> Q -> Q -> list Z.

Hypothesis RandomIndex_in_range : forall count random,
  0 < count ->
  exists index random',
    RandomIndex count random = Returned (index, random') /\ 0 <= index < count.

Lemma generate_sprites_length d spriteSize n : forall i sprites,
  generate_sprites drawRoundedRect d n i spriteSize = Returned sprites ->
  List.length sprites = n.
Proof.
  induction n as [|n IH]; intros i sprites H.
  - injection H as <-. reflexivity.
  - cbn [generate_sprites] in H.
    apply bind_Returned in H as (sprite & _ & H).
    apply bind_Returned in H as (rest & Hrest & H).
    injection H as <-. simpl. f_equal. exact (IH _ _ Hrest).
Qed.

(** X12. With at least one sprite variant and a positive canvas size, the
    two generation loops give [particlesCount] particles and
    [particleSpritesCount] sprites of [spriteSize] by [spriteSize] pixels;
    every particle has its origin inside the tile and names one of the
    sprites, so [sprites[particle.spriteIndex]] never reads outside the
    vector. *)
Theorem generated_particles_name_sprites d random spriteSize :
  0 < particlesCount d ->
  0 < particleSpritesCount d ->
  0 < canvasSize d ->
  exists particles random' sprites,
    generate_particles BufferedRandom RandomIndex d
      (Z.to_nat (particlesCount d)) 0 random = Returned (particles, random')
    /\ generate_sprites drawRoundedRect d
         (Z.to_nat (particleSpritesCount d)) 0 spriteSize = Returned sprites
    /\ Z.of_nat (List.length particles) = particlesCount d
    /\ Z.of_nat (List.length sprites) = particleSpritesCount d
    /\ Forall (fun sprite => width sprite = spriteSize /\ height sprite = spriteSize)
         sprites
    /\ Forall (fun particle =>
                 0 <= Particle.spriteIndex particle
                 /\ (Z.to_nat (Particle.spriteIndex particle) < List.length sprites)%nat
                 /\ 0 <= Particle.x particle < canvasSize d
                 /\ 0 <= Particle.y particle < canvasSize d)
         particles.
Proof.
  intros HN HS Hcs.
  destruct (generate_particles_succeeds BufferedRandom RandomIndex RandomIndex_in_range
              d (Z.to_nat (particlesCount d)) 0 random HS Hcs)
    as (particles & random' & Hparticles & Hcount & Hnth).
  destruct (generate_sprites_succeeds drawRoundedRect d spriteSize
              (Z.to_nat (particleSpritesCount d)) 0 ltac:(lia) ltac:(lia))
    as (sprites & Hsprites & Hdrawn).
  pose proof (generate_sprites_length d spriteSize _ _ _ Hsprites) as Hlen.
  exists particles, random', sprites.
  split; [exact Hparticles|]. split; [exact Hsprites|].
  split; [lia|]. split; [lia|]. split.
  - apply Forall_impl with (2 := Hdrawn).
    intros sprite (w & h & r & ->). split; reflexivity.
  - apply Forall_forall. intros particle Hin.
    apply In_nth with (d := null_particle) in Hin as (k & Hk & <-).
    destruct (Hnth k ltac:(lia)) as (_ & Hindex & Hx & Hy).
    repeat split; try lia.
Qed.

End GeneratedParticles.

Lemma generated_particles_name_sprites_witness :
  exists particles random' sprites,
    generate_particles Sample.BufferedRandom Sample.RandomIndex Sample.descriptor
      2 0 7 = Returned (particles, random')
    /\ generate_sprites Sample.drawRoundedRect Sample.descriptor 2 0 4
       = Returned sprites
    /\ Z.of_nat (List.length sprites) = 2.
Proof.
  destruct (generated_particles_name_sprites
              Sample.BufferedRandom Sample.RandomIndex Sample.drawRoundedRect
              Sample_RandomIndex_positive Sample.descriptor 7 4
              ltac:(simpl; lia) ltac:(simpl; lia) ltac:(simpl; lia))
    as (particles & random' & sprites & Hp & Hs & _ & Hlen & _).
  exists particles, random', sprites. auto.
Defined.

(** ** The default mask *)

Definition kImageSpoilerDarkenAlpha : Z := 32.

(** [QImage(size, format)] followed by [fill(color)], for the pixel of the
    color. *)
Definition filled_image (s : QSize) (f : Format) (pixel : Z) : QImage :=
  {| format := f;
     width := size_width s;
     height := size_height s;
     bits := repeat pixel (Z.to_nat (size_width s * size_height s)) |}.

(** A disk after an operation that it completed. *)
Definition store (disk : Disk) (path : string) (data : list byte) : Disk :=
  {| emojiCacheFolder := emojiCacheFolder disk;
     contents := fun p => if String.eqb p path then Some data else contents disk p;
     may_read := may_read disk;
     may_mkpath := may_mkpath disk;
     may_write := may_write disk |}.

Definition perform (disk : Disk) (event : FileEvent) : Disk :=
  match event with
  | Truncate path => store disk path []
  | Write path data => store disk path data
  | ReadAll _ _ | MakePath _ => disk
  end.

Section DefaultMask.

Variable BufferedRandom : Type.
Variable BufferedRandom_ctor : Z -> BufferedRandom.
Variable RandomIndex : Z -> BufferedRandom -> contract (Z * BufferedRandom).
Variable drawRoundedRect : Z -> Q -> Q -> Q -> list Z.
Variable drawPixel : Q -> Z -> Z -> Z.
Variable QImage_fits : Z -> Z -> bool.
Variable save_PNG : QImage -> list byte.
Variable loadFromData_PNG : list byte -> option QImage.
Variable XXH32 : list byte -> Z.

(** [style::DevicePixelRatio()], [style::ConvertScale] and
    [style::ConvertScaleExact], and the value that a descriptor has for the
    shown duration when its initializer names none. *)
Variable DevicePixelRatio : Z.
Variable ConvertScale : Z -> Z.
Variable ConvertScaleExact : Q -> Q.
Variable particleShownDuration_default : Z.

Hypothesis RandomIndex_in_range : forall count random,
  0 < count ->
  exists index random',
    RandomIndex count random = Returned (index, random') /\ 0 <= index < count.

Definition default_size : Z := ConvertScale kDefaultCanvasSize * DevicePixelRatio.

Definition default_validator : Validator.t :=
  {| Validator.frameDuration := kDefaultFrameDuration;
     Validator.framesCount := kDefaultFramesCount;
     Validator.canvasSize := default_size |}.

Definition prepared_descriptor : SpoilerMessDescriptor :=
  {| particleFadeInDuration := 200;
     particleShownDuration := particleShownDuration_default;
     particleFadeOutDuration := 200;
     particleSizeMin :=
       float64_mul (ConvertScaleExact (3 # 2)) (float64_of_int DevicePixelRatio);
     particleSizeMax :=
       float64_mul (ConvertScaleExact 2) (float64_of_int DevicePixelRatio);
     particleSpritesCount := 5;
     particlesCount := 2000;
     canvasSize := default_size;
     framesCount := kDefaultFramesCount;
     frameDuration := kDefaultFrameDuration |}.

(** The task that [PrepareDefaultSpoilerMess] starts: what it does to the
    files, and the mask it stores into [DefaultMask]. *)
Definition PrepareDefaultSpoilerMess_task (disk : Disk)
    : list FileEvent * contract SpoilerMessCached :=
  let (read, cached) :=
    ReadDefaultMask loadFromData_PNG XXH32 disk (Some default_validator) in
  match cached with
  | Aborted => (read, Aborted)
  | Returned (Some mask) => (read, Returned mask)
  | Returned None =>
      match GenerateSpoilerMess BufferedRandom BufferedRandom_ctor RandomIndex
              drawRoundedRect drawPixel QImage_fits prepared_descriptor with
      | Aborted => (read, Aborted)
      | Returned mask =>
          let (write, written) := WriteDefaultMask save_PNG XXH32 disk mask in
          (read ++ write, written ;;; Returned mask)
      end
  end.

(** [DefaultImageSpoiler], for the mask that [DefaultSpoilerMask] returns. *)
Definition DefaultImageSpoiler (mask : SpoilerMessCached) : contract SpoilerMessCached :=
  let frame := frame_at mask 0 in
  let darkened := filled_image (size (image frame)) Format_ARGB32_Premultiplied
                    (Z.shiftl kImageSpoilerDarkenAlpha 24) in
  let p := drawImage drawPixel (begin_paint darkened) 0 0 (image frame) in
  SpoilerMessCached_ctor (device p)
    (framesCount_of mask) (frameDuration_of mask) (canvasSize_of mask).

Lemma FromSerialized_Some data validator mask :
  FromSerialized loadFromData_PNG XXH32 data validator = Returned (Some mask) ->
  header_accepted XXH32 (Header_read data) validator (skipn 24 data)
  /\ _frameDuration mask = Header.frameDuration (Header_read data)
  /\ _framesCount mask = Header.framesCount (Header_read data)
  /\ _canvasSize mask = Header.canvasSize (Header_read data)
  /\ width (_image mask) = atlas_columns (_framesCount mask) * _canvasSize mask
  /\ height (_image mask) = atlas_rows (_framesCount mask) * _canvasSize mask.
Proof.
  unfold FromSerialized.
  destruct (Z.leb_spec (Z.of_nat (List.length data)) sizeof_Header) as [|Hlong];
    [discriminate|].
  match goal with
  | |- context [if ?b then Returned None else _] => destruct b eqn:Erejected
  end; [discriminate|].
  apply (header_checks XXH32 data validator Hlong) in Erejected.
  match goal with
  | |- context [loadFromData_PNG ?payload] =>
      destruct (loadFromData_PNG payload) as [grayscale|]
  end; [|discriminate].
  destruct (Format_eqb (format grayscale) Format_Grayscale8); [|discriminate].
  cbn [negb].
  match goal with
  | |- context [QSize_eqb ?a ?b] => destruct (QSize_eqb a b)
  end; [|discriminate].
  cbn [negb]. rewrite bytesPerLine_words. cbn [bind]. intros H.
  apply bind_Returned in H as (decoded & Hctor & H).
  injection H as <-.
  apply SpoilerMessCached_ctor_Returned in Hctor as (_ & _ & _ & Hw & Hh & ->).
  cbn [_image _frameDuration _framesCount _canvasSize width height] in *.
  exact (conj Erejected (conj eq_refl (conj eq_refl (conj eq_refl (conj Hw Hh))))).
Qed.

Lemma WriteDefaultMask_writes disk mask path data :
  In (Write path data) (fst (WriteDefaultMask save_PNG XXH32 disk mask)) ->
  serialize save_PNG XXH32 mask = Returned data
  /\ Z.of_nat (List.length data) <= kMaxCacheSize.
Proof.
  unfold WriteDefaultMask.
  destruct (mkpath disk (DefaultMaskCacheFolder disk)); [|intros []].
  cbn [negb]. destruct (serialize save_PNG XXH32 mask) as [|bytes].
  { intros [[=] | []]. }
  destruct (may_write disk _); [|intros [[=] | []]].
  destruct (Z.leb_spec (Z.of_nat (List.length bytes)) kMaxCacheSize) as [Hfits|].
  - intros [[=] | [[=] | [[= _ <-] | []]]]. split; [reflexivity | exact Hfits].
  - intros [[=] | [[=] | []]].
Qed.

Lemma WriteDefaultMask_returns disk mask :
  _frameDuration mask < int32_max ->
  grayscale_bits (_image mask) <> None ->
  snd (WriteDefaultMask save_PNG XXH32 disk mask) = Returned tt.
Proof.
  intros Hfd Hread. unfold WriteDefaultMask.
  destruct (mkpath disk (DefaultMaskCacheFolder disk)); [|reflexivity].
  cbn [negb]. rewrite serialize_Returned by assumption. cbv zeta.
  destruct (may_write disk _); [|reflexivity].
  match goal with |- context [if ?b then _ else _] => destruct b end; reflexivity.
Qed.

(** X13. Whatever the cache file holds, the task of
    [PrepareDefaultSpoilerMess] ends with a mask to publish, never with an
    abort, when the scaled canvas size is positive and ten tiles of it fit
    an [int], Qt can make the atlas of ten by six tiles, the scaled
    particle sizes are positive and ordered, and the shown duration that
    the descriptor leaves to its default is a [crl::time] below 1580, so
    that a life fits the loop: the mask has the default frame duration and
    frame count and the scaled canvas size, and an atlas of ten columns and
    six rows of tiles.  The task writes the cache file only after the cache
    gave it no mask, and then it writes the serialized mask. *)
Theorem PrepareDefaultSpoilerMess_task_publishes disk :
  0 < default_size ->
  in_int32 (default_size * 10) ->
  QImage_fits (default_size * 10) (default_size * 6) = true ->
  (0 < particleSizeMin prepared_descriptor)%Q ->
  (particleSizeMin prepared_descriptor <= particleSizeMax prepared_descriptor)%Q ->
  in_int64 particleShownDuration_default ->
  particleShownDuration_default < 1580 ->
  exists events mask,
    PrepareDefaultSpoilerMess_task disk = (events, Returned mask)
    /\ frameDuration_of mask = 33
    /\ framesCount_of mask = 60
    /\ canvasSize_of mask = default_size
    /\ width (_image mask) = 10 * default_size
    /\ height (_image mask) = 6 * default_size
    /\ forall path data,
         In (Write path data) events ->
         snd (ReadDefaultMask loadFromData_PNG XXH32 disk (Some default_validator))
         = Returned None
         /\ serialize save_PNG XXH32 mask = Returned data
         /\ Z.of_nat (List.length data) <= 5 * 1024 * 1024.
Proof.
  intros Hsize Hint Hmade Hmin Hmax Htime Hshown.
  unfold PrepareDefaultSpoilerMess_task.
  destruct (ReadDefaultMask loadFromData_PNG XXH32 disk (Some default_validator))
    as [read cached] eqn:Hread.
  assert (Hread_events : forall path data, ~ In (Write path data) read).
  { intros path data. replace read with (fst (ReadDefaultMask loadFromData_PNG XXH32
                                                 disk (Some default_validator)))
      by (rewrite Hread; reflexivity).
    unfold ReadDefaultMask.
    destruct (isEmpty (DefaultMaskCacheFolder disk)); [intros []|].
    destruct (open_ReadOnly disk _) as [file|]; [|intros []].
    destruct (Z.of_nat (List.length file) <=? kMaxCacheSize); [|intros []].
    intros [[=] | []]. }
  destruct cached as [|[mask|]].
  - exfalso.
    assert (Hcached : snd (ReadDefaultMask loadFromData_PNG XXH32 disk
                             (Some default_validator)) = Aborted)
      by (rewrite Hread; reflexivity).
    revert Hcached. unfold ReadDefaultMask.
    destruct (isEmpty (DefaultMaskCacheFolder disk)); [discriminate|].
    destruct (open_ReadOnly disk _) as [file|]; [|discriminate].
    destruct (Z.of_nat (List.length file) <=? kMaxCacheSize); [|discriminate].
    apply FromSerialized_never_aborts.
  - assert (Hcached : exists file,
              FromSerialized loadFromData_PNG XXH32 file (Some default_validator)
              = Returned (Some mask)).
    { assert (H : snd (ReadDefaultMask loadFromData_PNG XXH32 disk
                         (Some default_validator)) = Returned (Some mask))
        by (rewrite Hread; reflexivity).
      revert H. unfold ReadDefaultMask.
      destruct (isEmpty (DefaultMaskCacheFolder disk)); [discriminate|].
      destruct (open_ReadOnly disk _) as [file|]; [|discriminate].
      destruct (Z.of_nat (List.length file) <=? kMaxCacheSize); [|discriminate].
      intros H. exists file. exact H. }
    destruct Hcached as (file & Hfile).
    apply FromSerialized_Some in Hfile
      as ((_ & _ & _ & _ & Hvalidator & _) & Hfd & Hfc & Hcs & Hw & Hh).
    destruct (Hvalidator default_validator eq_refl) as (Vfd & Vfc & Vcs).
    cbn [default_validator Validator.frameDuration Validator.framesCount
         Validator.canvasSize] in Vfd, Vfc, Vcs.
    exists read, mask. unfold frameDuration_of, framesCount_of, canvasSize_of.
    rewrite Hw, Hh, Hfd, Hfc, Hcs, <- Vfd, <- Vfc, <- Vcs.
    repeat split; try reflexivity.
    all: exfalso; eapply Hread_events; eassumption.
  - assert (Hchecked : checked prepared_descriptor = true).
    { apply checked_true. cbn [prepared_descriptor framesCount frameDuration
        particlesCount canvasSize particleFadeInDuration particleShownDuration
        particleFadeOutDuration].
      unfold kDefaultFramesCount, kDefaultFrameDuration.
      rewrite !to_int64_small by (unfold in_int64 in *; lia).
      repeat split; try lia; assumption. }
    assert (Hrows : in_int32 (framesCount prepared_descriptor + kFramesPerRow - 1))
      by (unfold in_int32, int32_max; simpl; lia).
    assert (Hwidth : in_int32 (canvasSize prepared_descriptor
                               * atlas_columns (framesCount prepared_descriptor)))
      by exact Hint.
    assert (Hheight : in_int32 (canvasSize prepared_descriptor
                                * atlas_rows (framesCount prepared_descriptor))).
    { change (in_int32 (default_size * 6)).
      unfold in_int32, int32_max in *. lia. }
    assert (Hfits : QImage_fits
                      (canvasSize prepared_descriptor
                       * atlas_columns (framesCount prepared_descriptor))
                      (canvasSize prepared_descriptor
                       * atlas_rows (framesCount prepared_descriptor)) = true)
      by exact Hmade.
    destruct (GenerateSpoilerMess_succeeds BufferedRandom BufferedRandom_ctor
                RandomIndex drawRoundedRect drawPixel QImage_fits RandomIndex_in_range
                prepared_descriptor Hchecked ltac:(simpl; lia)
                Hrows Hwidth Hheight Hfits)
      as (particles & sprites & _ & ->).
    set (mask := {| _image := painted_atlas drawPixel QImage_fits prepared_descriptor
                                particles sprites |}).
    destruct (painted_atlas_size drawPixel QImage_fits prepared_descriptor
                particles sprites Hrows Hwidth Hheight Hfits)
      as (Hw & Hh & _).
    assert (Hctor : SpoilerMessCached_ctor
                      (painted_atlas drawPixel QImage_fits prepared_descriptor
                         particles sprites)
                      (framesCount prepared_descriptor)
                      (frameDuration prepared_descriptor)
                      (canvasSize prepared_descriptor) = Returned mask).
    { apply SpoilerMessCached_ctor_succeeds; try assumption;
        simpl; unfold kDefaultFrameDuration, kDefaultFramesCount; lia. }
    destruct (painted_atlas_accepted drawPixel QImage_fits prepared_descriptor
                particles sprites mask Hctor) as (_ & _ & Hformat & Hlen).
    assert (Hshort : _frameDuration mask < int32_max)
      by (unfold mask; simpl; unfold kDefaultFrameDuration, int32_max; lia).
    assert (Hbytes : grayscale_bits (_image mask) <> None).
    { unfold mask. cbn [_image].
      rewrite (grayscale_bits_first_bytes _ Hformat Hlen). discriminate. }
    pose proof (WriteDefaultMask_returns disk mask Hshort Hbytes) as Hreturns.
    pose proof (WriteDefaultMask_writes disk mask) as Hwrites.
    destruct (WriteDefaultMask save_PNG XXH32 disk mask) as [write written].
    cbn [fst snd] in Hreturns, Hwrites. subst written. cbn [bind].
    exists (read ++ write), mask.
    split; [reflexivity|]. repeat split; try reflexivity.
    + exact Hw.
    + exact Hh.
    + apply in_app_or in H as [H | H];
        [exfalso; eapply Hread_events; eassumption|].
      exact (proj1 (Hwrites _ _ H)).
    + apply in_app_or in H as [H | H];
        [exfalso; eapply Hread_events; eassumption|].
      exact (proj2 (Hwrites _ _ H)).
Qed.

(** X14. [DefaultImageSpoiler] accepts every mask that the constructor
    accepted: it returns, without abort, an asset with the parameters of
    the mask, an atlas of the same size and as many pixels as that size
    asks for. *)
Theorem DefaultImageSpoiler_keeps_layout atlas fc fd cs mask :
  SpoilerMessCached_ctor atlas fc fd cs = Returned mask ->
  exists darkened,
    DefaultImageSpoiler mask = Returned darkened
    /\ framesCount_of darkened = fc
    /\ frameDuration_of darkened = fd
    /\ canvasSize_of darkened = cs
    /\ size (_image darkened) = size atlas
    /\ format (_image darkened) = Format_ARGB32_Premultiplied
    /\ List.length (bits (_image darkened))
       = Z.to_nat (width atlas * height atlas).
Proof.
  intros Hctor.
  apply SpoilerMessCached_ctor_Returned in Hctor as (Hfd & Hfc & Hcs & Hw & Hh & ->).
  unfold DefaultImageSpoiler, framesCount_of, frameDuration_of, canvasSize_of.
  cbn [frame_at image _image _framesCount _frameDuration _canvasSize].
  rewrite SpoilerMessCached_ctor_succeeds by assumption.
  eexists. split; [reflexivity|].
  cbn [_image _framesCount _frameDuration _canvasSize drawImage device
       begin_paint filled_image size size_width size_height width height
       format bits].
  repeat split. rewrite map_pixels_length, repeat_length. reflexivity.
Qed.

End DefaultMask.

Lemma PrepareDefaultSpoilerMess_task_publishes_witness :
  exists events mask,
    PrepareDefaultSpoilerMess_task Sample.BufferedRandom Sample.BufferedRandom_ctor
      Sample.RandomIndex Sample.drawRoundedRect Sample.drawPixel Sample.QImage_fits
      Sample.save_PNG Sample.loadFromData_PNG Sample.XXH32
      1 (fun v => v) (fun v => v) 0
      {| emojiCacheFolder := EmptyString;
         contents := fun _ => None;
         may_read := fun _ => true;
         may_mkpath := fun _ => true;
         may_write := fun _ => true |}
    = (events, Returned mask)
    /\ canvasSize_of mask = 100.
Proof.
  destruct (PrepareDefaultSpoilerMess_task_publishes
              Sample.BufferedRandom Sample.BufferedRandom_ctor
              Sample.RandomIndex Sample.drawRoundedRect Sample.drawPixel
              Sample.QImage_fits
              Sample.save_PNG Sample.loadFromData_PNG Sample.XXH32
              1 (fun v => v) (fun v => v) 0 Sample_RandomIndex_positive
              {| emojiCacheFolder := EmptyString;
                 contents := fun _ => None;
                 may_read := fun _ => true;
                 may_mkpath := fun _ => true;
                 may_write := fun _ => true |}
              ltac:(vm_compute; reflexivity)
              ltac:(unfold in_int32, int32_max; vm_compute; split; discriminate)
              ltac:(vm_compute; reflexivity)
              ltac:(vm_compute; reflexivity)
              ltac:(vm_compute; discriminate)
              ltac:(unfold in_int64; lia) ltac:(lia))
    as (events & mask & Htask & _ & _ & Hcs & _).
  exists events, mask. split; [exact Htask | exact Hcs].
Defined.

Lemma DefaultImageSpoiler_keeps_layout_witness :
  exists darkened,
    DefaultImageSpoiler Sample.drawPixel sample_mask = Returned darkened
    /\ size (_image darkened) = size (_image sample_mask).
Proof.
  destruct (DefaultImageSpoiler_keeps_layout Sample.drawPixel
              (_image sample_mask) 4 10 3 sample_mask eq_refl)
    as (darkened & H & _ & _ & _ & Hsize & _).
  exists darkened. split; [exact H | exact Hsize].
Defined.

(** ** Writing the cache file, then reading it *)

Section CacheFile.

Variable save_PNG : QImage -> list byte.
Variable loadFromData_PNG : list byte -> option QImage.
Variable XXH32 : list byte -> Z.

(** X15. On a disk that lets the folder be made and the file be written
    and read, the file holds after [WriteDefaultMask] the serialized mask
    if that is at most 5 MiB, and [ReadDefaultMask] then returns what
    [FromSerialized] makes of these bytes; a larger serialized mask leaves
    the file empty, because the file is opened for writing before the size
    is looked at, and the next read finds no mask. *)
Theorem ReadDefaultMask_after_WriteDefaultMask disk mask data validator :
  let path := DefaultMaskCachePath (DefaultMaskCacheFolder disk) in
  mkpath disk (DefaultMaskCacheFolder disk) = true ->
  may_write disk path = true ->
  may_read disk path = true ->
  serialize save_PNG XXH32 mask = Returned data ->
  let after :=
    fold_left perform (fst (WriteDefaultMask save_PNG XXH32 disk mask)) disk in
  (Z.of_nat (List.length data) <= 5 * 1024 * 1024 ->
   contents after path = Some data
   /\ ReadDefaultMask loadFromData_PNG XXH32 after validator
      = ([ReadAll path data], FromSerialized loadFromData_PNG XXH32 data validator))
  /\ (5 * 1024 * 1024 < Z.of_nat (List.length data) ->
      contents after path = Some []
      /\ ReadDefaultMask loadFromData_PNG XXH32 after validator
         = ([ReadAll path []], Returned None)).
Proof.
  intros path Hmkpath Hwrite Hread Hdata after.
  change (5 * 1024 * 1024) with kMaxCacheSize.
  assert (Hfolder : isEmpty (DefaultMaskCacheFolder disk) = false).
  { unfold mkpath in Hmkpath. apply andb_true_iff in Hmkpath as [H _].
    apply negb_true_iff in H. exact H. }
  assert (Hstored : forall bytes,
    Z.of_nat (List.length bytes) <= kMaxCacheSize ->
    contents (store disk path bytes) path = Some bytes
    /\ ReadDefaultMask loadFromData_PNG XXH32 (store disk path bytes) validator
       = ([ReadAll path bytes],
          FromSerialized loadFromData_PNG XXH32 bytes validator)).
  { intros bytes Hfits. split.
    - cbn [store contents]. rewrite String.eqb_refl. reflexivity.
    - unfold ReadDefaultMask.
      change (DefaultMaskCacheFolder (store disk path bytes))
        with (DefaultMaskCacheFolder disk).
      rewrite Hfolder. fold path. unfold open_ReadOnly.
      cbn [store may_read contents]. rewrite Hread, String.eqb_refl.
      destruct (Z.leb_spec (Z.of_nat (List.length bytes)) kMaxCacheSize);
        [reflexivity | lia]. }
  unfold after, WriteDefaultMask. rewrite Hmkpath. cbn [negb].
  rewrite Hdata. fold path. rewrite Hwrite.
  destruct (Z.leb_spec (Z.of_nat (List.length data)) kMaxCacheSize) as [Hfits | Hlarge];
    cbn [fst fold_left perform]; (split; [intros H|intros H]; try lia).
  - assert (Hsame : forall p, contents (store (store disk path []) path data) p
                              = contents (store disk path data) p).
    { intros p. cbn [store contents]. destruct (String.eqb p path); reflexivity. }
    split.
    + rewrite Hsame. exact (proj1 (Hstored data Hfits)).
    + unfold ReadDefaultMask.
      change (DefaultMaskCacheFolder (store (store disk path []) path data))
        with (DefaultMaskCacheFolder disk).
      rewrite Hfolder. fold path. unfold open_ReadOnly.
      cbn [store may_read contents]. rewrite Hread, String.eqb_refl.
      destruct (Z.leb_spec (Z.of_nat (List.length data)) kMaxCacheSize);
        [reflexivity | lia].
  - destruct (Hstored [] ltac:(unfold kMaxCacheSize; simpl; lia)) as [Hc Hr].
    split; [exact Hc|]. rewrite Hr. reflexivity.
Qed.

End CacheFile.

Lemma ReadDefaultMask_after_WriteDefaultMask_witness :
  let disk := {| emojiCacheFolder := "cache";
                 contents := fun _ => None;
                 may_read := fun _ => true;
                 may_mkpath := fun _ => true;
                 may_write := fun _ => true |} in
  exists data,
    Sample.serialize sample_mask = Returned data
    /\ contents
         (fold_left perform
            (fst (WriteDefaultMask Sample.save_PNG Sample.XXH32 disk sample_mask)) disk)
         "cache/spoiler/mask"
       = Some data.
Proof.
  intros disk.
  let r := eval vm_compute in (Sample.serialize sample_mask) in
  match r with
  | Returned ?d =>
      exists d;
      assert (Hs : Sample.serialize sample_mask = Returned d)
        by (vm_compute; reflexivity)
  end.
  split; [exact Hs|].
  refine (proj1 (proj1 (ReadDefaultMask_after_WriteDefaultMask
                          Sample.save_PNG Sample.loadFromData_PNG Sample.XXH32
                          disk sample_mask _ None eq_refl eq_refl eq_refl Hs) _)).
  vm_compute. discriminate.
Defined.

(** ** Publishing the default mask

    [PrepareDefaultSpoilerMess] and [DefaultSpoilerMask] as a transition
    system: one step is one operation on the shared variables
    [DefaultMask] (an atomic pointer), [DefaultMaskMutex] and
    [DefaultMaskSignal], by the task or by a thread inside
    [DefaultSpoilerMask].  An atomic load or store, the construction and
    the destruction of a [std::unique_lock], [notify_all] and the two
    halves of [wait] (release the mutex and block; wake up and take the
    mutex again) are one step each; a waiting thread may wake up without a
    notification, as the standard allows.  [PrepareDefaultSpoilerMess] is
    called at most once. *)

Module Publication.

#[local] Open Scope nat_scope.

Inductive Thread : Type :=
| TaskThread
| ReaderThread (i : nat).

(** Where the task is. *)
Inductive TaskPc : Type :=
| NotPrepared   (* PrepareDefaultSpoilerMess was not called *)
| Computing     (* reading the cache or generating *)
| Stored        (* after DefaultMask = new ..., before the lock *)
| Locked        (* holds the lock, before notify_all *)
| Notified      (* after notify_all, writing the cache, holds the lock *)
| Finished.     (* the lock is released *)

(** Where a thread is in [DefaultSpoilerMask]. *)
Inductive ReaderPc : Type :=
| Idle          (* has not called *)
| Asserting     (* the first load gave nullptr; before the two Asserts *)
| Locking       (* at the top of the loop, before the lock *)
| Checking      (* holds the lock, before the load *)
| CheckedNull   (* holds the lock, the load gave nullptr, before wait *)
| Waiting       (* inside wait, blocked, the mutex released *)
| Woken         (* inside wait, woken up, before taking the mutex again *)
| Looping       (* wait returned, holds the lock, at the end of the loop body *)
| Returns (p : nat)   (* returned *p *)
| Crashed.      (* an Assert failed *)

Record State : Type := {
  DefaultMask : option nat;
  pointers : bool;            (* DefaultMaskSignal and DefaultMaskMutex are set *)
  owner : option Thread;      (* who holds DefaultMaskMutex *)
  task : TaskPc;
  reader : nat -> ReaderPc
}.

Definition initial : State :=
  {| DefaultMask := None; pointers := false; owner := None;
     task := NotPrepared; reader := fun _ => Idle |}.

Definition set_reader (readers : nat -> ReaderPc) (i : nat) (pc : ReaderPc)
    : nat -> ReaderPc :=
  fun j => if Nat.eqb j i then pc else readers j.

(** [notify_all]: every thread blocked in [wait] is woken up. *)
Definition notify_all (readers : nat -> ReaderPc) : nat -> ReaderPc :=
  fun j => match readers j with
           | Waiting => Woken
           | pc => pc
           end.

Inductive Label : Type :=
| Prepare | Store (p : nat) | TaskLock | Notify | TaskUnlock
| Call (i : nat) | Asserts (i : nat) | Lock (i : nat) | Load (i : nat)
| Wait (i : nat) | Spurious (i : nat) | Relock (i : nat) | Unlock (i : nat).

Inductive step : Label -> State -> State -> Prop :=
| step_Prepare s :
    task s = NotPrepared ->
    step Prepare s
      {| DefaultMask := DefaultMask s; pointers := true; owner := owner s;
         task := Computing; reader := reader s |}
| step_Store s p :
    task s = Computing ->
    step (Store p) s
      {| DefaultMask := Some p; pointers := pointers s; owner := owner s;
         task := Stored; reader := reader s |}
| step_TaskLock s :
    task s = Stored -> owner s = None ->
    step TaskLock s
      {| DefaultMask := DefaultMask s; pointers := pointers s;
         owner := Some TaskThread; task := Locked; reader := reader s |}
| step_Notify s :
    task s = Locked ->
    step Notify s
      {| DefaultMask := DefaultMask s; pointers := pointers s; owner := owner s;
         task := Notified; reader := notify_all (reader s) |}
| step_TaskUnlock s :
    task s = Notified ->
    step TaskUnlock s
      {| DefaultMask := DefaultMask s; pointers := pointers s; owner := None;
         task := Finished; reader := reader s |}
| step_Call s i :
    reader s i = Idle ->
    step (Call i) s
      {| DefaultMask := DefaultMask s; pointers := pointers s; owner := owner s;
         task := task s;
         reader := set_reader (reader s) i
                     match DefaultMask s with
                     | Some p => Returns p
                     | None => Asserting
                     end |}
| step_Asserts s i :
    reader s i = Asserting ->
    step (Asserts i) s
      {| DefaultMask := DefaultMask s; pointers := pointers s; owner := owner s;
         task := task s;
         reader := set_reader (reader s) i
                     (if pointers s then Locking else Crashed) |}
| step_Lock s i :
    reader s i = Locking -> owner s = None ->
    step (Lock i) s
      {| DefaultMask := DefaultMask s; pointers := pointers s;
         owner := Some (ReaderThread i); task := task s;
         reader := set_reader (reader s) i Checking |}
| step_Load s i :
    reader s i = Checking ->
    step (Load i) s
      {| DefaultMask := DefaultMask s; pointers := pointers s;
         owner := match DefaultMask s with
                  | Some _ => None
                  | None => owner s
                  end;
         task := task s;
         reader := set_reader (reader s) i
                     match DefaultMask s with
                     | Some p => Returns p
                     | None => CheckedNull
                     end |}
| step_Wait s i :
    reader s i = CheckedNull ->
    step (Wait i) s
      {| DefaultMask := DefaultMask s; pointers := pointers s; owner := None;
         task := task s; reader := set_reader (reader s) i Waiting |}
| step_Spurious s i :
    reader s i = Waiting ->
    step (Spurious i) s
      {| DefaultMask := DefaultMask s; pointers := pointers s; owner := owner s;
         task := task s; reader := set_reader (reader s) i Woken |}
| step_Relock s i :
    reader s i = Woken -> owner s = None ->
    step (Relock i) s
      {| DefaultMask := DefaultMask s; pointers := pointers s;
         owner := Some (ReaderThread i); task := task s;
         reader := set_reader (reader s) i Looping |}
| step_Unlock s i :
    reader s i = Looping ->
    step (Unlock i) s
      {| DefaultMask := DefaultMask s; pointers := pointers s; owner := None;
         task := task s; reader := set_reader (reader s) i Locking |}.

Inductive reachable : State -> Prop :=
| reachable_initial : reachable initial
| reachable_step s label s' : reachable s -> step label s s' -> reachable s'.

Definition holds_lock (pc : ReaderPc) : bool :=
  match pc with
  | Checking | CheckedNull | Looping => true
  | _ => false
  end.

Definition after_store (pc : TaskPc) : bool :=
  match pc with
  | Stored | Locked | Notified | Finished => true
  | _ => false
  end.

Definition after_notify (pc : TaskPc) : bool :=
  match pc with
  | Notified | Finished => true
  | _ => false
  end.

Definition waits_for_notify (pc : ReaderPc) : bool :=
  match pc with
  | CheckedNull | Waiting => true
  | _ => false
  end.

Record invariant (s : State) : Prop := {
  inv_store : after_store (task s) = true <-> DefaultMask s <> None;
  inv_task_lock :
    owner s = Some TaskThread <-> (task s = Locked \/ task s = Notified);
  inv_reader_lock :
    forall i, owner s = Some (ReaderThread i) <-> holds_lock (reader s i) = true;
  inv_notified :
    after_notify (task s) = true -> forall i, waits_for_notify (reader s i) = false;
  inv_returns : forall i p, reader s i = Returns p -> DefaultMask s = Some p;
  inv_pointers : pointers s = true <-> task s <> NotPrepared
}.


Lemma invariant_initial : invariant initial.
Proof.
  constructor; simpl.
  - split; [discriminate | intros H; contradiction].
  - split; [discriminate | intros [H | H]; discriminate].
  - intros i. split; discriminate.
  - discriminate.
  - intros i p H. discriminate.
  - split; [discriminate | intros H; contradiction].
Qed.

Lemma set_reader_same readers i pc : set_reader readers i pc i = pc.
Proof. unfold set_reader. rewrite Nat.eqb_refl. reflexivity. Qed.

Lemma set_reader_other readers i pc j :
  j <> i -> set_reader readers i pc j = readers j.
Proof.
  intros H. unfold set_reader. destruct (Nat.eqb_spec j i); [contradiction|].
  reflexivity.
Qed.

Ltac at_reader j i :=
  destruct (Nat.eq_dec j i) as [->|];
  [rewrite ?set_reader_same in * | rewrite ?set_reader_other in * by assumption].

Ltac use_invariant Hreader Hnotified Hreturns :=
  repeat match goal with
  | k : nat |- _ =>
      lazymatch goal with
      | _ : forall p, reader _ k = Returns p -> _ |- _ => fail
      | _ =>
          pose proof (Hreader k);
          pose proof (fun H => Hnotified H k);
          pose proof (Hreturns k)
      end
  end.

Ltac known :=
  repeat match goal with
  | H : task _ = ?pc |- _ => rewrite H in *; clear H
  | H : owner _ = None |- _ => rewrite H in *; clear H
  | H : reader _ _ = ?pc |- _ =>
      lazymatch pc with
      | Returns _ => fail
      | _ => rewrite H in *; clear H
      end
  end.

Ltac cases :=
  repeat match goal with
  | |- context [match DefaultMask ?s with _ => _ end] => destruct (DefaultMask s) eqn:?
  | H : context [match DefaultMask ?s with _ => _ end] |- _ =>
      destruct (DefaultMask s) eqn:?
  | |- context [if pointers ?s then _ else _] => destruct (pointers s) eqn:?
  | H : context [if pointers ?s then _ else _] |- _ => destruct (pointers s) eqn:?
  | |- context [notify_all ?r ?j] =>
      unfold notify_all in *; destruct (r j) eqn:?
  | H : context [notify_all ?r ?j] |- _ =>
      unfold notify_all in *; destruct (r j) eqn:?
  end.

Ltac finish :=
  simpl in *;
  repeat match goal with
  | H : forall p, reader ?s ?j = Returns p -> _, H' : reader ?s ?j = Returns ?q |- _ =>
      pose proof (H q H'); clear H
  | H : forall p, Returns ?q = Returns p -> _ |- _ =>
      pose proof (H q eq_refl); clear H
  | H : Some _ = Some _ |- _ => injection H as H; subst
  | H : Returns _ = Returns _ |- _ => injection H as H; subst
  end;
  try congruence; try discriminate; try tauto;
  try solve [intuition (try congruence; try discriminate)];
  try solve [match goal with
             | H : context [task ?s] |- _ =>
                 destruct (task s); simpl in *;
                 intuition (try congruence; try discriminate)
             end].

Lemma invariant_step s label s' :
  invariant s -> step label s s' -> invariant s'.
Proof.
  intros [Hstore Htask Hreader Hnotified Hreturns Hpointers] Hstep.
  inversion Hstep; subst; constructor; cbn [DefaultMask pointers owner task reader].
  all: intros.
  all: try match goal with
       | |- context [set_reader _ ?i _ ?j] => at_reader j i
       | H : context [set_reader _ ?i _ ?j] |- _ => at_reader j i
       end.
  all: use_invariant Hreader Hnotified Hreturns.
  all: known.
  all: cases.
  all: finish.
Qed.

Lemma reachable_invariant s : reachable s -> invariant s.
Proof.
  induction 1 as [|s label s' _ IH Hstep].
  - exact invariant_initial.
  - exact (invariant_step s label s' IH Hstep).
Qed.


(** A state in which the task has finished and thread 0 has returned. *)
Definition published (p : nat) : State :=
  {| DefaultMask := Some p; pointers := true; owner := None; task := Finished;
     reader := set_reader (fun _ => Idle) 0 (Returns p) |}.

Lemma published_reachable p : reachable (published p).
Proof.
  pose (s1 := {| DefaultMask := None; pointers := true; owner := None;
                 task := Computing; reader := fun _ => Idle |}).
  pose (s2 := {| DefaultMask := Some p; pointers := true; owner := None;
                 task := Stored; reader := fun _ => Idle |}).
  pose (s3 := {| DefaultMask := Some p; pointers := true; owner := Some TaskThread;
                 task := Locked; reader := fun _ => Idle |}).
  pose (s4 := {| DefaultMask := Some p; pointers := true; owner := Some TaskThread;
                 task := Notified; reader := fun _ => Idle |}).
  pose (s5 := {| DefaultMask := Some p; pointers := true; owner := None;
                 task := Finished; reader := fun _ => Idle |}).
  assert (R1 : reachable s1)
    by exact (reachable_step _ _ _ reachable_initial (step_Prepare initial eq_refl)).
  assert (R2 : reachable s2)
    by exact (reachable_step _ _ _ R1 (step_Store s1 p eq_refl)).
  assert (R3 : reachable s3)
    by exact (reachable_step _ _ _ R2 (step_TaskLock s2 eq_refl eq_refl)).
  assert (R4 : reachable s4)
    by exact (reachable_step _ _ _ R3 (step_Notify s3 eq_refl)).
  assert (R5 : reachable s5)
    by exact (reachable_step _ _ _ R4 (step_TaskUnlock s4 eq_refl)).
  exact (reachable_step _ _ _ R5 (step_Call s5 0 eq_refl)).
Qed.

(** X16. In every state that the threads can reach, a thread that
    returned from [DefaultSpoilerMask] returned the object that
    [DefaultMask] points to, so all threads return the same object; and no
    step changes [DefaultMask] once it points to an object. *)
Theorem readers_return_the_published_mask s :
  reachable s ->
  (forall i p, reader s i = Returns p -> DefaultMask s = Some p)
  /\ (forall i j p q, reader s i = Returns p -> reader s j = Returns q -> p = q)
  /\ (forall label s' p,
        step label s s' -> DefaultMask s = Some p -> DefaultMask s' = Some p).
Proof.
  intros Hreachable.
  destruct (reachable_invariant s Hreachable) as [Hstore _ _ _ Hreturns _].
  split; [exact Hreturns|]. split.
  - intros i j p q Hi Hj.
    apply Hreturns in Hi. apply Hreturns in Hj. congruence.
  - intros label s' p Hstep Hmask.
    inversion Hstep; subst; cbn [DefaultMask]; try exact Hmask.
    exfalso.
    match goal with H : task s = Computing |- _ => rewrite H in Hstore end.
    simpl in Hstore. destruct Hstore as [_ Hstore].
    assert (false = true) by (apply Hstore; congruence). discriminate.
Qed.

Lemma readers_return_the_published_mask_witness :
  DefaultMask (published 7) = Some 7.
Proof.
  exact (proj1 (readers_return_the_published_mask (published 7)
                  (published_reachable 7)) 0%nat 7%nat eq_refl).
Defined.

(** X17. No wake-up is lost: once the task has called [notify_all], no
    thread is blocked in [wait] without having been woken, and none is on
    its way into [wait]. *)
Theorem no_lost_wakeup s i :
  reachable s ->
  task s = Notified \/ task s = Finished ->
  reader s i <> Waiting /\ reader s i <> CheckedNull.
Proof.
  intros Hreachable Htask.
  destruct (reachable_invariant s Hreachable) as [_ _ _ Hnotified _ _].
  assert (Hafter : after_notify (task s) = true)
    by (destruct Htask as [-> | ->]; reflexivity).
  specialize (Hnotified Hafter i).
  split; intros H; rewrite H in Hnotified; discriminate.
Qed.

Lemma no_lost_wakeup_witness :
  reader (published 7) 3 <> Waiting /\ reader (published 7) 3 <> CheckedNull.
Proof.
  exact (no_lost_wakeup (published 7) 3 (published_reachable 7) (or_intror eq_refl)).
Defined.

(** The steps that the code takes by itself: all but a new call, a wake-up
    without notification and the call of [PrepareDefaultSpoilerMess]. *)
Definition own_step (label : Label) : bool :=
  match label with
  | Prepare | Call _ | Spurious _ => false
  | _ => true
  end.

(** A thread inside [DefaultSpoilerMask]. *)
Definition inside (pc : ReaderPc) : bool :=
  match pc with
  | Idle | Returns _ | Crashed => false
  | _ => true
  end.

Lemma holder_steps s k :
  holds_lock (reader s k) = true ->
  exists label s', step label s s' /\ own_step label = true.
Proof.
  intros Hholds. destruct (reader s k) eqn:Hk; try discriminate.
  - eexists (Load k), _. split; [exact (step_Load s k Hk) | reflexivity].
  - eexists (Wait k), _. split; [exact (step_Wait s k Hk) | reflexivity].
  - eexists (Unlock k), _. split; [exact (step_Unlock s k Hk) | reflexivity].
Qed.

(** X18. After [PrepareDefaultSpoilerMess] was called the threads never
    get stuck: in every reachable state in which the task has not finished
    or some thread is inside [DefaultSpoilerMask], the task or a thread can
    take a step of its own; no thread depends on a wake-up without
    notification. *)
Theorem publication_never_stuck s :
  reachable s ->
  task s <> NotPrepared ->
  task s <> Finished \/ (exists i, inside (reader s i) = true) ->
  exists label s', step label s s' /\ own_step label = true.
Proof.
  intros Hreachable Hprepared Hbusy.
  destruct (reachable_invariant s Hreachable)
    as [_ Htask Hreader Hnotified _ _].
  assert (Hfree : forall label s',
            (owner s = None -> step label s s') -> own_step label = true ->
            task s <> Locked -> task s <> Notified ->
            exists label s', step label s s' /\ own_step label = true).
  { intros label s' Hstep Hown Hl Hn.
    destruct (owner s) as [[|k]|] eqn:Howner.
    - exfalso. destruct (proj1 Htask eq_refl); contradiction.
    - apply (holder_steps s k). apply Hreader. reflexivity.
    - exists label, s'. split; [apply Hstep; reflexivity | exact Hown]. }
  destruct (task s) eqn:Htaskpc.
  - contradiction.
  - eexists (Store 0), _. split; [exact (step_Store s 0 Htaskpc) | reflexivity].
  - apply (Hfree TaskLock
             {| DefaultMask := DefaultMask s; pointers := pointers s;
                owner := Some TaskThread; task := Locked; reader := reader s |});
      try discriminate; try reflexivity.
    intros Howner. exact (step_TaskLock s Htaskpc Howner).
  - eexists Notify, _. split; [exact (step_Notify s Htaskpc) | reflexivity].
  - eexists TaskUnlock, _. split; [exact (step_TaskUnlock s Htaskpc) | reflexivity].
  - destruct Hbusy as [Hbusy | (i & Hinside)]; [contradiction|].
    specialize (Hnotified eq_refl i).
    destruct (reader s i) eqn:Hi; try discriminate.
    + eexists (Asserts i), _. split; [exact (step_Asserts s i Hi) | reflexivity].
    + apply (Hfree (Lock i)
               {| DefaultMask := DefaultMask s; pointers := pointers s;
                  owner := Some (ReaderThread i); task := task s;
                  reader := set_reader (reader s) i Checking |});
        try discriminate; try reflexivity.
      intros Howner. exact (step_Lock s i Hi Howner).
    + eexists (Load i), _. split; [exact (step_Load s i Hi) | reflexivity].
    + apply (Hfree (Relock i)
               {| DefaultMask := DefaultMask s; pointers := pointers s;
                  owner := Some (ReaderThread i); task := task s;
                  reader := set_reader (reader s) i Looping |});
        try discriminate; try reflexivity.
      intros Howner. exact (step_Relock s i Hi Howner).
    + eexists (Unlock i), _. split; [exact (step_Unlock s i Hi) | reflexivity].
Qed.

(** A state in which thread 0 waits while the task computes. *)
Definition waiting : State :=
  {| DefaultMask := None; pointers := true; owner := None; task := Computing;
     reader :=
       set_reader
         (set_reader
            (set_reader
               (set_reader (set_reader (fun _ => Idle) 0 Asserting) 0 Locking)
               0 Checking)
            0 CheckedNull)
         0 Waiting |}.

Lemma waiting_reachable : reachable waiting.
Proof.
  pose (s1 := {| DefaultMask := None; pointers := true; owner := None;
                 task := Computing; reader := fun _ => Idle |}).
  pose (s2 := {| DefaultMask := None; pointers := true; owner := None;
                 task := Computing;
                 reader := set_reader (reader s1) 0 Asserting |}).
  pose (s3 := {| DefaultMask := None; pointers := true; owner := None;
                 task := Computing;
                 reader := set_reader (reader s2) 0 Locking |}).
  pose (s4 := {| DefaultMask := None; pointers := true;
                 owner := Some (ReaderThread 0); task := Computing;
                 reader := set_reader (reader s3) 0 Checking |}).
  pose (s5 := {| DefaultMask := None; pointers := true;
                 owner := Some (ReaderThread 0); task := Computing;
                 reader := set_reader (reader s4) 0 CheckedNull |}).
  pose (s6 := {| DefaultMask := None; pointers := true; owner := None;
                 task := Computing;
                 reader := set_reader (reader s5) 0 Waiting |}).
  assert (R1 : reachable s1)
    by exact (reachable_step _ _ _ reachable_initial (step_Prepare initial eq_refl)).
  assert (R2 : reachable s2)
    by exact (reachable_step _ _ _ R1 (step_Call s1 0 eq_refl)).
  assert (R3 : reachable s3)
    by exact (reachable_step _ _ _ R2 (step_Asserts s2 0 eq_refl)).
  assert (R4 : reachable s4)
    by exact (reachable_step _ _ _ R3 (step_Lock s3 0 eq_refl eq_refl)).
  assert (R5 : reachable s5)
    by exact (reachable_step _ _ _ R4 (step_Load s4 0 eq_refl)).
  assert (R6 : reachable s6)
    by exact (reachable_step _ _ _ R5 (step_Wait s5 0 eq_refl)).
  exact R6.
Qed.

Lemma publication_never_stuck_witness :
  exists label s', step label waiting s' /\ own_step label = true.
Proof.
  assert (Hprepared : task waiting <> NotPrepared) by discriminate.
  assert (Hbusy : task waiting <> Finished) by discriminate.
  exact (publication_never_stuck waiting waiting_reachable Hprepared
           (or_introl Hbusy)).
Defined.

(** Executions: the labels of the steps taken from a state, in their order. *)
Inductive steps : State -> list Label -> State -> Prop :=
| steps_done s : steps s [] s
| steps_next s label s' labels s'' :
    step label s s' -> steps s' labels s'' -> steps s (label :: labels) s''.




(** From [s] the steps in [allowed] can lead to a state in [goal]. *)
Definition leads (allowed : Label -> Prop) (s : State) (goal : State -> Prop)
    : Prop :=
  exists labels s', steps s labels s' /\ Forall allowed labels /\ goal s'.



Lemma steps_reachable s labels s' :
  reachable s -> steps s labels s' -> reachable s'.
Proof.
  intros Hreachable Hsteps. induction Hsteps as [|s label s' labels s'' Hstep _ IH].
  - exact Hreachable.
  - apply IH. exact (reachable_step s label s' Hreachable Hstep).
Qed.











Lemma leads_reachable allowed s goal :
  reachable s -> leads allowed s goal ->
  leads allowed s (fun s' => reachable s' /\ goal s').
Proof.
  intros Hreachable (labels & s' & Hsteps & Hlabels & Hgoal).
  exists labels, s'. split; [exact Hsteps|]. split; [exact Hlabels|].
  split; [exact (steps_reachable s labels s' Hreachable Hsteps) | exact Hgoal].
Qed.



















End Publication.
